(** * Freesound back end: token lifecycle, read-through cache, search
      aggregator and media resolver

    A shallow embedding of [src/core/spotify.js] and [src/core/youtube.js].

    Asynchronous methods are embedded as resumptions: a method runs on the
    world it is called in up to its next [await] on an external service, and
    is resumed with the service's reply on the world of that later moment.
    Running a resumption against an environment gives the sequential
    behaviour of one call; interleaving several of them over one world gives
    the behaviour of concurrent calls.

    Numbers that the source keeps integral are [Z]; scores that it scales by
    0.5, 0.3, 0.2 and durations in seconds are doubles, given by the
    rationals ([Q]) they denote, with every operation on them rounded as
    IEEE 754 rounds it ([Double]).
    Library functions the source calls but does not define
    ([String.prototype.toLowerCase], [trim], [encodeURIComponent],
    [JSON.stringify], [JSON.parse]) are the fields of [JsRuntime].
    [console.*] calls are left out. *)

From Stdlib Require Import ZArith QArith Qminmax Qround Qabs String Ascii List Lia.
From Stdlib Require Import Sorting.Sorted Sorting.Permutation Lqa.
From Stdlib Require Import Floats.SpecFloat.
From stdpp Require Import gmap strings list pretty.

Local Open Scope Z_scope.
Local Set Warnings "-register-all".

(** ** Values, failures, records *)

(** JSON-serialisable values, as handed to and from the cache. *)
Inductive json :=
| JNull
| JBool (b : bool)
| JNum (n : Z)
| JStr (s : string)
| JArr (items : list json)
| JObj (fields : list (string * json)).

(** What a [throw] (or a rejected promise) carries, one constructor per
    kind of failure raised in the two source files. *)
Inductive Exn :=
| NetworkError (msg : string)        (* fetch / redis / exec rejected *)
| BodyError                          (* response.json() or .text() rejected *)
| SyntaxError                        (* JSON.parse threw *)
| TypeError                          (* property read on undefined *)
| HttpRefreshError (status : Z)      (* Errore HTTP <status> durante il refresh del token *)
| HttpClientTokenError (status : Z)  (* Errore HTTP <status> nel recupero del token client *)
| NoTokenError (cause : Exn)         (* Impossibile ottenere token per la richiesta API *)
| ApiError (status : Z) (msg : option string) (* the API's own message, or Errore API <status> *)
| NoValidVideo                       (* Nessun video valido trovato nella ricerca iniziale *)
| NoDurationMatch (candidates : nat) (* Nessun video trovato tra i primi N risultati che soddisfa il criterio di durata *)
| NoVideoNoFilter                    (* Nessun video valido trovato (e nessun filtro durata) *)
| SearchFatal (cause : Exn)          (* Errore yt-dlp fatale durante ricerca metadati *)
| DownloadFailed (cause : Exn)       (* Errore yt-dlp durante download e file di output non trovato *)
| FileMissing                        (* File non trovato dopo download del video selezionato *)
| Custom (payload : json).           (* anything else a callback may throw *)

Inductive Result (A : Type) :=
| Ok (a : A)
| Throw (e : Exn).
Arguments Ok {A} a.
Arguments Throw {A} e.

(** [session.tokens], as [setUserTokens] writes it. *)
Record Tokens := {
  accessToken : string;
  refreshToken : option string;
  expiresAt : Z;
  scope : option string
}.

(** The body of a successful token-endpoint response. *)
Record TokenData := {
  access_token : option string;
  refresh_token : option string;
  expires_in : Z;
  td_scope : option string
}.

(** The fields the error paths read from the JSON body of a failed
    response: [error.message], [error.status] and [message]. *)
Record ErrorBody := {
  error_message : option string;
  error_status : option Z;
  top_message : option string
}.

(** A [fetch] response. [json_body] is what [response.json()] resolves to
    on a successful response, read at the type the caller uses it at, and
    [error_json] what it resolves to on a failed one ([None]: it rejects).
    [text_body] is what [response.text()] resolves to at the place the
    source calls it ([None]: it rejects, as it does once [json()] has
    consumed the body). [emptyBody] is
    [headers.get('content-length') === '0']. *)
Record Response (D : Type) := {
  status : Z;
  statusText : string;
  json_body : option D;
  error_json : option ErrorBody;
  text_body : option string;
  emptyBody : bool
}.
Arguments status {D} r.
Arguments statusText {D} r.
Arguments json_body {D} r.
Arguments error_json {D} r.
Arguments text_body {D} r.
Arguments emptyBody {D} r.

Definition ok {D} (r : Response D) : bool :=
  (200 <=? status r) && (status r <=? 299).

(** What [child_process.exec] resolves or rejects with. *)
Record ExecOutput := {
  stdout : string;
  stderr : string
}.

Inductive ExecResult :=
| ExecResolved (out : ExecOutput)
| ExecRejected (err : Exn) (out : option string) (errOut : option string).

Inductive Grant :=
| ClientCredentialsGrant
| AuthorizationCodeGrant (code : string)
| RefreshTokenGrant (refresh_token : string).

(** ** The world

    Everything a method can read or write synchronously, together with the
    state of the services behind the awaits. *)
Record World := {
  now : Z;                                   (* Date.now() *)
  sessions : gmap string Tokens;             (* session.tokens of the session object with that id *)
  sessionStore : gmap string Tokens;         (* what session.save() persisted *)
  clientCredentialsToken : option string;    (* this.clientCredentialsToken *)
  clientCredentialsTokenExpiresAt : Z;       (* this.clientCredentialsTokenExpiresAt *)
  files : gset string;                       (* paths for which fs.existsSync holds *)
  redisData : gmap string string             (* the cache backend's keyspace *)
}.

Definition setSessions (f : gmap string Tokens -> gmap string Tokens) (w : World) : World :=
  {| now := now w; sessions := f (sessions w); sessionStore := sessionStore w;
     clientCredentialsToken := clientCredentialsToken w;
     clientCredentialsTokenExpiresAt := clientCredentialsTokenExpiresAt w;
     files := files w; redisData := redisData w |}.

Definition setSessionStore (f : gmap string Tokens -> gmap string Tokens) (w : World) : World :=
  {| now := now w; sessions := sessions w; sessionStore := f (sessionStore w);
     clientCredentialsToken := clientCredentialsToken w;
     clientCredentialsTokenExpiresAt := clientCredentialsTokenExpiresAt w;
     files := files w; redisData := redisData w |}.

Definition setClientToken (t : option string) (e : Z) (w : World) : World :=
  {| now := now w; sessions := sessions w; sessionStore := sessionStore w;
     clientCredentialsToken := t;
     clientCredentialsTokenExpiresAt := e;
     files := files w; redisData := redisData w |}.

Definition setFiles (f : gset string -> gset string) (w : World) : World :=
  {| now := now w; sessions := sessions w; sessionStore := sessionStore w;
     clientCredentialsToken := clientCredentialsToken w;
     clientCredentialsTokenExpiresAt := clientCredentialsTokenExpiresAt w;
     files := f (files w); redisData := redisData w |}.

Definition setRedisData (f : gmap string string -> gmap string string) (w : World) : World :=
  {| now := now w; sessions := sessions w; sessionStore := sessionStore w;
     clientCredentialsToken := clientCredentialsToken w;
     clientCredentialsTokenExpiresAt := clientCredentialsTokenExpiresAt w;
     files := files w; redisData := f (redisData w) |}.

Definition setNow (t : Z) (w : World) : World :=
  {| now := t; sessions := sessions w; sessionStore := sessionStore w;
     clientCredentialsToken := clientCredentialsToken w;
     clientCredentialsTokenExpiresAt := clientCredentialsTokenExpiresAt w;
     files := files w; redisData := redisData w |}.

(** ** The catalog's search response *)

(** The provider's search response, at the fields [searchMultiType] reads. *)
Record Named := { name : string }.
Record Image := { url : string }.
Record AlbumRef := { album_name : string; album_images : list Image }.

Record RawTrack := {
  track_name : string;
  track_artists : list Named;
  track_album : AlbumRef;
  duration_ms : Z;
  track_id : string;
  track_popularity : Z
}.

Record RawArtist := {
  artist_name : string;
  artist_images : list Image;
  artist_id : string;
  artist_genres : option (list string);
  artist_followers : option Z;         (* followers?.total *)
  artist_popularity : option Z
}.

Record RawAlbum := {
  raw_album_name : string;
  raw_album_artists : list Named;
  raw_album_images : list Image;
  raw_album_id : string;
  raw_release_date : option string;
  raw_total_tracks : option Z
}.

Record RawPlaylist := {
  playlist_name : string;
  playlist_description : option string;
  playlist_images : list Image;
  playlist_id : string;
  playlist_owner : option string;      (* owner?.display_name *)
  playlist_tracks : option Z           (* tracks?.total *)
}.

Record Page (A : Type) := {
  items : option (list A);
  total : option Z
}.
Arguments items {A} p.
Arguments total {A} p.

Record SearchData := {
  data_tracks : option (Page RawTrack);
  data_artists : option (Page RawArtist);
  data_albums : option (Page RawAlbum);
  data_playlists : option (Page RawPlaylist)
}.

(** ** Requests to external services: the suspension points *)

Inductive Request : Type -> Type :=
| FetchToken (g : Grant) : Request (Result (Response TokenData))
| FetchApi (endpoint method : string) (bearer body : option string)
    : Request (Result (Response SearchData))
| RedisGet (key : string) : Request (Result (option string))
| RedisSet (key value : string) (ttlSeconds : Z) : Request (Result unit)
| Exec (command : string) : Request ExecResult.

Inductive Event :=
| Issued {R : Type} (rq : Request R).

(** ** Asynchronous computations *)

Inductive Async (A : Type) : Type :=
| Done (r : Result A) (w : World)
| Await {R : Type} (w : World) (rq : Request R) (k : R -> World -> Async A).
Arguments Done {A} r w.
Arguments Await {A R} w rq k.

Definition M (A : Type) : Type := World -> Async A.

Fixpoint bindA {A B} (p : Async A) (f : A -> M B) : Async B :=
  match p with
  | Done (Ok a) w => f a w
  | Done (Throw e) w => Done (Throw e) w
  | Await w rq k => Await w rq (fun r w' => bindA (k r w') f)
  end.

Fixpoint catchA {A} (p : Async A) (h : Exn -> M A) : Async A :=
  match p with
  | Done (Ok a) w => Done (Ok a) w
  | Done (Throw e) w => h e w
  | Await w rq k => Await w rq (fun r w' => catchA (k r w') h)
  end.

Definition ret {A} (a : A) : M A := fun w => Done (Ok a) w.
Definition throw {A} (e : Exn) : M A := fun w => Done (Throw e) w.
Definition bind {A B} (m : M A) (f : A -> M B) : M B := fun w => bindA (m w) f.
Definition tryCatch {A} (m : M A) (h : Exn -> M A) : M A := fun w => catchA (m w) h.
Definition await {R} (rq : Request R) : M R :=
  fun w => Await w rq (fun r w' => Done (Ok r) w').
Definition getWorld : M World := fun w => Done (Ok w) w.
Definition modify (f : World -> World) : M unit := fun w => Done (Ok tt) (f w).
(** [await p] on a promise that may reject. *)
Definition settle {A} (r : Result A) : M A :=
  match r with Ok a => ret a | Throw e => throw e end.

Notation "x <- m ;; k" := (bind m (fun x => k))
  (at level 100, m at next level, right associativity).
Notation "m ;;; k" := (bind m (fun _ => k))
  (at level 100, right associativity).

(** An environment answers a request in the world of the moment, and may
    change that world (time passes, the backend stores a value). *)
Definition Env : Type := forall R : Type, Request R -> World -> R * World.

(** One call run to completion against [env], with the requests it issued. *)
Fixpoint exec {A} (env : Env) (p : Async A) : Result A * World * list Event :=
  match p with
  | Done r w => (r, w, [])
  | Await w rq k =>
      let '(reply, w') := env _ rq w in
      let '(r, w'', t) := exec env (k reply w') in
      (r, w'', Issued rq :: t)
  end.

Definition run {A} (env : Env) (m : M A) (w : World) : Result A * World * list Event :=
  exec env (m w).

(** ** Token lifecycle ([spotify.js], lines 37-177) *)

(** JavaScript truthiness of a possibly missing string. *)
Definition truthy (s : option string) : bool :=
  match s with
  | Some s => negb (String.eqb s "")
  | None => false
  end.

(** [await response.json()] on a successful response. *)
Definition responseJson {D} (response : Response D) : M D :=
  match json_body response with
  | Some d => ret d
  | None => throw BodyError
  end.

(** [await response.text()]. *)
Definition responseText {D} (response : Response D) : M string :=
  match text_body response with
  | Some t => ret t
  | None => throw BodyError
  end.

(** [await response.json().catch(() => response.text())]. *)
Definition responseJsonOrText {D} (response : Response D) : M unit :=
  match error_json response with
  | Some _ => ret tt
  | None => responseText response ;;; ret tt
  end.

(** [session.save()]. *)
Definition sessionSave (sid : string) : M unit :=
  modify (fun w =>
    setSessionStore (fun st =>
      match sessions w !! sid with
      | Some t => <[sid := t]> st
      | None => delete sid st
      end) w).

(** [delete session.tokens]. *)
Definition deleteSessionTokens (sid : string) : M unit :=
  modify (setSessions (delete sid)).

Definition getClientCredentialsToken : M (option string) :=
  w <- getWorld ;;
  if truthy (clientCredentialsToken w) && (now w <? clientCredentialsTokenExpiresAt w)
  then ret (clientCredentialsToken w)
  else
    tryCatch
      (fetched <- await (FetchToken ClientCredentialsGrant) ;;
       response <- settle fetched ;;
       if negb (ok response) then
         (responseText response ;;;
          throw (HttpClientTokenError (status response)))
       else
         (data <- responseJson response ;;
          w' <- getWorld ;;
          modify (setClientToken (access_token data) (now w' + expires_in data * 1000)) ;;;
          ret (access_token data)))
      (fun error => throw error).

Definition setUserTokens (session : option string) (tokenData : option TokenData) : M unit :=
  match session, tokenData with
  | Some sid, Some td =>
      if truthy (access_token td) then
        (w <- getWorld ;;
         modify (setSessions (<[sid :=
           {| accessToken := default "" (access_token td);
              refreshToken := refresh_token td;
              expiresAt := now w + expires_in td * 1000;
              scope := td_scope td |}]>)) ;;;
         sessionSave sid)
      else ret tt
  | _, _ => ret tt
  end.

Definition refreshUserAccessToken (session : option string) : M (option string) :=
  w <- getWorld ;;
  match session with
  | None => ret None
  | Some sid =>
      match sessions w !! sid with
      | None => deleteSessionTokens sid ;;; ret None
      | Some tokens =>
          if negb (truthy (refreshToken tokens)) then
            (deleteSessionTokens sid ;;; ret None)
          else
            let refreshToken := default "" (refreshToken tokens) in
            tryCatch
              (fetched <- await (FetchToken (RefreshTokenGrant refreshToken)) ;;
               response <- settle fetched ;;
               if negb (ok response) then
                 (responseJsonOrText response ;;;
                  (if (status response =? 400) || (status response =? 401)
                   then (deleteSessionTokens sid ;;; sessionSave sid)
                   else ret tt) ;;;
                  throw (HttpRefreshError (status response)))
               else
                 (newTokenData <- responseJson response ;;
                  let newRefreshToken :=
                    if truthy (refresh_token newTokenData)
                    then refresh_token newTokenData
                    else Some refreshToken in
                  setUserTokens session
                    (Some {| access_token := access_token newTokenData;
                             refresh_token := newRefreshToken;
                             expires_in := expires_in newTokenData;
                             td_scope := td_scope newTokenData |}) ;;;
                  w' <- getWorld ;;
                  match sessions w' !! sid with
                  | Some t => ret (Some (accessToken t))
                  | None => throw TypeError
                  end))
              (fun error => throw error)
      end
  end.

Definition getUserTokens (session : option string) : M (option Tokens) :=
  w <- getWorld ;;
  match session with
  | None => ret None
  | Some sid =>
      match sessions w !! sid with
      | None => ret None
      | Some tokens =>
          if expiresAt tokens <=? now w + 60000 then
            tryCatch
              (newAccessToken <- refreshUserAccessToken session ;;
               if negb (truthy newAccessToken) then ret None
               else (w' <- getWorld ;; ret (sessions w' !! sid)))
              (fun refreshError => ret None)
          else ret (Some tokens)
      end
  end.

(** ** Catalog requests ([_makeApiRequest], lines 179-219)

    The response body is read at the type of the one caller embedded
    here, [searchMultiType]. *)

Definition firstTruthy (a b : option string) : option string :=
  if truthy a then a else if truthy b then b else None.

Definition _makeApiRequest (session : option string) (endpoint method : string)
    (body : option string) : M (option SearchData) :=
  w <- getWorld ;;
  userToken <-
    match session with
    | Some sid =>
        match sessions w !! sid with
        | Some _ =>
            userTokens <- getUserTokens session ;;
            ret (match userTokens with
                 | Some t => Some (accessToken t)
                 | None => None
                 end)
        | None => ret None
        end
    | None => ret None
    end ;;
  accessToken <-
    (if truthy userToken then ret userToken
     else tryCatch getClientCredentialsToken
            (fun clientTokenError => throw (NoTokenError clientTokenError))) ;;
  tryCatch
    (fetched <- await (FetchApi endpoint method accessToken body) ;;
     response <- settle fetched ;;
     if negb (ok response) then
       (let errorBody :=
          default {| error_message := None; error_status := None;
                     top_message := Some (statusText response) |}
                  (error_json response) in
        throw (ApiError
                 (match error_status errorBody with
                  | Some st => if st =? 0 then status response else st
                  | None => status response
                  end)
                 (firstTruthy (error_message errorBody) (top_message errorBody))))
     else if (status response =? 204) || emptyBody response then ret None
     else (d <- responseJson response ;; ret (Some d)))
    (fun error => throw error).

(** ** Concurrent calls

    A pool of calls over one world. A call that has not started runs, when
    it is picked, from its first statement to its first [await], where its
    request goes out; a suspended call runs, when its reply is delivered,
    to its next [await] or to its end. Nothing else interleaves: JavaScript
    runs each such stretch to completion. *)

Inductive Task (A : Type) : Type :=
| Pending (m : M A)
| Suspended {R : Type} (rq : Request R) (k : R -> World -> Async A)
| Finished (r : Result A).
Arguments Pending {A} m.
Arguments Suspended {A R} rq k.
Arguments Finished {A} r.

Record Pool (A : Type) := {
  world : World;
  tasks : list (Task A);
  issued : list Event
}.
Arguments world {A} p.
Arguments tasks {A} p.
Arguments issued {A} p.

Definition park {A} (p : Async A) : Task A * World * list Event :=
  match p with
  | Done r w => (Finished r, w, [])
  | Await w rq k => (Suspended rq k, w, [Issued rq])
  end.

Definition stepTask {A} (env : Env) (t : Task A) (w : World)
    : option (Task A * World * list Event) :=
  match t with
  | Pending m => Some (park (m w))
  | Suspended rq k => let '(reply, w') := env _ rq w in Some (park (k reply w'))
  | Finished _ => None
  end.

(** Let call number [i] take its next stretch. *)
Definition step {A} (env : Env) (i : nat) (p : Pool A) : option (Pool A) :=
  match tasks p !! i with
  | Some t =>
      match stepTask env t (world p) with
      | Some (t', w', evs) =>
          Some {| world := w'; tasks := <[i := t']> (tasks p); issued := issued p ++ evs |}
      | None => None
      end
  | None => None
  end.

Fixpoint schedule {A} (env : Env) (order : list nat) (p : Pool A) : option (Pool A) :=
  match order with
  | [] => Some p
  | i :: rest =>
      match step env i p with
      | Some p' => schedule env rest p'
      | None => None
      end
  end.

Definition isRefreshCall (e : Event) : bool :=
  match e with
  | Issued (FetchToken (RefreshTokenGrant _)) => true
  | Issued _ => false
  end.

(** Upstream refresh calls among the requests sent so far. *)
Definition refreshCalls (evs : list Event) : nat :=
  length (filter (fun e => isRefreshCall e = true) evs).

Definition awaitsRefresh {A} (t : Task A) : bool :=
  match t with
  | Suspended rq _ => isRefreshCall (Issued rq)
  | _ => false
  end.

(** Refresh calls that have been sent and not yet answered. *)
Definition refreshesInFlight {A} (p : Pool A) : nat :=
  length (filter (fun t => awaitsRefresh t = true) (tasks p)).

Definition isFinished {A} (t : Task A) : bool :=
  match t with
  | Finished _ => true
  | _ => false
  end.

(** ** Read-through cache ([_getWithCache], lines 979-1004) *)

Class JsRuntime := {
  toLowerCase : string -> string;
  trim : string -> string;
  encodeURIComponent : string -> string;
  JSON_stringify : json -> string;
  JSON_parse : string -> option json
}.

(** [v.success === false]. *)
Fixpoint lookupField (name : string) (fields : list (string * json)) : option json :=
  match fields with
  | [] => None
  | (k, v) :: rest => if String.eqb k name then Some v else lookupField name rest
  end.

Definition isExplicitFailure (v : json) : bool :=
  match v with
  | JObj fields =>
      match lookupField "success" fields with
      | Some (JBool false) => true
      | _ => false
      end
  | _ => false
  end.

(** Truthiness of a JSON value. *)
Definition jsonTruthy (v : json) : bool :=
  match v with
  | JNull => false
  | JBool b => b
  | JNum n => negb (n =? 0)
  | JStr s => negb (String.eqb s "")
  | JArr _ => true
  | JObj _ => true
  end.

Definition isCacheWrite (key : string) (e : Event) : bool :=
  match e with
  | Issued (RedisSet k _ _) => String.eqb k key
  | Issued _ => false
  end.

Section Cache.
Context `{JsRuntime}.

Definition jsonParse (s : string) : M json :=
  match JSON_parse s with
  | Some v => ret v
  | None => throw SyntaxError
  end.

Definition _getWithCache (cacheKey : string) (fetcher : M json) (ttlSeconds : Z) : M json :=
  tryCatch
    (got <- await (RedisGet cacheKey) ;;
     cachedData <- settle got ;;
     if truthy cachedData then jsonParse (default "" cachedData)
     else
       (freshData <- fetcher ;;
        stored <- await (RedisSet cacheKey (JSON_stringify freshData) ttlSeconds) ;;
        settle stored ;;;
        ret freshData))
    (fun error => fetcher).

(** The helper as the repository's other copy of the catalog client has
    it (the Redis-session revision kept next to [youtube.js]), which
    carries the comment "Non cachare risposte di errore esplicite". *)
Definition _getWithCache_guarded (key : string) (fetcher : M json) (ttlSeconds : Z) : M json :=
  hit <-
    tryCatch
      (got <- await (RedisGet key) ;;
       cachedData <- settle got ;;
       if truthy cachedData then (v <- jsonParse (default "" cachedData) ;; ret (Some v))
       else ret None)
      (fun error => ret None) ;;
  match hit with
  | Some v => ret v
  | None =>
      freshData <- fetcher ;;
      if jsonTruthy freshData then
        tryCatch
          (if isExplicitFailure freshData then ret freshData
           else
             (stored <- await (RedisSet key (JSON_stringify freshData) ttlSeconds) ;;
              settle stored ;;;
              ret freshData))
          (fun error => ret freshData)
      else ret freshData
  end.
End Cache.

(** ** Search aggregator ([searchMultiType], lines 358-572) *)

(** [s.includes(sub)]. *)
Fixpoint includes (s sub : string) : bool :=
  String.prefix sub s ||
  match s with
  | EmptyString => false
  | String _ rest => includes rest sub
  end.

(** [s.split(c)] for a one-character separator. *)
Fixpoint split (c : ascii) (s : string) : list string :=
  match s with
  | EmptyString => [EmptyString]
  | String a rest =>
      if Ascii.eqb a c then EmptyString :: split c rest
      else
        match split c rest with
        | w :: ws => String a w :: ws
        | [] => [String a EmptyString]
        end
  end.

(** [s.split(' ').filter(word => word.length > 0)]. *)
Definition words (s : string) : list string :=
  filter (fun word => (0 < String.length word)%nat) (split " "%char s).

(** [parts.join(sep)]. *)
Definition join (sep : string) (parts : list string) : string :=
  String.concat sep parts.

(** ** JavaScript numbers

    A number is an IEEE 754 double; a finite one is given here by the
    rational it denotes, and an arithmetic operation is the exact
    operation followed by rounding to the nearest double, ties to the even
    significand. Significands have 53 bits; the exponent range is not
    bounded, the quantities of this program (scores, seconds) being far
    inside it, so neither overflow nor underflow occurs. Comparisons of
    doubles are exact. *)
Module Double.

(** The integers [n] and [d] with [n / d = a / b / 2^e]. *)
Definition scaled (a b e : Z) : Z * Z :=
  (a * 2 ^ Z.max 0 (- e), b * 2 ^ Z.max 0 e).

(** The exponent [e] with [2^52 <= a / b / 2^e < 2^53], for positive [a]
    and [b]. *)
Definition exponent (a b : Z) : Z :=
  let e := Z.log2 a - Z.log2 b - 52 in
  let '(n, d) := scaled a b e in
  if 2 ^ 52 * d <=? n then e else e - 1.

(** [n / d] rounded to the nearest integer, ties to the even one. *)
Definition nearestEven (n d : Z) : Z :=
  let q := n / d in
  let r := n mod d in
  if 2 * r <? d then q
  else if d <? 2 * r then q + 1
  else if Z.even q then q else q + 1.

(** [m * 2^e]. *)
Definition power2 (m e : Z) : Q :=
  if 0 <=? e then inject_Z (m * 2 ^ e) else m # Z.to_pos (2 ^ (- e)).

(** The double nearest to [x]. *)
Definition round (x : Q) : Q :=
  let a := Z.abs (Qnum x) in
  let b := Zpos (Qden x) in
  if a =? 0 then 0%Q
  else
    let e := exponent a b in
    let '(n, d) := scaled a b e in
    power2 (Z.sgn (Qnum x) * nearestEven n d) e.

(** A decimal literal of the source. *)
Definition literal (x : Q) : Q := round x.

Definition add (x y : Q) : Q := round (x + y).
Definition sub (x y : Q) : Q := round (x - y).
Definition mul (x y : Q) : Q := round (x * y).
Definition div (x y : Q) : Q := round (x / y).

End Double.

(** The same operations on the Standard Library's specification of IEEE
    754 arithmetic, at the parameters of binary64, for comparison. *)
Definition ofSpecFloat (f : spec_float) : option Q :=
  match f with
  | S754_zero _ => Some 0%Q
  | S754_finite s m e => Some (Double.power2 (if s then Z.neg m else Z.pos m) e)
  | _ => None
  end.

Definition binary64 (z : Z) : spec_float := binary_normalize 53 1024 z 0 false.

Definition sameNumber (f : spec_float) (x : Q) : bool :=
  match ofSpecFloat f with
  | Some y => Qeq_bool y x
  | None => false
  end.

(** One chain of operations on [a] and [b] in both arithmetics: [a / b],
    [(a / b) * 0.1], their difference, [a + b * 0.3], and the difference and
    the product of the last two. *)
Definition sameOnChain (p : Z * Z) : bool :=
  let '(a, b) := p in
  let fa := binary64 a in
  let fb := binary64 b in
  let f1 := SFdiv 53 1024 fa fb in
  let x1 := Double.div (inject_Z a) (inject_Z b) in
  let f2 := SFmul 53 1024 f1 (SFdiv 53 1024 (binary64 1) (binary64 10)) in
  let x2 := Double.mul x1 (Double.literal 0.1) in
  let f3 := SFsub 53 1024 f1 f2 in
  let x3 := Double.sub x1 x2 in
  let f4 := SFadd 53 1024 fa (SFmul 53 1024 fb (SFdiv 53 1024 (binary64 3) (binary64 10))) in
  let x4 := Double.add (inject_Z a) (Double.mul (inject_Z b) (Double.literal 0.3)) in
  let f5 := SFsub 53 1024 f4 f3 in
  let x5 := Double.sub x4 x3 in
  let f6 := SFmul 53 1024 f5 f3 in
  let x6 := Double.mul x5 x3 in
  sameNumber f1 x1 && sameNumber f2 x2 && sameNumber f3 x3 &&
  sameNumber f4 x4 && sameNumber f5 x5 && sameNumber f6 x6.

(** [arr.sort(cmp)]: the sort is stable, so for a consistent comparator its
    result is the stable insertion of each element among the later ones. *)
Fixpoint insertBy {A} (cmp : A -> A -> Q) (x : A) (l : list A) : list A :=
  match l with
  | [] => [x]
  | y :: rest =>
      if Qle_bool (cmp x y) 0 then x :: y :: rest
      else y :: insertBy cmp x rest
  end.

Fixpoint sortBy {A} (cmp : A -> A -> Q) (l : list A) : list A :=
  match l with
  | [] => []
  | x :: rest => insertBy cmp x (sortBy cmp rest)
  end.

(** [arr.slice(0, end)] for an integer [end]. *)
Definition slice0 {A} (l : list A) (e : Z) : list A :=
  if e <? 0 then take (Z.to_nat (Z.max (Z.of_nat (length l) + e) 0)) l
  else take (Z.to_nat e) l.

Inductive Category := track | artist | album | playlist.

Definition Category_eqb (a b : Category) : bool :=
  match a, b with
  | track, track | artist, artist | album, album | playlist, playlist => true
  | _, _ => false
  end.

(** A normalised item: one JavaScript object shape per category, the
    fields a category does not have being [None] ([undefined]). *)
Record Item := {
  type : Category;
  item_name : string;
  artist_names : option string;
  album_title : option string;
  image : option string;
  duration : option Z;
  spotify_id : string;
  relevance : Q;
  popularity : option Z;
  followers : option Z;
  genres : option (list string);
  description : option string;
  owner : option string;
  tracks_total : option Z;
  release_date : option string;
  total_tracks : option Z
}.

Record ByType := {
  tracks : list Item;
  artists : list Item;
  albums : list Item;
  playlists : list Item
}.

Record Totals := {
  total_tracks_found : Z;
  total_artists_found : Z;
  total_albums_found : Z;
  total_playlists_found : Z
}.

Inductive SearchOutcome :=
| SearchSuccess (results : list Item) (by_type : ByType) (total_found : Totals)
| SearchFailure (error : Exn).

(** [const searchLimit = Math.min(limit, 50)]. *)
Definition searchLimit (limit : Z) : Z := Z.min limit 50.

(** [Math.ceil(limit / 4)]. *)
Definition maxPerCategory (limit : Z) : Z := Qceiling (inject_Z limit / 4).

(** [x || 0] on a possibly missing number. *)
Definition orZero (x : option Z) : Z := default 0 x.

(** [images[0]?.url || null]. *)
Definition firstImage (images : list Image) : option string :=
  match images with
  | [] => None
  | i :: _ => if String.eqb (url i) "" then None else Some (url i)
  end.

(** [artists[0]?.name || '']. *)
Definition firstArtistName (l : list Named) : string :=
  match l with
  | [] => ""
  | a :: _ => name a
  end.

(** The [Map] of track groups, in insertion order. *)
Fixpoint groupPush (key : string) (t : RawTrack) (groups : list (string * list RawTrack))
    : list (string * list RawTrack) :=
  match groups with
  | [] => [(key, [t])]
  | (k, g) :: rest =>
      if String.eqb k key then (k, g ++ [t]) :: rest
      else (k, g) :: groupPush key t rest
  end.

(** The [reduce] callback that keeps the better of two hits. *)
Definition betterTrack (prev current : RawTrack) : RawTrack :=
  if track_popularity prev <? track_popularity current then current
  else if (track_popularity current =? track_popularity prev)
          && (Z.abs (duration_ms current - 210000) <? Z.abs (duration_ms prev - 210000))
  then current
  else prev.

(** [let bestTrack = trackGroup[0]; if (trackGroup.length > 1) bestTrack =
    trackGroup.reduce(...)], for a group, which is never empty. *)
Definition bestTrack (trackGroup : list RawTrack) : option RawTrack :=
  match trackGroup with
  | [] => None
  | first :: rest => Some (fold_left betterTrack rest first)
  end.

Definition categoryBonus (type : Category) : Z :=
  match type with
  | track => 5
  | artist => 3
  | album => 2
  | playlist => 1
  end.

(** The per-category comparator of [results[key].sort(...)]. *)
Definition compareInCategory (a b : Item) : Q :=
  if negb (Qeq_bool (relevance b) (relevance a)) then Double.sub (relevance b) (relevance a)
  else
    match popularity a, popularity b with
    | Some pa, Some pb => inject_Z (pb - pa)
    | _, _ =>
        match followers a, followers b with
        | Some fa, Some fb => inject_Z (fb - fa)
        | _, _ => 0%Q
        end
    end.

(** The comparator of [allResults.sort(...)]. *)
Definition compareRelevance (a b : Item) : Q := Double.sub (relevance b) (relevance a).

(** [if (list[i]) allResults.push(list[i])]. *)
Definition pushIfPresent (l : list Item) (i : nat) (allResults : list Item) : list Item :=
  match l !! i with
  | Some x => allResults ++ [x]
  | None => allResults
  end.

(** The interleaving loop [for (let i = 0; i < maxPerCategory; i++)]. *)
Definition interleave (results : ByType) (maxPerCategory : Z) : list Item :=
  fold_left
    (fun allResults i =>
       pushIfPresent (playlists results) i
         (pushIfPresent (albums results) i
            (pushIfPresent (artists results) i
               (pushIfPresent (tracks results) i allResults))))
    (seq 0 (Z.to_nat maxPerCategory)) [].

Section Search.
Context `{JsRuntime}.

(** The closure [calculateRelevance], with the [queryLower] it captures
    as its first argument. *)
Definition calculateRelevance (queryLower name : string) (type : Category) : Z :=
  let nameLower := toLowerCase name in
  let score := 0 in
  let score :=
    if String.eqb nameLower queryLower then score + 1000
    else if String.prefix queryLower nameLower then score + 100
    else if includes nameLower queryLower then score + 50
    else score in
  let queryWords := words queryLower in
  let nameWords := words nameLower in
  let score :=
    fold_left
      (fun score queryWord =>
         fold_left
           (fun score nameWord =>
              if String.eqb nameWord queryWord then score + 25
              else if includes nameWord queryWord || includes queryWord nameWord
              then score + 10
              else score)
           nameWords score)
      queryWords score in
  score + categoryBonus type.

Definition trackKey (t : RawTrack) : string :=
  toLowerCase (track_name t) +:+ "|" +:+
  match track_artists t with
  | [] => ""
  | a :: _ => toLowerCase (name a)
  end.

Definition groupTracks (hits : list RawTrack) : list (string * list RawTrack) :=
  fold_left (fun groupedTracks t => groupPush (trackKey t) t groupedTracks) hits [].

Definition trackItem (queryLower : string) (bestTrack : RawTrack) : Item :=
  {| type := track;
     item_name := track_name bestTrack;
     artist_names := Some (join ", " (map name (track_artists bestTrack)));
     album_title := Some (album_name (track_album bestTrack));
     image := firstImage (album_images (track_album bestTrack));
     duration := Some (duration_ms bestTrack);
     spotify_id := track_id bestTrack;
     relevance :=
       Double.add
         (inject_Z (calculateRelevance queryLower (track_name bestTrack) track))
         (Double.mul
            (inject_Z (calculateRelevance queryLower
                         (firstArtistName (track_artists bestTrack)) artist))
            (Double.literal 0.5));
     popularity := Some (track_popularity bestTrack);
     followers := None; genres := None; description := None; owner := None;
     tracks_total := None; release_date := None; total_tracks := None |}.

Definition artistItem (queryLower : string) (a : RawArtist) : Item :=
  {| type := artist;
     item_name := artist_name a;
     artist_names := None; album_title := None;
     image := firstImage (artist_images a);
     duration := None;
     spotify_id := artist_id a;
     relevance := inject_Z (calculateRelevance queryLower (artist_name a) artist);
     popularity := Some (orZero (artist_popularity a));
     followers := Some (orZero (artist_followers a));
     genres := Some (default [] (artist_genres a));
     description := None; owner := None; tracks_total := None;
     release_date := None; total_tracks := None |}.

Definition albumItem (queryLower : string) (a : RawAlbum) : Item :=
  {| type := album;
     item_name := raw_album_name a;
     artist_names := Some (join ", " (map name (raw_album_artists a)));
     album_title := None;
     image := firstImage (raw_album_images a);
     duration := None;
     spotify_id := raw_album_id a;
     relevance :=
       Double.add
         (inject_Z (calculateRelevance queryLower (raw_album_name a) album))
         (Double.mul
            (inject_Z (calculateRelevance queryLower
                         (firstArtistName (raw_album_artists a)) artist))
            (Double.literal 0.3));
     popularity := None; followers := None; genres := None;
     description := None; owner := None; tracks_total := None;
     release_date := raw_release_date a;
     total_tracks := Some (orZero (raw_total_tracks a)) |}.

Definition playlistItem (queryLower : string) (p : RawPlaylist) : Item :=
  {| type := playlist;
     item_name := playlist_name p;
     artist_names := None; album_title := None;
     image := firstImage (playlist_images p);
     duration := None;
     spotify_id := playlist_id p;
     relevance :=
       Double.add
         (inject_Z (calculateRelevance queryLower (playlist_name p) playlist))
         (Double.mul
            (inject_Z (calculateRelevance queryLower
                         (default "" (playlist_description p)) playlist))
            (Double.literal 0.2));
     popularity := None; followers := None; genres := None;
     description := Some (default "" (playlist_description p));
     owner := Some (if truthy (playlist_owner p) then default "" (playlist_owner p) else "Unknown");
     tracks_total := Some (orZero (playlist_tracks p));
     release_date := None; total_tracks := None |}.

(** [if (data.x && data.x.items) ...]. *)
Definition pageItems {A} (page : option (Page A)) : list A :=
  match page with
  | Some p => default [] (items p)
  | None => []
  end.

(** [data.x?.total || 0]. *)
Definition pageTotal {A} (page : option (Page A)) : Z :=
  match page with
  | Some p => orZero (total p)
  | None => 0
  end.

(** One representative per group, in the groups' insertion order. *)
Definition dedupTracks (hits : list RawTrack) : list RawTrack :=
  omap (fun g => bestTrack g.2) (groupTracks hits).

(** The four lists before they are sorted. *)
Definition collect (queryLower : string) (data : SearchData) : ByType :=
  {| tracks := map (trackItem queryLower) (dedupTracks (pageItems (data_tracks data)));
     artists := map (artistItem queryLower) (pageItems (data_artists data));
     albums := map (albumItem queryLower) (pageItems (data_albums data));
     playlists := map (playlistItem queryLower) (pageItems (data_playlists data)) |}.

(** [Object.keys(results).forEach(key => results[key].sort(...))]. *)
Definition sortCategories (results : ByType) : ByType :=
  {| tracks := sortBy compareInCategory (tracks results);
     artists := sortBy compareInCategory (artists results);
     albums := sortBy compareInCategory (albums results);
     playlists := sortBy compareInCategory (playlists results) |}.

Definition searchEndpoint (query : string) (limit : Z) : string :=
  "/search?q=" +:+ encodeURIComponent query +:+
  "&type=track,artist,album,playlist&market=IT&limit=" +:+ pretty (searchLimit limit).

(** Everything [searchMultiType] does with the response [data]. *)
Definition aggregate (query : string) (limit : Z) (data : SearchData) : SearchOutcome :=
  let queryLower := trim (toLowerCase query) in
  let results := sortCategories (collect queryLower data) in
  let allResults := interleave results (maxPerCategory limit) in
  let allResults := sortBy compareRelevance allResults in
  SearchSuccess (slice0 allResults limit) results
    {| total_tracks_found := pageTotal (data_tracks data);
       total_artists_found := pageTotal (data_artists data);
       total_albums_found := pageTotal (data_albums data);
       total_playlists_found := pageTotal (data_playlists data) |}.

Definition searchMultiType (query : string) (limit : Z) : M SearchOutcome :=
  tryCatch
    (data <- _makeApiRequest None (searchEndpoint query limit) "GET" None ;;
     match data with
     | Some data => ret (aggregate query limit data)
     | None => throw TypeError
     end)
    (fun error => ret (SearchFailure error)).
End Search.

(** ** Media resolver ([youtube.js], [searchAndDownload], lines 32-168) *)

(** One line of the index's output, as [JSON.parse(line)] gives it, at the
    fields the resolver reads; [raw_duration] is [Some] when
    [typeof video.duration === 'number']. *)
Record RawVideo := {
  webpage_url : option string;
  raw_duration : option Q;
  raw_title : option string;
  raw_uploader : option string
}.

(** A candidate that passed the validity filter. *)
Record Video := {
  video_url : string;
  video_duration : Q;
  video_title : option string;
  video_uploader : option string
}.

Record VideoMetadata := {
  metadata_title : string;
  metadata_channel : string;
  metadata_url : string
}.

Record Download := {
  download_path : string;
  download_duration : option Q;
  download_metadata : VideoMetadata
}.

(** The library calls of [youtube.js]: [JSON.parse] on a metadata line and
    [path.dirname]. *)
Class MediaRuntime := {
  parseVideo : string -> option RawVideo;
  dirname : string -> string
}.

Definition dquote : string := String "034"%char EmptyString.

(** [query.replace] of every double and single quote by nothing. *)
Fixpoint stripQuotes (s : string) : string :=
  match s with
  | EmptyString => EmptyString
  | String a rest =>
      if Ascii.eqb a "034"%char || Ascii.eqb a "'"%char then stripQuotes rest
      else String a (stripQuotes rest)
  end.

(** [outputPath.replace] of every double quote by a backslash and the quote. *)
Fixpoint escapeQuotes (s : string) : string :=
  match s with
  | EmptyString => EmptyString
  | String a rest =>
      if Ascii.eqb a "034"%char then String "\"%char (String a (escapeQuotes rest))
      else String a (escapeQuotes rest)
  end.

Definition NUM_VIDEOS_TO_SEARCH : Z := 3.

Definition searchCommand (query : string) : string :=
  "yt-dlp " +:+ dquote +:+ "ytsearch" +:+ pretty NUM_VIDEOS_TO_SEARCH +:+ ":" +:+
  stripQuotes query +:+ dquote +:+ " --dump-json --no-warnings --ignore-errors".

Definition downloadCommand (selectedVideoUrl outputPath : string) : string :=
  "yt-dlp " +:+ dquote +:+ selectedVideoUrl +:+ dquote +:+
  " -f " +:+ dquote +:+ "bestaudio[ext=m4a]/bestaudio" +:+ dquote +:+
  " -x --audio-format mp3 --audio-quality 0 " +:+
  "--parse-metadata " +:+ dquote +:+ "%(release_date,upload_date)s:%(meta_date)s" +:+ dquote +:+
  " --parse-metadata " +:+ dquote +:+ "%(title)s:%(meta_title)s" +:+ dquote +:+
  " -o " +:+ dquote +:+ escapeQuotes outputPath +:+ dquote +:+ " --no-progress --quiet".

(** [video && video.webpage_url && typeof video.duration === 'number']. *)
Definition validVideo (v : RawVideo) : option Video :=
  match webpage_url v, raw_duration v with
  | Some u, Some d =>
      if String.eqb u "" then None
      else Some {| video_url := u; video_duration := d;
                   video_title := raw_title v; video_uploader := raw_uploader v |}
  | _, _ => None
  end.

(** [Math.max(5, Math.min(15, targetSeconds * 0.10))]. *)
Definition tolerance (targetSeconds : Q) : Q :=
  Qmax 5 (Qmin 15 (Double.mul targetSeconds (Double.literal 0.10))).

Definition inWindow (minDuration maxDuration : Q) (video : Video) : bool :=
  Qle_bool minDuration (video_duration video) && Qle_bool (video_duration video) maxDuration.

(** The [for (const video of videoMetadatas)] loop with its [break]. *)
Fixpoint firstInWindow (minDuration maxDuration : Q) (videoMetadatas : list Video)
    : option Video :=
  match videoMetadatas with
  | [] => None
  | video :: rest =>
      if inWindow minDuration maxDuration video then Some video
      else firstInWindow minDuration maxDuration rest
  end.

(** Truthiness of [targetDurationMs]: [undefined], [NaN] ([None]) and [0]
    are falsy. *)
Definition targetSupplied (targetDurationMs : option Z) : bool :=
  match targetDurationMs with
  | Some ms => negb (ms =? 0)
  | None => false
  end.

(** Lines 84-118: the choice of [selectedVideoMetadata]. *)
Definition selectVideo (targetDurationMs : option Z) (videoMetadatas : list Video)
    : Result Video :=
  if targetSupplied targetDurationMs then
    let targetSeconds := Double.div (inject_Z (default 0%Z targetDurationMs)) 1000 in
    let tolerance := tolerance targetSeconds in
    let minDuration := Double.sub targetSeconds tolerance in
    let maxDuration := Double.add targetSeconds tolerance in
    match firstInWindow minDuration maxDuration videoMetadatas with
    | Some video => Ok video
    | None => Throw (NoDurationMatch (length videoMetadatas))
    end
  else
    match videoMetadatas with
    | video :: _ => Ok video
    | [] => Throw NoVideoNoFilter
    end.

Definition downloaded (outputPath : string) (selected : Video) : Download :=
  {| download_path := outputPath;
     download_duration :=
       if Qeq_bool (video_duration selected) 0 then None
       else Some (Double.mul (video_duration selected) 1000);
     download_metadata :=
       {| metadata_title :=
            if truthy (video_title selected) then default "" (video_title selected) else "N/D";
          metadata_channel :=
            if truthy (video_uploader selected) then default "" (video_uploader selected) else "N/D";
          metadata_url := video_url selected |} |}.

Section Media.
Context `{JsRuntime} `{MediaRuntime}.

(** [searchStdout.trim().split('\n').map(...).filter(...)]. *)
Definition parseMetadata (searchStdout : string) : list Video :=
  omap
    (fun line =>
       if String.eqb (trim line) "" then None
       else
         match parseVideo line with
         | Some v => validVideo v
         | None => None
         end)
    (split "010"%char (trim searchStdout)).

Definition searchAndDownload (query : string) (targetDurationMs : option Z)
    (outputPath : string) : M Download :=
  let outputDir := dirname outputPath in
  w <- getWorld ;;
  (if decide (outputDir ∈ files w) then ret tt
   else modify (setFiles (fun fs => {[outputDir]} ∪ fs))) ;;;
  searched <- await (Exec (searchCommand query)) ;;
  searchStdout <-
    match searched with
    | ExecResolved out => ret (stdout out)
    | ExecRejected error out _ =>
        let searchStdout := if truthy out then default "" out else "" in
        if String.eqb (trim searchStdout) "" then throw (SearchFatal error)
        else ret searchStdout
    end ;;
  let videoMetadatas := parseMetadata searchStdout in
  match videoMetadatas with
  | [] => throw NoValidVideo
  | _ :: _ =>
      selected <- settle (selectVideo targetDurationMs videoMetadatas) ;;
      fetched <- await (Exec (downloadCommand (video_url selected) outputPath)) ;;
      w' <- getWorld ;;
      match fetched with
      | ExecRejected downloadError _ _ =>
          if decide (outputPath ∈ files w') then ret (downloaded outputPath selected)
          else throw (DownloadFailed downloadError)
      | ExecResolved _ =>
          if decide (outputPath ∈ files w') then ret (downloaded outputPath selected)
          else throw FileMissing
      end
  end.
End Media.


(** ** A runtime for closed examples

    The library functions on ASCII text and on JSON with integer numbers;
    on such inputs they agree with the JavaScript ones. *)
Module Ascii7.

Definition isUpper (c : ascii) : bool :=
  let n := nat_of_ascii c in (65 <=? n)%nat && (n <=? 90)%nat.

Definition lowerChar (c : ascii) : ascii :=
  if isUpper c then ascii_of_nat (nat_of_ascii c + 32) else c.

Fixpoint toLowerCase (s : string) : string :=
  match s with
  | EmptyString => EmptyString
  | String c rest => String (lowerChar c) (toLowerCase rest)
  end.

Definition isSpace (c : ascii) : bool :=
  let n := nat_of_ascii c in ((9 <=? n)%nat && (n <=? 13)%nat) || (n =? 32)%nat.

Fixpoint trimStart (s : string) : string :=
  match s with
  | EmptyString => EmptyString
  | String c rest => if isSpace c then trimStart rest else s
  end.

Definition reverse (s : string) : string :=
  string_of_list_ascii (rev (list_ascii_of_string s)).

Definition trim (s : string) : string :=
  reverse (trimStart (reverse (trimStart s))).

Definition isUnreserved (c : ascii) : bool :=
  let n := nat_of_ascii c in
  ((65 <=? n)%nat && (n <=? 90)%nat) || ((97 <=? n)%nat && (n <=? 122)%nat) ||
  ((48 <=? n)%nat && (n <=? 57)%nat) ||
  existsb (Ascii.eqb c) ["-"; "_"; "."; "!"; "~"; "*"; "'"; "("; ")"]%char.

Definition hexDigit (n : nat) : ascii :=
  if (n <? 10)%nat then ascii_of_nat (48 + n) else ascii_of_nat (55 + n).

Fixpoint encodeURIComponent (s : string) : string :=
  match s with
  | EmptyString => EmptyString
  | String c rest =>
      if isUnreserved c then String c (encodeURIComponent rest)
      else
        let n := nat_of_ascii c in
        String "%" (String (hexDigit (n / 16)) (String (hexDigit (n mod 16))
          (encodeURIComponent rest)))
  end.

Fixpoint escape (s : string) : string :=
  match s with
  | EmptyString => EmptyString
  | String c rest =>
      if Ascii.eqb c "034"%char || Ascii.eqb c "\"%char
      then String "\"%char (String c (escape rest))
      else String c (escape rest)
  end.

Definition quoted (s : string) : string := dquote +:+ escape s +:+ dquote.

Fixpoint JSON_stringify (v : json) : string :=
  match v with
  | JNull => "null"
  | JBool true => "true"
  | JBool false => "false"
  | JNum n => pretty n
  | JStr s => quoted s
  | JArr l => "[" +:+ join "," (map JSON_stringify l) +:+ "]"
  | JObj fs =>
      "{" +:+ join "," (map (fun kv => quoted kv.1 +:+ ":" +:+ JSON_stringify kv.2) fs) +:+ "}"
  end.

(** The text after an opening quote, up to the closing one. *)
Fixpoint parseString (s : string) : option (string * string) :=
  match s with
  | EmptyString => None
  | String c rest =>
      if Ascii.eqb c "034"%char then Some (EmptyString, rest)
      else if Ascii.eqb c "\"%char then
        match rest with
        | String e rest' =>
            match parseString rest' with
            | Some (t, r) => Some (String e t, r)
            | None => None
            end
        | EmptyString => None
        end
      else
        match parseString rest with
        | Some (t, r) => Some (String c t, r)
        | None => None
        end
  end.

Definition isDigit (c : ascii) : bool :=
  let n := nat_of_ascii c in (48 <=? n)%nat && (n <=? 57)%nat.

Fixpoint parseDigits (acc : Z) (s : string) : Z * string :=
  match s with
  | String c rest =>
      if isDigit c then parseDigits (acc * 10 + Z.of_nat (nat_of_ascii c - 48)) rest
      else (acc, s)
  | EmptyString => (acc, s)
  end.

Definition dropPrefix (p s : string) : option string :=
  if String.prefix p s then Some (String.substring (String.length p) (String.length s - String.length p) s)
  else None.

Fixpoint parseValue (fuel : nat) (s : string) : option (json * string) :=
  match fuel with
  | O => None
  | S fuel =>
      match s with
      | EmptyString => None
      | String c rest =>
          if Ascii.eqb c "n" then (fun r => (JNull, r)) <$> dropPrefix "null" s
          else if Ascii.eqb c "t" then (fun r => (JBool true, r)) <$> dropPrefix "true" s
          else if Ascii.eqb c "f" then (fun r => (JBool false, r)) <$> dropPrefix "false" s
          else if Ascii.eqb c "034"%char then
            (fun tr : string * string => (JStr tr.1, tr.2)) <$> parseString rest
          else if Ascii.eqb c "-" then
            match rest with
            | String d _ =>
                if isDigit d then
                  let '(n, r) := parseDigits 0 rest in Some (JNum (- n), r)
                else None
            | EmptyString => None
            end
          else if isDigit c then
            let '(n, r) := parseDigits 0 s in Some (JNum n, r)
          else if Ascii.eqb c "[" then
            match rest with
            | String "]" r => Some (JArr [], r)
            | _ => (fun vr : list json * string => (JArr vr.1, vr.2)) <$> parseElements fuel rest
            end
          else if Ascii.eqb c "{" then
            match rest with
            | String "}" r => Some (JObj [], r)
            | _ =>
                (fun vr : list (string * json) * string => (JObj vr.1, vr.2))
                  <$> parseMembers fuel rest
            end
          else None
      end
  end
with parseElements (fuel : nat) (s : string) : option (list json * string) :=
  match fuel with
  | O => None
  | S fuel =>
      match parseValue fuel s with
      | Some (v, String "," r) =>
          (fun vr : list json * string => (v :: vr.1, vr.2)) <$> parseElements fuel r
      | Some (v, String "]" r) => Some ([v], r)
      | _ => None
      end
  end
with parseMembers (fuel : nat) (s : string) : option (list (string * json) * string) :=
  match fuel with
  | O => None
  | S fuel =>
      match s with
      | String "034" rest =>
          match parseString rest with
          | Some (k, String ":" r) =>
              match parseValue fuel r with
              | Some (v, String "," r') =>
                  (fun vr : list (string * json) * string => ((k, v) :: vr.1, vr.2))
                    <$> parseMembers fuel r'
              | Some (v, String "}" r') => Some ([(k, v)], r')
              | _ => None
              end
          | _ => None
          end
      | _ => None
      end
  end.

Definition JSON_parse (s : string) : option json :=
  match parseValue (2 * String.length s + 2) s with
  | Some (v, EmptyString) => Some v
  | _ => None
  end.

Definition stringField (name : string) (fields : list (string * json)) : option string :=
  match lookupField name fields with
  | Some (JStr s) => Some s
  | _ => None
  end.

Definition parseVideo (line : string) : option RawVideo :=
  match JSON_parse line with
  | Some (JObj fields) =>
      Some {| webpage_url := stringField "webpage_url" fields;
              raw_duration :=
                match lookupField "duration" fields with
                | Some (JNum n) => Some (inject_Z n)
                | _ => None
                end;
              raw_title := stringField "title" fields;
              raw_uploader := stringField "uploader" fields |}
  | _ => None
  end.

(** The path up to its last slash. *)
Fixpoint dirnameAux (s : string) : option string :=
  match s with
  | EmptyString => None
  | String c rest =>
      match dirnameAux rest with
      | Some d => Some (String c d)
      | None => if Ascii.eqb c "/" then Some EmptyString else None
      end
  end.

Definition dirname (path : string) : string :=
  match dirnameAux path with
  | Some EmptyString => "/"
  | Some d => d
  | None => "."
  end.

Definition runtime : JsRuntime :=
  Build_JsRuntime toLowerCase trim encodeURIComponent JSON_stringify JSON_parse.

Definition media : MediaRuntime :=
  Build_MediaRuntime parseVideo dirname.

End Ascii7.

(** ** An in-memory environment for closed examples

    The token endpoint, the catalog and the two command lines answer as
    scripted; Redis is the keyspace [redisData], reachable or not for reads
    and for writes. Time stands still and keys do not expire. *)
Record Services := {
  tokenEndpoint : Grant -> Result (Response TokenData);
  catalog : string -> Result (Response SearchData);
  redisReads : bool;
  redisWrites : bool;
  shell : string -> ExecResult * list string    (* the outcome, and the files the command leaves *)
}.

Definition serve (s : Services) : Env :=
  fun R rq w =>
    match rq in Request R return R * World with
    | FetchToken g => (tokenEndpoint s g, w)
    | FetchApi endpoint _ _ _ => (catalog s endpoint, w)
    | RedisGet key =>
        if redisReads s then (Ok (redisData w !! key), w)
        else (Throw (NetworkError "redis: connection is closed"), w)
    | RedisSet key value _ =>
        if redisWrites s then (Ok tt, setRedisData (<[key := value]>) w)
        else (Throw (NetworkError "redis: connection is closed"), w)
    | Exec command =>
        let '(outcome, created) := shell s command in
        (outcome, setFiles (fun fs => list_to_set created ∪ fs) w)
    end.

Definition respond {D} (code : Z) (body : option D) (err : option ErrorBody) : Response D :=
  {| status := code; statusText := ""; json_body := body; error_json := err;
     text_body := None; emptyBody := false |}.

Definition offline : Services :=
  {| tokenEndpoint := fun _ => Throw (NetworkError "fetch failed");
     catalog := fun _ => Throw (NetworkError "fetch failed");
     redisReads := true;
     redisWrites := true;
     shell := fun _ => (ExecRejected (NetworkError "spawn failed") None None, []) |}.

Definition emptyWorld : World :=
  {| now := 1000000; sessions := ∅; sessionStore := ∅;
     clientCredentialsToken := None; clientCredentialsTokenExpiresAt := 0;
     files := ∅; redisData := ∅ |}.

Example stringify_parse_sample :
  Ascii7.JSON_parse
    (Ascii7.JSON_stringify
       (JObj [("success", JBool false); ("items", JArr [JNum 3; JNum (-12); JStr "a b"; JNull])]))
  = Some (JObj [("success", JBool false); ("items", JArr [JNum 3; JNum (-12); JStr "a b"; JNull])]).
Proof. vm_compute. reflexivity. Qed.

Example lower_trim_sample : Ascii7.trim (Ascii7.toLowerCase "  I Love YOU ") = "i love you".
Proof. reflexivity. Qed.

Example encode_sample : Ascii7.encodeURIComponent "Queen & co" = "Queen%20%26%20co".
Proof. reflexivity. Qed.


(** A session whose tokens ran out at the present moment, and three
    identity providers: one that grants the refresh, one that turns the
    refresh token down, one that is down itself. *)
Definition staleTokens : Tokens :=
  {| accessToken := "old-access"; refreshToken := Some "refresh-0";
     expiresAt := 1000000; scope := Some "user-read-private" |}.

Definition staleWorld : World :=
  setSessionStore (<["sess-1" := staleTokens]>)
    (setSessions (<["sess-1" := staleTokens]>) emptyWorld).

Definition granted (seconds : Z) : TokenData :=
  {| access_token := Some "new-access"; refresh_token := None;
     expires_in := seconds; td_scope := Some "user-read-private" |}.

Definition granting (seconds : Z) : Services :=
  {| tokenEndpoint := fun _ => Ok (respond 200 (Some (granted seconds)) None);
     catalog := catalog offline; redisReads := true; redisWrites := true;
     shell := shell offline |}.

Definition invalidGrant : ErrorBody :=
  {| error_message := None; error_status := None; top_message := None |}.

Definition rejecting : Services :=
  {| tokenEndpoint := fun _ => Ok (respond 400 None (Some invalidGrant));
     catalog := catalog offline; redisReads := true; redisWrites := true;
     shell := shell offline |}.

Definition unavailable : Services :=
  {| tokenEndpoint := fun _ => Ok (respond 503 None None);
     catalog := catalog offline; redisReads := true; redisWrites := true;
     shell := shell offline |}.

(** Two calls of [getUserTokens] on that session, neither started yet. *)
Definition twoCalls : Pool (option Tokens) :=
  {| world := staleWorld;
     tasks := [Pending (getUserTokens (Some "sess-1"));
               Pending (getUserTokens (Some "sess-1"))];
     issued := [] |}.

(** The provider turned the refresh token down: status 400 or 401, with an
    error body that can be read. *)
Definition rejectsRefreshToken (reply : Result (Response TokenData)) : Prop :=
  exists resp, reply = Ok resp /\ (status resp = 400 \/ status resp = 401) /\
               (is_Some (error_json resp) \/ is_Some (text_body resp)).

(** A call that has ended, or that is suspended and will end at its reply
    without another request. *)
Definition settles {A} (t : Task A) : Prop :=
  match t with
  | Pending _ => False
  | Suspended rq k => forall reply w1, exists r w', k reply w1 = Done r w'
  | Finished _ => True
  end.

(** Tokens that expire just beyond the margin. *)
Definition freshTokens : Tokens :=
  {| accessToken := "access-1"; refreshToken := Some "refresh-1";
     expiresAt := 1060001; scope := None |}.

(** A payload that reports an upstream failure, a compute function that
    returns it, and one that asks the catalog and fails when the catalog
    cannot be reached. *)
Definition noResults : json :=
  JObj [("success", JBool false); ("message", JStr "Nessun risultato trovato")].

Definition reportsFailure : M json := ret noResults.

Definition askCatalog : M json :=
  fetched <- await (FetchApi "/browse/featured-playlists" "GET" None None) ;;
  response <- settle fetched ;;
  ret (JNum (status response)).

Definition isCatalogCall (e : Event) : bool :=
  match e with
  | Issued (FetchApi _ _ _ _) => true
  | Issued _ => false
  end.

(** Services whose catalog answers, with Redis readable but not writable. *)
Definition readOnlyCache : Services :=
  {| tokenEndpoint := tokenEndpoint offline;
     catalog := fun _ => Ok (respond 200 None None);
     redisReads := true; redisWrites := false;
     shell := shell offline |}.

(** ** The scoring rule, in the words of the specification *)



Definition sumZ (l : list Z) : Z := foldr Z.add 0 l.







(** The catalog requests in a trace. *)
Definition catalogCalls (trace : list Event) : list Event :=
  filter (fun e => isCatalogCall e = true) trace.

(** How far a hit's duration is from 210000 ms. *)
Definition offStandard (t : RawTrack) : Z := Z.abs (duration_ms t - 210000).

(** [best] is in the group, no hit of the group is more popular, and no
    hit of the group that is as popular is nearer to 210000 ms. *)
Definition representative (best : RawTrack) (group : list RawTrack) : Prop :=
  best ∈ group /\
  (forall t, t ∈ group -> track_popularity t <= track_popularity best) /\
  (forall t, t ∈ group -> track_popularity t = track_popularity best ->
             offStandard best <= offStandard t).

Section Grouping.
Context `{JsRuntime}.

(** What the [Map] holds after the hits have gone through it. *)
Definition grouped (groups : list (string * list RawTrack)) (hits : list RawTrack) : Prop :=
  NoDup (groups.*1) /\
  (forall k g, (k, g) ∈ groups -> g = filter (fun t => trackKey t = k) hits /\ g <> []) /\
  (forall t, t ∈ hits -> trackKey t ∈ (groups.*1)).

End Grouping.

(** A hit named Hello by Adele. *)
Definition hello (ms pop : Z) (id : string) : RawTrack :=
  {| track_name := "Hello"; track_artists := [{| name := "Adele" |}];
     track_album := {| album_name := "25"; album_images := [] |};
     duration_ms := ms; track_id := id; track_popularity := pop |}.

(** ** The combined list, in the words of the specification *)

#[global] Instance Category_eq_dec : EqDecision Category.
Proof. solve_decision. Defined.

(** The items of one category in a list. *)
Definition ofCategory (c : Category) (l : list Item) : list Item :=
  filter (fun i => type i = c) l.

(** Sorted by descending relevance. *)
Definition descending (l : list Item) : Prop :=
  StronglySorted (fun a b => (relevance b <= relevance a)%Q) l.

(** Round [i] of the round robin: the [i]-th track, artist, album and
    playlist, those that exist. *)
Definition roundOf (results : ByType) (i : nat) : list Item :=
  option_list (tracks results !! i) ++ option_list (artists results !! i) ++
  option_list (albums results !! i) ++ option_list (playlists results !! i).

(** A catalog that answers every search with the same page: 10 tracks, 5
    artists, 3 albums and 2 playlists. *)
Definition queenTrack (n : string) (pop : Z) : RawTrack :=
  {| track_name := n; track_artists := [{| name := "Queen" |}];
     track_album := {| album_name := "Greatest Hits"; album_images := [] |};
     duration_ms := 200000 + pop; track_id := "t-" +:+ n; track_popularity := pop |}.

Definition queenArtist (n : string) (pop : Z) : RawArtist :=
  {| artist_name := n; artist_images := []; artist_id := "a-" +:+ n;
     artist_genres := None; artist_followers := Some (pop * 1000);
     artist_popularity := Some pop |}.

Definition queenAlbum (n : string) : RawAlbum :=
  {| raw_album_name := n; raw_album_artists := [{| name := "Queen" |}];
     raw_album_images := []; raw_album_id := "b-" +:+ n;
     raw_release_date := None; raw_total_tracks := Some 12 |}.

Definition queenPlaylist (n : string) : RawPlaylist :=
  {| playlist_name := n; playlist_description := Some "The best of Queen";
     playlist_images := []; playlist_id := "p-" +:+ n;
     playlist_owner := None; playlist_tracks := Some 50 |}.

Definition queenData : SearchData :=
  {| data_tracks := Some
       {| items := Some [queenTrack "Bohemian Rhapsody" 90; queenTrack "Killer Queen" 80;
                         queenTrack "Queen of Hearts" 40; queenTrack "Radio Ga Ga" 75;
                         queenTrack "Somebody to Love" 82; queenTrack "Under Pressure" 85;
                         queenTrack "Dancing Queen" 88; queenTrack "Queen" 30;
                         queenTrack "We Will Rock You" 86; queenTrack "Innuendo" 60];
          total := Some 1000 |};
     data_artists := Some
       {| items := Some [queenArtist "Queen" 90; queenArtist "Queen Latifah" 70;
                         queenArtist "Queens of the Stone Age" 75;
                         queenArtist "Queensryche" 55; queenArtist "Ice Queen" 20];
          total := Some 50 |};
     data_albums := Some
       {| items := Some [queenAlbum "Queen II"; queenAlbum "A Night at the Opera";
                         queenAlbum "Queen"];
          total := Some 30 |};
     data_playlists := Some
       {| items := Some [queenPlaylist "This Is Queen"; queenPlaylist "Queen Essentials"];
          total := Some 2 |} |}.

Definition queenCatalog : Services :=
  {| tokenEndpoint := fun _ => Ok (respond 200 (Some (granted 3600)) None);
     catalog := fun _ => Ok (respond 200 (Some queenData) None);
     redisReads := true; redisWrites := true;
     shell := shell offline |}.

(** ** The duration window, in the words of the specification *)

Definition clamp (x lo hi : Q) : Q := Qmax lo (Qmin hi x).

(** The window around a target of [ms] milliseconds, in seconds, as
    double arithmetic gives it. *)
Definition windowOf (ms : Z) : Q * Q :=
  let targetSeconds := Double.div (inject_Z ms) 1000 in
  let tol := clamp (Double.mul targetSeconds (Double.literal 0.10)) 5 15 in
  (Double.sub targetSeconds tol, Double.add targetSeconds tol).

(** The same window in exact arithmetic. *)
Definition exactWindow (ms : Z) : Q * Q :=
  let targetSeconds := (inject_Z ms / 1000)%Q in
  let tol := clamp (targetSeconds * 0.10) 5 15 in
  ((targetSeconds - tol)%Q, (targetSeconds + tol)%Q).

Definition withinWindow (ms : Z) (video : Video) : Prop :=
  ((windowOf ms).1 <= video_duration video /\ video_duration video <= (windowOf ms).2)%Q.

(** A candidate of [seconds] seconds. *)
Definition candidate (id : string) (seconds : Z) : Video :=
  {| video_url := "https://www.youtube.com/watch?v=" +:+ id;
     video_duration := inject_Z seconds;
     video_title := Some id; video_uploader := None |}.


(** A media index that lists three videos, of 170, 190 and 200 seconds,
    and a downloader that leaves the requested file. *)
Definition metadataLine (id : string) (seconds : Z) : string :=
  Ascii7.JSON_stringify
    (JObj [("webpage_url", JStr ("https://www.youtube.com/watch?v=" +:+ id));
           ("duration", JNum seconds); ("title", JStr id)]).

Definition newline : string := String "010"%char EmptyString.

Definition threeVideos : string :=
  metadataLine "a" 170 +:+ newline +:+ metadataLine "b" 190 +:+ newline +:+
  metadataLine "c" 200 +:+ newline.

Definition mediaIndex (listing : string) (outputPath : string) : Services :=
  {| tokenEndpoint := tokenEndpoint offline;
     catalog := catalog offline;
     redisReads := true; redisWrites := true;
     shell := fun command =>
       if includes command "--dump-json"
       then (ExecResolved {| stdout := listing; stderr := "" |}, [])
       else (ExecResolved {| stdout := ""; stderr := "" |}, [outputPath]) |}.


(** ** Further parts of the catalog client

    [exchangeCodeForTokens] (lines 69-93). *)
Definition exchangeCodeForTokens (code : string) : M TokenData :=
  tryCatch
    (fetched <- await (FetchToken (AuthorizationCodeGrant code)) ;;
     response <- settle fetched ;;
     if negb (ok response) then
       (responseJsonOrText response ;;;
        throw (ApiError (status response) None))
     else responseJson response)
    (fun error => throw error).

(** The object [setUserTokens] assigns to [session.tokens] at time [at_]. *)
Definition tokensOf (td : TokenData) (at_ : Z) : Tokens :=
  {| accessToken := default "" (access_token td);
     refreshToken := refresh_token td;
     expiresAt := at_ + expires_in td * 1000;
     scope := td_scope td |}.

(** The world in which session [sid] holds [t], in memory and saved. *)
Definition stored (sid : string) (t : Tokens) (w : World) : World :=
  setSessionStore (<[sid := t]>) (setSessions (<[sid := t]>) w).

(** What [refreshUserAccessToken] hands to [setUserTokens]: the provider's
    answer, with the old refresh token when the answer carries none. *)
Definition withRefreshToken (rt : string) (td : TokenData) : TokenData :=
  {| access_token := access_token td;
     refresh_token := if truthy (refresh_token td) then refresh_token td else Some rt;
     expires_in := expires_in td;
     td_scope := td_scope td |}.

Definition isTokenCall (e : Event) : bool :=
  match e with
  | Issued (FetchToken _) => true
  | Issued _ => false
  end.

Definition silent : Services :=
  {| tokenEndpoint := fun _ =>
       Ok (respond 200 (Some {| access_token := None; refresh_token := None;
                                expires_in := 3600; td_scope := None |}) None);
     catalog := catalog offline; redisReads := true; redisWrites := true;
     shell := shell offline |}.

Definition orphanTokens : Tokens :=
  {| accessToken := "old-access"; refreshToken := None; expiresAt := 1000000; scope := None |}.

(** [this.clientCredentialsToken] holds a token that has not expired. *)
Definition clientTokenValid (w : World) : bool :=
  truthy (clientCredentialsToken w) && (now w <? clientCredentialsTokenExpiresAt w).

Definition cachedClientToken (token : string) (until : Z) (w : World) : World :=
  setClientToken (Some token) until w.

Definition appToken : TokenData :=
  {| access_token := Some "app-token"; refresh_token := None;
     expires_in := 3600; td_scope := None |}.

Definition issuing : Services :=
  {| tokenEndpoint := fun _ => Ok (respond 200 (Some appToken) None);
     catalog := catalog offline; redisReads := true; redisWrites := true;
     shell := shell offline |}.

(** [_makeApiRequest] from the point where the response has arrived
    (lines 205-215). *)
Definition readApiResponse (fetched : Result (Response SearchData)) : M (option SearchData) :=
  response <- settle fetched ;;
  if negb (ok response) then
    (let errorBody :=
       default {| error_message := None; error_status := None;
                  top_message := Some (statusText response) |}
               (error_json response) in
     throw (ApiError
              (match error_status errorBody with
               | Some st => if st =? 0 then status response else st
               | None => status response
               end)
              (firstTruthy (error_message errorBody) (top_message errorBody))))
  else if (status response =? 204) || emptyBody response then ret None
  else (d <- responseJson response ;; ret (Some d)).

(** [_makeApiRequest] from the point where the user's token, if any, is
    known (lines 186-218). *)
Definition sendWithToken (userToken : option string) (endpoint method : string)
    (body : option string) : M (option SearchData) :=
  accessToken <-
    (if truthy userToken then ret userToken
     else tryCatch getClientCredentialsToken
            (fun clientTokenError => throw (NoTokenError clientTokenError))) ;;
  tryCatch
    (fetched <- await (FetchApi endpoint method accessToken body) ;;
     readApiResponse fetched)
    (fun error => throw error).

Definition freshWorld : World :=
  stored "sess-2" {| accessToken := "user-access"; refreshToken := Some "refresh-2";
                     expiresAt := 2000000; scope := None |} emptyWorld.

(** The order [results[key].sort(...)] leaves a category in: by descending
    relevance and, among items of equal relevance, by descending
    popularity. *)
Definition inCategoryOrder (a b : Item) : Prop :=
  (relevance b < relevance a)%Q \/
  ((relevance b == relevance a)%Q /\ orZero (popularity b) <= orZero (popularity a)).

Definition allItems (by_type : ByType) : list Item :=
  tracks by_type ++ artists by_type ++ albums by_type ++ playlists by_type.

(** A compute function that throws. *)
Definition failing : M json := throw TypeError.

(** Services whose Redis can neither be read nor written. *)
Definition noRedis : Services :=
  {| tokenEndpoint := tokenEndpoint offline; catalog := catalog offline;
     redisReads := false; redisWrites := false; shell := shell offline |}.

(** The world in which the backend holds the [noResults] payload. *)
Definition warmWorld : World :=
  setRedisData (<["cache:search" := Ascii7.JSON_stringify noResults]>) emptyWorld.

(** Lines 35-39: the world once the output directory is there. *)
Definition prepared `{MediaRuntime} (outputPath : string) (w : World) : World :=
  if decide (dirname outputPath ∈ files w) then w
  else setFiles (fun fs => {[dirname outputPath]} ∪ fs) w.

(** Lines 45-62: what the search leaves in [searchStdout]. *)
Definition searchOutput `{JsRuntime} (searched : ExecResult) : Result string :=
  match searched with
  | ExecResolved out => Ok (stdout out)
  | ExecRejected error out _ =>
      let searchStdout := if truthy out then default "" out else "" in
      if String.eqb (trim searchStdout) "" then Throw (SearchFatal error)
      else Ok searchStdout
  end.

(** Lines 126-167: what the call ends with once the download has run. *)
Definition downloadOutcome (fetched : ExecResult) (present : bool) (outputPath : string)
    (selected : Video) : Result Download :=
  if present then Ok (downloaded outputPath selected)
  else
    match fetched with
    | ExecRejected downloadError _ _ => Throw (DownloadFailed downloadError)
    | ExecResolved _ => Throw FileMissing
    end.

Definition hasQuote (s : string) : bool :=
  existsb (fun c => Ascii.eqb c "034"%char || Ascii.eqb c "'"%char) (list_ascii_of_string s).

(** A media index that lists [listing], and a downloader that reports an
    error after leaving the requested file. *)
Definition flakyDownloader (listing : string) (outputPath : string) : Services :=
  {| tokenEndpoint := tokenEndpoint offline;
     catalog := catalog offline;
     redisReads := true; redisWrites := true;
     shell := fun command =>
       if includes command "--dump-json"
       then (ExecResolved {| stdout := listing; stderr := "" |}, [])
       else (ExecRejected (NetworkError "exit status 1") None None, [outputPath]) |}.

(** The two calls of the [/exchange] route ([spotifyApi.js], lines 160-161). *)
Definition exchangeAndStore (session : option string) (code : string) : M unit :=
  tokenData <- exchangeCodeForTokens code ;;
  setUserTokens session (Some tokenData).

(** A provider that grants every code and every refresh. *)
Definition signingIn : Services :=
  {| tokenEndpoint := fun _ =>
       Ok (respond 200 (Some {| access_token := Some "user-access";
                                refresh_token := Some "refresh-1";
                                expires_in := 3600; td_scope := Some "user-read-email" |}) None);
     catalog := catalog offline; redisReads := true; redisWrites := true;
     shell := shell offline |}.

(** ** Track search ([searchTrack], lines 271-338) and the track helpers of
    [unifiedSearch] ([_processTracks], [_selectRepresentativeTrack], lines
    934-977) *)

(** A track as [searchTrack] and [_processTracks] return it. *)
Record TrackSummary := {
  summary_name : string;
  summary_artist : string;
  summary_album : string;
  summary_image : option string;
  summary_duration : Z;
  summary_spotify_id : string
}.

Inductive TrackSearchOutcome :=
| TracksFound (tracks : list TrackSummary)
| NoTracksFound                         (* Nessun risultato trovato *)
| TrackSearchFailure (error : Exn).

(** [trackGroup.map(t => t.duration_ms).sort((a, b) => a - b)]. *)
Definition sortedDurations (trackGroup : list RawTrack) : list Z :=
  sortBy (fun a b => inject_Z (a - b)) (map duration_ms trackGroup).

(** The median of the sorted [durations]: the middle one, or the mean of
    the two middle ones. *)
Definition medianDuration (durations : list Z) : Q :=
  let mid := (length durations / 2)%nat in
  if (length durations mod 2 =? 0)%nat
  then ((inject_Z (nth (mid - 1) durations 0%Z) + inject_Z (nth mid durations 0%Z)) / 2)%Q
  else inject_Z (nth mid durations 0).

(** [Math.abs(track.duration_ms - medianDuration)]. *)
Definition diffTo (medianDuration : Q) (track : RawTrack) : Q :=
  Qabs (inject_Z (duration_ms track) - medianDuration).

(** The [forEach] callback: the state is [closestTrack] and [minDiff],
    [None] standing for [Infinity]; the track is taken when
    [diff < minDiff]. *)
Definition closerTrack (medianDuration : Q) (state : RawTrack * option Q) (track : RawTrack)
    : RawTrack * option Q :=
  let diff := diffTo medianDuration track in
  match state.2 with
  | Some minDiff => if negb (Qle_bool minDiff diff) then (track, Some diff) else state
  | None => (track, Some diff)
  end.

Definition _selectRepresentativeTrack (trackGroup : list RawTrack) : option RawTrack :=
  match trackGroup with
  | [] => None
  | [only] => Some only
  | first :: _ =>
      let durations := sortedDurations trackGroup in
      let medianDuration := medianDuration durations in
      Some (fold_left (closerTrack medianDuration) trackGroup (first, None)).1
  end.


Definition trackSummary (image : list Image -> option string) (representative : RawTrack)
    : TrackSummary :=
  {| summary_name := track_name representative;
     summary_artist := join ", " (map name (track_artists representative));
     summary_album := album_name (track_album representative);
     summary_image := image (album_images (track_album representative));
     summary_duration := duration_ms representative;
     summary_spotify_id := track_id representative |}.

(** One summary per group, in the groups' insertion order. *)
Definition summaries (image : list Image -> option string)
    (groupedTracks : list (string * list RawTrack)) : list TrackSummary :=
  omap (fun g => option_map (trackSummary image) (_selectRepresentativeTrack g.2)) groupedTracks.

Section TrackSearch.
Context `{JsRuntime}.



Definition searchTrackEndpoint (query : string) (limit : Z) : string :=
  "/search?q=" +:+ encodeURIComponent query +:+ "&type=track&market=IT&limit=" +:+ pretty limit.

(** [searchTrack]; its inline choice of the representative (lines 292-313)
    is the body of [_selectRepresentativeTrack]. *)
Definition searchTrack (query : string) (limit : Z) : M TrackSearchOutcome :=
  tryCatch
    (data <- _makeApiRequest None (searchTrackEndpoint query limit) "GET" None ;;
     match data with
     | None => throw TypeError
     | Some data =>
         match data_tracks data with
         | None => ret NoTracksFound
         | Some page =>
             match items page with
             | None => throw TypeError
             | Some [] => ret NoTracksFound
             | Some hits => ret (TracksFound (summaries firstImage (groupTracks hits)))
             end
         end
     end)
    (fun error => ret (TrackSearchFailure error)).
End TrackSearch.

(** Three versions of one song: 200, 210 and 260 seconds. *)
Definition versions : list RawTrack :=
  [hello 260000 95 "long"; hello 200000 40 "short"; hello 210000 10 "middle"].

Definition helloCatalog : Services :=
  {| tokenEndpoint := tokenEndpoint offline;
     catalog := fun _ =>
       Ok (respond 200
             (Some {| data_tracks := Some {| items := Some versions; total := Some 3 |};
                      data_artists := None; data_albums := None; data_playlists := None |})
             None);
     redisReads := true; redisWrites := true;
     shell := shell offline |}.

(** [representative] is the first track of [trackGroup] among those whose
    duration is nearest to [median]. *)
Definition nearestTo (median : Q) (representative : RawTrack) (trackGroup : list RawTrack)
    : Prop :=
  exists before after,
    trackGroup = before ++ representative :: after /\
    Forall (fun t => (diffTo median representative < diffTo median t)%Q) before /\
    Forall (fun t => (diffTo median representative <= diffTo median t)%Q) after.

(** [video] is the first candidate of [videos] within the window of [ms]. *)
Definition firstWithin (ms : Z) (video : Video) (videos : list Video) : Prop :=
  exists before after,
    videos = before ++ video :: after /\ withinWindow ms video /\
    Forall (fun v => ~ withinWindow ms v) before.

(** The duration lies within the window computed in exact arithmetic. *)
Definition withinExactWindow (ms : Z) (video : Video) : Prop :=
  ((exactWindow ms).1 <= video_duration video /\ video_duration video <= (exactWindow ms).2)%Q.

(** A candidate whose duration is the double nearest to 55.0088 s. *)
Definition edgeCandidate : Video :=
  {| video_url := "https://www.youtube.com/watch?v=e";
     video_duration := Double.literal 55.0088;
     video_title := Some "e"; video_uploader := None |}.

(** A catalog that answers every search with the two Hello hits. *)
Definition adeleData : SearchData :=
  {| data_tracks := Some {| items := Some [hello 295000 80 "a"; hello 200000 95 "b"];
                            total := Some 2 |};
     data_artists := None; data_albums := None; data_playlists := None |}.

Definition adeleCatalog : Services :=
  {| tokenEndpoint := tokenEndpoint offline;
     catalog := fun _ => Ok (respond 200 (Some adeleData) None);
     redisReads := true; redisWrites := true;
     shell := shell offline |}.

(** Two hits whose names and first artists differ and whose keys coincide. *)
Definition barHit (n a id : string) (pop : Z) : RawTrack :=
  {| track_name := n; track_artists := [{| name := a |}];
     track_album := {| album_name := "x"; album_images := [] |};
     duration_ms := 210000; track_id := id; track_popularity := pop |}.

Definition barData : SearchData :=
  {| data_tracks := Some {| items := Some [barHit "a|b" "c" "first" 10;
                                           barHit "a" "b|c" "second" 20];
                            total := Some 2 |};
     data_artists := None; data_albums := None; data_playlists := None |}.

(** Two playlists that tie in exact arithmetic, 1 + 61/5 = 11 + 11/5, and
    do not in double arithmetic. *)
Definition rockPlaylist (n d id : string) : RawPlaylist :=
  {| playlist_name := n; playlist_description := Some d; playlist_images := [];
     playlist_id := id; playlist_owner := None; playlist_tracks := None |}.

Definition rockData : SearchData :=
  {| data_tracks := None; data_artists := None; data_albums := None;
     data_playlists :=
       Some {| items := Some [rockPlaylist "Ro" "ck" "B";
                              rockPlaylist "Chill" "classic hardrock hits" "A"];
               total := Some 2 |} |}.

(** The refresh did not go through: the request failed, the answer was
    outside 2xx, or its body could not be read. *)
Definition refreshFails (reply : Result (Response TokenData)) : Prop :=
  match reply with
  | Throw _ => True
  | Ok resp => ok resp = false \/ json_body resp = None
  end.

(** The world in which session [sid] holds no tokens, in memory and saved. *)
Definition forgotten (sid : string) (w : World) : World :=
  setSessionStore (delete sid) (setSessions (delete sid) w).

(** A provider that answers every refresh with 403 and a JSON error body,
    and one that answers with 400 and a body that is not JSON. *)
Definition forbidding : Services :=
  {| tokenEndpoint := fun _ => Ok (respond 403 None (Some invalidGrant));
     catalog := catalog offline; redisReads := true; redisWrites := true;
     shell := shell offline |}.

Definition garbled : Services :=
  {| tokenEndpoint := fun _ => Ok (respond 400 None None);
     catalog := catalog offline; redisReads := true; redisWrites := true;
     shell := shell offline |}.

(** * Properties *)

(** ** Running sequenced and guarded computations *)

Lemma exec_bindA {A B} (env : Env) (p : Async A) (f : A -> M B) :
  exec env (bindA p f) =
  match exec env p with
  | (Ok a, w, t) => let '(r, w', t') := exec env (f a w) in (r, w', t ++ t')
  | (Throw e, w, t) => (Throw e, w, t)
  end.
Proof.
  induction p as [[a | e] w | R w rq k IH]; simpl.
  - destruct (exec env (f a w)) as [[r w'] t']. reflexivity.
  - reflexivity.
  - destruct (env R rq w) as [reply w1]. rewrite IH.
    destruct (exec env (k reply w1)) as [[[a | e] w2] t2].
    + destruct (exec env (f a w2)) as [[r w3] t3]. reflexivity.
    + reflexivity.
Qed.

Lemma exec_catchA {A} (env : Env) (p : Async A) (h : Exn -> M A) :
  exec env (catchA p h) =
  match exec env p with
  | (Ok a, w, t) => (Ok a, w, t)
  | (Throw e, w, t) => let '(r, w', t') := exec env (h e w) in (r, w', t ++ t')
  end.
Proof.
  induction p as [[a | e] w | R w rq k IH]; simpl.
  - reflexivity.
  - destruct (exec env (h e w)) as [[r w'] t']. reflexivity.
  - destruct (env R rq w) as [reply w1]. rewrite IH.
    destruct (exec env (k reply w1)) as [[[a | e] w2] t2].
    + reflexivity.
    + destruct (exec env (h e w2)) as [[r w3] t3]. reflexivity.
Qed.

Lemma run_bind {A B} (env : Env) (m : M A) (f : A -> M B) (w : World) :
  run env (bind m f) w =
  match run env m w with
  | (Ok a, w1, t) => let '(r, w', t') := run env (f a) w1 in (r, w', t ++ t')
  | (Throw e, w1, t) => (Throw e, w1, t)
  end.
Proof. apply exec_bindA. Qed.

Lemma run_tryCatch {A} (env : Env) (m : M A) (h : Exn -> M A) (w : World) :
  run env (tryCatch m h) w =
  match run env m w with
  | (Ok a, w1, t) => (Ok a, w1, t)
  | (Throw e, w1, t) => let '(r, w', t') := run env (h e) w1 in (r, w', t ++ t')
  end.
Proof. apply exec_catchA. Qed.

Lemma run_await {R} (env : Env) (rq : Request R) (w : World) :
  run env (await rq) w = (Ok (env R rq w).1, (env R rq w).2, [Issued rq]).
Proof. unfold run, await. simpl. destruct (env R rq w). reflexivity. Qed.

Lemma run_rethrow {A} (env : Env) (m : M A) (w : World) :
  run env (tryCatch m (fun error => throw error)) w = run env m w.
Proof.
  rewrite run_tryCatch. destruct (run env m w) as [[[a | e] w1] t]; [reflexivity |].
  unfold run, throw. simpl. rewrite app_nil_r. reflexivity.
Qed.

(** ** Token lifecycle *)

Lemma truthy_Some rt : rt <> ""%string -> truthy (Some rt) = true.
Proof.
  intros Hne. unfold truthy. destruct (String.eqb_spec rt ""); [contradiction | reflexivity].
Qed.

Lemma truthy_inv o : truthy o = true -> exists s, o = Some s /\ s <> ""%string.
Proof.
  destruct o as [s |]; simpl; [| discriminate].
  destruct (String.eqb_spec s ""); [discriminate |]. eauto.
Qed.

Lemma refresh_starts w sid tokens rt :
  sessions w !! sid = Some tokens -> refreshToken tokens = Some rt -> rt <> ""%string ->
  exists k, refreshUserAccessToken (Some sid) w = Await w (FetchToken (RefreshTokenGrant rt)) k
    /\ forall reply w1, exists r w', k reply w1 = Done r w'.
Proof.
  intros Hs Hrt Hne.
  unfold refreshUserAccessToken, bind, getWorld. simpl. rewrite Hs, Hrt, (truthy_Some _ Hne). simpl.
  eexists. split; [reflexivity |].
  intros [resp | e] w1; simpl; [| eauto].
  destruct (ok resp); simpl.
  - unfold responseJson. destruct (json_body resp) as [d |]; simpl; [| eauto].
    unfold setUserTokens. destruct (truthy (access_token d)); simpl.
    + rewrite lookup_insert_eq. simpl. eauto.
    + destruct (sessions w1 !! sid); simpl; eauto.
  - unfold responseJsonOrText, responseText.
    destruct (error_json resp); simpl.
    + destruct ((status resp =? 400) || (status resp =? 401)); simpl; eauto.
    + destruct (text_body resp); simpl; [| eauto].
      destruct ((status resp =? 400) || (status resp =? 401)); simpl; eauto.
Qed.

Lemma getUserTokens_stale w sid tokens :
  sessions w !! sid = Some tokens -> expiresAt tokens <= now w + 60000 ->
  getUserTokens (Some sid) w =
  tryCatch
    (newAccessToken <- refreshUserAccessToken (Some sid) ;;
     if negb (truthy newAccessToken) then ret None
     else (w' <- getWorld ;; ret (sessions w' !! sid)))
    (fun refreshError => ret None) w.
Proof.
  intros Hs Hstale. unfold getUserTokens. unfold bind at 1. unfold getWorld. cbn [bindA].
  rewrite Hs. destruct (Z.leb_spec (expiresAt tokens) (now w + 60000)); [reflexivity | lia].
Qed.

Lemma refresh_run (env : Env) w sid tokens rt :
  sessions w !! sid = Some tokens -> refreshToken tokens = Some rt -> rt <> ""%string ->
  exists r w', run env (refreshUserAccessToken (Some sid)) w =
                 (r, w', [Issued (FetchToken (RefreshTokenGrant rt))]).
Proof.
  intros Hs Hrt Hne.
  destruct (refresh_starts w sid tokens rt Hs Hrt Hne) as (k & Hk & Hdone).
  unfold run. rewrite Hk. simpl.
  destruct (env _ (FetchToken (RefreshTokenGrant rt)) w) as [reply w1].
  destruct (Hdone reply w1) as (r & w' & ->). simpl. eauto.
Qed.

Lemma refresh_without_token w sid tokens :
  sessions w !! sid = Some tokens -> truthy (refreshToken tokens) = false ->
  refreshUserAccessToken (Some sid) w = Done (Ok None) (setSessions (delete sid) w).
Proof.
  intros Hs Hrt. unfold refreshUserAccessToken, bind, getWorld. simpl.
  rewrite Hs, Hrt. reflexivity.
Qed.

(** C5. For a session that holds tokens: when they expire more than 60
    seconds from now, [getUserTokens] returns them as they are, changes
    nothing and sends no request; and whenever it returns tokens that
    expire within 60 seconds of the time of the call, it has sent a refresh
    request with the stored refresh token first. *)
Theorem getUserTokens_safety_margin (env : Env) w sid tokens :
  sessions w !! sid = Some tokens ->
  (now w + 60000 < expiresAt tokens ->
     run env (getUserTokens (Some sid)) w = (Ok (Some tokens), w, [])) /\
  (forall t' w' trace,
     run env (getUserTokens (Some sid)) w = (Ok (Some t'), w', trace) ->
     expiresAt t' <= now w + 60000 ->
     exists rt, refreshToken tokens = Some rt /\
                trace = [Issued (FetchToken (RefreshTokenGrant rt))]).
Proof.
  intros Hs. 
  assert (Hfresh : now w + 60000 < expiresAt tokens ->
     run env (getUserTokens (Some sid)) w = (Ok (Some tokens), w, [])).
  { intros Hlt. unfold run, getUserTokens, bind, getWorld. simpl. rewrite Hs.
    destruct (Z.leb_spec (expiresAt tokens) (now w + 60000)); [lia | reflexivity]. }
  split; [exact Hfresh |].
  intros t' w' trace Hrun Hnear.
  destruct (Z.lt_ge_cases (now w + 60000) (expiresAt tokens)) as [Hlt | Hstale].
  { rewrite (Hfresh Hlt) in Hrun. inversion Hrun; subst. lia. }
  unfold run in Hrun. rewrite (getUserTokens_stale _ _ _ Hs Hstale) in Hrun.
  fold (run env (tryCatch
      (newAccessToken <- refreshUserAccessToken (Some sid) ;;
       if negb (truthy newAccessToken) then ret None
       else (w' <- getWorld ;; ret (sessions w' !! sid)))
      (fun refreshError => ret None)) w) in Hrun.
  rewrite run_tryCatch, run_bind in Hrun.
  destruct (truthy (refreshToken tokens)) eqn:Hrt.
  - apply truthy_inv in Hrt. destruct Hrt as (rt & Hrt & Hne).
    exists rt. split; [assumption |].
    destruct (refresh_run env w sid tokens rt Hs Hrt Hne) as (r & w1 & Hr).
    rewrite Hr in Hrun. destruct r as [a | e].
    + destruct (truthy a); simpl in Hrun; inversion Hrun; reflexivity.
    + simpl in Hrun. inversion Hrun.
  - unfold run at 1 in Hrun. rewrite (refresh_without_token _ _ _ Hs Hrt) in Hrun.
    simpl in Hrun. inversion Hrun.
Qed.

Lemma getUserTokens_starts w sid tokens rt :
  sessions w !! sid = Some tokens -> expiresAt tokens <= now w + 60000 ->
  refreshToken tokens = Some rt -> rt <> ""%string ->
  exists k, getUserTokens (Some sid) w = Await w (FetchToken (RefreshTokenGrant rt)) k
    /\ forall reply w1, exists r w', k reply w1 = Done r w'.
Proof.
  intros Hs Hstale Hrt Hne.
  rewrite (getUserTokens_stale _ _ _ Hs Hstale).
  destruct (refresh_starts w sid tokens rt Hs Hrt Hne) as (k & Hk & Hdone).
  unfold tryCatch, bind. rewrite Hk. simpl. eexists. split; [reflexivity |].
  intros reply w1. destruct (Hdone reply w1) as ([a | e] & w' & ->); simpl; [| eauto].
  destruct (truthy a); simpl; eauto.
Qed.

Lemma step_settles {A} (env : Env) (i : nat) (p p' : Pool A) :
  Forall settles (tasks p) -> step env i p = Some p' ->
  Forall settles (tasks p') /\ issued p' = issued p.
Proof.
  intros Hall Hstep. unfold step in Hstep.
  destruct (tasks p !! i) as [t |] eqn:Hi; [| discriminate].
  assert (Ht : settles t) by (eapply Forall_lookup_1; eauto).
  destruct t as [m | R rq k | r]; simpl in *; [contradiction | | discriminate].
  destruct (env R rq (world p)) as [reply w1].
  destruct (Ht reply w1) as (r & w' & Hk). rewrite Hk in Hstep. simpl in Hstep.
  inversion Hstep; subst; simpl. split.
  - apply Forall_insert; [assumption | exact I].
  - apply app_nil_r.
Qed.

Lemma schedule_settles {A} (env : Env) (order : list nat) (p p' : Pool A) :
  Forall settles (tasks p) -> schedule env order p = Some p' ->
  issued p' = issued p.
Proof.
  revert p. induction order as [| i rest IH]; intros p Hall Hs; simpl in Hs.
  - inversion Hs. reflexivity.
  - destruct (step env i p) as [p1 |] eqn:Hstep; [| discriminate].
    destruct (step_settles env i p p1 Hall Hstep) as [Hall1 Heq].
    rewrite <- Heq. eapply IH; eauto.
Qed.

(** C3, as the code has it. For a session whose tokens are within 60
    seconds of expiry and that holds a refresh token: two calls of
    [getUserTokens] that both start before either gets its reply each send
    their own refresh request, so that two refreshes are in flight at once,
    and however the two calls are then resumed the number of refresh
    requests stays two. *)
Theorem concurrent_calls_each_refresh (env : Env) w sid tokens rt :
  sessions w !! sid = Some tokens -> expiresAt tokens <= now w + 60000 ->
  refreshToken tokens = Some rt -> rt <> ""%string ->
  exists p,
    schedule env [0; 1]%nat
      {| world := w;
         tasks := [Pending (getUserTokens (Some sid)); Pending (getUserTokens (Some sid))];
         issued := [] |} = Some p /\
    world p = w /\
    refreshesInFlight p = 2%nat /\
    issued p = [Issued (FetchToken (RefreshTokenGrant rt));
                Issued (FetchToken (RefreshTokenGrant rt))] /\
    forall order p', schedule env order p = Some p' -> refreshCalls (issued p') = 2%nat.
Proof.
  intros Hs Hstale Hrt Hne.
  destruct (getUserTokens_starts w sid tokens rt Hs Hstale Hrt Hne) as (k & Hk & Hdone).
  eexists. split.
  { simpl. unfold step. simpl. rewrite Hk. simpl. unfold step. simpl. rewrite Hk. simpl.
    reflexivity. }
  simpl. repeat split.
  intros order p' Hsched.
  erewrite (schedule_settles env order _ p' _ Hsched). reflexivity.
  Unshelve. simpl. repeat constructor; exact Hdone.
Qed.

(** C3, refuted as stated: with a provider that grants every refresh, two
    concurrent calls on one stale session have two refreshes in flight
    after both have started, and have sent two upstream refresh calls, not
    one, when both have ended. *)
Lemma concurrent_calls_refresh_twice :
  (refreshesInFlight <$> schedule (serve (granting 3600)) [0; 1]%nat twoCalls) = Some 2%nat /\
  ((fun p => (forallb isFinished (tasks p), refreshCalls (issued p)))
     <$> schedule (serve (granting 3600)) [0; 1; 0; 1]%nat twoCalls) = Some (true, 2%nat) /\
  ((fun p => refreshCalls (issued p))
     <$> schedule (serve (granting 3600)) [0; 1; 0; 1]%nat twoCalls) <> Some 1%nat.
Proof. vm_compute. repeat split; congruence. Qed.

Lemma concurrent_calls_each_refresh_witness :
  exists p,
    schedule (serve (granting 3600)) [0; 1]%nat twoCalls = Some p /\
    refreshesInFlight p = 2%nat /\
    forall order p', schedule (serve (granting 3600)) order p = Some p' ->
                     refreshCalls (issued p') = 2%nat.
Proof.
  destruct (concurrent_calls_each_refresh (serve (granting 3600)) staleWorld "sess-1"
              staleTokens "refresh-0") as (p & Hp & _ & Hflight & _ & Hall).
  - reflexivity.
  - simpl. lia.
  - reflexivity.
  - discriminate.
  - exists p. repeat split; assumption.
Defined.

Lemma getUserTokens_safety_margin_witness :
  run (serve offline) (getUserTokens (Some "sess-2"))
      (setSessions (<["sess-2" := freshTokens]>) emptyWorld)
  = (Ok (Some freshTokens), setSessions (<["sess-2" := freshTokens]>) emptyWorld, []) /\
  (forall t' w' trace,
     run (serve (granting 30)) (getUserTokens (Some "sess-1")) staleWorld
       = (Ok (Some t'), w', trace) ->
     expiresAt t' <= now staleWorld + 60000 ->
     trace = [Issued (FetchToken (RefreshTokenGrant "refresh-0"))]).
Proof.
  split.
  - apply (getUserTokens_safety_margin (serve offline)
             (setSessions (<["sess-2" := freshTokens]>) emptyWorld) "sess-2" freshTokens).
    + reflexivity.
    + simpl. lia.
  - intros t' w' trace Hrun Hnear.
    destruct (getUserTokens_safety_margin (serve (granting 30)) staleWorld "sess-1"
                staleTokens eq_refl) as [_ Hstale].
    destruct (Hstale t' w' trace Hrun Hnear) as (rt & Hrt & ->).
    inversion Hrt. reflexivity.
Defined.

(** ** Read-through cache *)

Section CacheProperties.
Context `{JsRuntime}.
Variable env : Env.

Lemma getWithCache_miss key fetcher ttl w cached w1 :
  env _ (RedisGet key) w = (Ok cached, w1) -> truthy cached = false ->
  run env (_getWithCache key fetcher ttl) w =
  match run env fetcher w1 with
  | (Ok v, w2, t1) =>
      match env _ (RedisSet key (JSON_stringify v) ttl) w2 with
      | (Ok _, w3) =>
          (Ok v, w3, Issued (RedisGet key) :: t1 ++ [Issued (RedisSet key (JSON_stringify v) ttl)])
      | (Throw _, w3) =>
          let '(r, w4, t2) := run env fetcher w3 in
          (r, w4, Issued (RedisGet key) :: t1 ++ Issued (RedisSet key (JSON_stringify v) ttl) :: t2)
      end
  | (Throw _, w2, t1) =>
      let '(r, w3, t2) := run env fetcher w2 in
      (r, w3, Issued (RedisGet key) :: t1 ++ t2)
  end.
Proof.
  intros Hget Hmiss. unfold _getWithCache.
  rewrite run_tryCatch, run_bind, run_await, Hget. simpl.
  rewrite run_bind. unfold run at 1. simpl. rewrite Hmiss. 
  rewrite run_bind.
  destruct (run env fetcher w1) as [[[v | e] w2] t1].
  - rewrite run_bind, run_await.
    destruct (env _ (RedisSet key (JSON_stringify v) ttl) w2) as [[u | e] w3]; simpl.
    + unfold run. simpl. reflexivity.
    + unfold run at 1. simpl. fold (run env fetcher w3).
      destruct (run env fetcher w3) as [[r w4] t2]. simpl.
      rewrite <- app_assoc. reflexivity.
  - destruct (run env fetcher w2) as [[r w3] t2]. reflexivity.
Qed.

(** C10. In one call of [_getWithCache] whose cache read misses: when the
    compute function throws, it is invoked again, from the world its first
    invocation left, and the call ends as that second invocation ends, with
    its value or with its error; the same holds when the first invocation
    returns a value and the cache write throws. *)
Theorem getWithCache_second_invocation key fetcher ttl w cached w1 r1 w2 t1 :
  env _ (RedisGet key) w = (Ok cached, w1) -> truthy cached = false ->
  run env fetcher w1 = (r1, w2, t1) ->
  (forall e, r1 = Throw e ->
     forall r2 w3 t2, run env fetcher w2 = (r2, w3, t2) ->
     run env (_getWithCache key fetcher ttl) w = (r2, w3, Issued (RedisGet key) :: t1 ++ t2)) /\
  (forall v e w2', r1 = Ok v ->
     env _ (RedisSet key (JSON_stringify v) ttl) w2 = (Throw e, w2') ->
     forall r2 w3 t2, run env fetcher w2' = (r2, w3, t2) ->
     run env (_getWithCache key fetcher ttl) w =
       (r2, w3, Issued (RedisGet key) :: t1 ++
                Issued (RedisSet key (JSON_stringify v) ttl) :: t2)).
Proof.
  intros Hget Hmiss Hfirst. split.
  - intros e -> r2 w3 t2 Hsecond.
    rewrite (getWithCache_miss _ _ _ _ _ _ Hget Hmiss), Hfirst, Hsecond. reflexivity.
  - intros v e w2' -> Hset r2 w3 t2 Hsecond.
    rewrite (getWithCache_miss _ _ _ _ _ _ Hget Hmiss), Hfirst, Hset, Hsecond. reflexivity.
Qed.

Lemma getWithCache_guarded_skips_failures key fetcher ttl w reply w1 v w2 t1 :
  env _ (RedisGet key) w = (reply, w1) ->
  (forall cached, reply = Ok cached -> truthy cached = false) ->
  run env fetcher w1 = (Ok v, w2, t1) ->
  isExplicitFailure v = true ->
  run env (_getWithCache_guarded key fetcher ttl) w = (Ok v, w2, Issued (RedisGet key) :: t1).
Proof.
  intros Hget Hmiss Hfetch Hfail. unfold _getWithCache_guarded.
  assert (Hv : jsonTruthy v = true).
  { destruct v; try discriminate. reflexivity. }
  assert (Hhit : run env (tryCatch
                    (got <- await (RedisGet key) ;;
                     cachedData <- settle got ;;
                     if truthy cachedData
                     then (v0 <- jsonParse (default ""%string cachedData) ;; ret (Some v0))
                     else ret None)
                    (fun error => ret None)) w = (Ok None, w1, [Issued (RedisGet key)])).
  { rewrite run_tryCatch, run_bind, run_await, Hget.
    destruct reply as [cached | e]; unfold run, bind; simpl; [| reflexivity].
    rewrite (Hmiss cached eq_refl). reflexivity. }
  rewrite run_bind, Hhit.
  rewrite run_bind, Hfetch, Hv, run_tryCatch, Hfail. unfold run, ret. simpl.
  rewrite app_nil_r. reflexivity.
Qed.
End CacheProperties.

Lemma getWithCache_second_invocation_witness :
  run (serve offline) (@_getWithCache Ascii7.runtime "cache:featured" askCatalog 3600) emptyWorld
  = (Throw (NetworkError "fetch failed"), emptyWorld,
     [Issued (RedisGet "cache:featured");
      Issued (FetchApi "/browse/featured-playlists" "GET" None None);
      Issued (FetchApi "/browse/featured-playlists" "GET" None None)]) /\
  run (serve readOnlyCache) (@_getWithCache Ascii7.runtime "cache:featured" askCatalog 3600)
      emptyWorld
  = (Ok (JNum 200), emptyWorld,
     [Issued (RedisGet "cache:featured");
      Issued (FetchApi "/browse/featured-playlists" "GET" None None);
      Issued (RedisSet "cache:featured" "200" 3600);
      Issued (FetchApi "/browse/featured-playlists" "GET" None None)]).
Proof.
  split.
  - destruct (@getWithCache_second_invocation Ascii7.runtime (serve offline)
                "cache:featured" askCatalog 3600 emptyWorld None emptyWorld
                (Throw (NetworkError "fetch failed")) emptyWorld
                [Issued (FetchApi "/browse/featured-playlists" "GET" None None)]
                eq_refl eq_refl eq_refl) as [Hthrows _].
    exact (Hthrows _ eq_refl _ _ _ eq_refl).
  - destruct (@getWithCache_second_invocation Ascii7.runtime (serve readOnlyCache)
                "cache:featured" askCatalog 3600 emptyWorld None emptyWorld
                (Ok (JNum 200)) emptyWorld
                [Issued (FetchApi "/browse/featured-playlists" "GET" None None)]
                eq_refl eq_refl eq_refl) as [_ Hwrite].
    exact (Hwrite _ _ _ eq_refl eq_refl _ _ _ eq_refl).
Defined.

(** C1, at a failing input: on an empty cache, a compute function that
    returns a [success:false] payload has that payload written to the
    backend under the key, with the TTL, and returned. *)
Lemma getWithCache_persists_explicit_failure :
  isExplicitFailure noResults = true /\
  run (serve offline) (@_getWithCache Ascii7.runtime "cache:search" reportsFailure 3600)
      emptyWorld
  = (Ok noResults,
     setRedisData (<["cache:search" := Ascii7.JSON_stringify noResults]>) emptyWorld,
     [Issued (RedisGet "cache:search");
      Issued (RedisSet "cache:search" (Ascii7.JSON_stringify noResults) 3600)]) /\
  redisData (run (serve offline)
               (@_getWithCache Ascii7.runtime "cache:search" reportsFailure 3600)
               emptyWorld).1.2 !! "cache:search"
  = Some (Ascii7.JSON_stringify noResults).
Proof. vm_compute. repeat split. Qed.

(** The guarded helper on the same input: nothing is written. *)
Lemma getWithCache_guarded_on_explicit_failure :
  run (serve offline) (@_getWithCache_guarded Ascii7.runtime "cache:search" reportsFailure 3600)
      emptyWorld
  = (Ok noResults, emptyWorld, [Issued (RedisGet "cache:search")]).
Proof.
  apply (@getWithCache_guarded_skips_failures Ascii7.runtime (serve offline)
           "cache:search" reportsFailure 3600 emptyWorld (Ok None) emptyWorld).
  - reflexivity.
  - intros cached Heq. inversion Heq. reflexivity.
  - reflexivity.
  - reflexivity.
Qed.

(** ** Search aggregator: the catalog query *)

Lemma run_bind_inv {A B} (env : Env) (m : M A) (f : A -> M B) w r w' t :
  run env (bind m f) w = (r, w', t) ->
  (exists a w1 t1 t2,
     run env m w = (Ok a, w1, t1) /\ run env (f a) w1 = (r, w', t2) /\ t = t1 ++ t2) \/
  (exists e, run env m w = (Throw e, w', t) /\ r = Throw e).
Proof.
  rewrite run_bind. destruct (run env m w) as [[[a | e] w1] t1].
  - destruct (run env (f a) w1) as [[r2 w2] t2] eqn:Hf. intros Heq. inversion Heq; subst.
    left. exists a, w1, t1, t2. auto.
  - intros Heq. inversion Heq; subst. right. eauto.
Qed.

Lemma run_tryCatch_inv {A} (env : Env) (m : M A) (h : Exn -> M A) w r w' t :
  run env (tryCatch m h) w = (r, w', t) ->
  (exists a, run env m w = (Ok a, w', t) /\ r = Ok a) \/
  (exists e w1 t1 t2,
     run env m w = (Throw e, w1, t1) /\ run env (h e) w1 = (r, w', t2) /\ t = t1 ++ t2).
Proof.
  rewrite run_tryCatch. destruct (run env m w) as [[[a | e] w1] t1].
  - intros Heq. inversion Heq; subst. left. eauto.
  - destruct (run env (h e) w1) as [[r2 w2] t2] eqn:Hh. intros Heq. inversion Heq; subst.
    right. exists e, w1, t1, t2. auto.
Qed.

Lemma run_getWorld_inv (env : Env) w r w' t :
  run env getWorld w = (r, w', t) -> r = Ok w /\ w' = w /\ t = [].
Proof. unfold run. simpl. intros Heq. inversion Heq. auto. Qed.

Lemma run_ret_inv {A} (env : Env) (a : A) w r w' t :
  run env (ret a) w = (r, w', t) -> r = Ok a /\ w' = w /\ t = [].
Proof. unfold run. simpl. intros Heq. inversion Heq. auto. Qed.

Lemma run_throw_inv {A} (env : Env) (e : Exn) w (r : Result A) w' t :
  run env (throw e) w = (r, w', t) -> r = Throw e /\ w' = w /\ t = [].
Proof. unfold run. simpl. intros Heq. inversion Heq. auto. Qed.

Lemma run_modify_inv (env : Env) (f : World -> World) w r w' t :
  run env (modify f) w = (r, w', t) -> r = Ok tt /\ w' = f w /\ t = [].
Proof. unfold run. simpl. intros Heq. inversion Heq. auto. Qed.

(** Taking a run apart along the structure of the computation. *)
Ltac run_inv :=
  repeat match goal with
    | H : ?v = _ |- _ => is_var v; subst v
    | H : _ = ?v |- _ => is_var v; subst v
    | H : Ok _ = Ok _ |- _ => inversion H; subst; clear H
    | H : Ok _ = Throw _ |- _ => discriminate H
    | H : Throw _ = Ok _ |- _ => discriminate H
    | H : Throw _ = Throw _ |- _ => inversion H; subst; clear H
    | H : run _ getWorld _ = _ |- _ => apply run_getWorld_inv in H as (? & ? & ?); subst
    | H : run _ (ret _) _ = _ |- _ => apply run_ret_inv in H as (? & ? & ?); subst
    | H : run _ (throw _) _ = _ |- _ => apply run_throw_inv in H as (? & ? & ?); subst
    | H : run _ (modify _) _ = _ |- _ => apply run_modify_inv in H as (? & ? & ?); subst
    | H : run _ (await _) _ = _ |- _ => rewrite run_await in H; inversion H; subst; clear H
    | H : run _ (settle ?x) _ = _ |- _ => destruct x; cbn [settle] in H
    | H : run _ (responseJson ?x) _ = _ |- _ =>
        unfold responseJson in H; destruct (json_body x); cbv iota in H
    | H : run _ (responseText ?x) _ = _ |- _ =>
        unfold responseText in H; destruct (text_body x); cbv iota in H
    | H : run _ (if ?c then _ else _) _ = _ |- _ =>
        first [ progress (cbn [truthy negb andb orb] in H)
              | destruct c eqn:?; cbv iota in H ]
    | H : run _ (match ?x with Some _ => _ | None => _ end) _ = _ |- _ =>
        destruct x eqn:?; cbv iota in H
    | H : run _ (bind _ _) _ = _ |- _ =>
        apply run_bind_inv in H as [(? & ? & ? & ? & ? & H & ?) | (? & H & ?)];
        cbv beta in *
    | H : run _ (tryCatch _ _) _ = _ |- _ =>
        apply run_tryCatch_inv in H as [(? & H & ?) | (? & ? & ? & ? & ? & H & ?)];
        cbv beta in *
    end.

Lemma makeApiRequest_calls (env : Env) (endpoint : string) w r w' trace :
  run env (_makeApiRequest None endpoint "GET" None) w = (r, w', trace) ->
  (exists bearer, catalogCalls trace = [Issued (FetchApi endpoint "GET" bearer None)]) \/
  (catalogCalls trace = [] /\ exists e, r = Throw (NoTokenError e)).
Proof.
  unfold _makeApiRequest, getClientCredentialsToken. intros Hrun. run_inv;
    solve [ left; eexists; reflexivity | right; split; [reflexivity | eauto] ].
Qed.

Lemma searchMultiType_run `{JsRuntime} (env : Env) (query : string) (limit : Z) w r w' trace :
  run env (searchMultiType query limit) w = (r, w', trace) ->
  ((exists data, r = Ok (aggregate query limit data)) \/ (exists e, r = Ok (SearchFailure e))) /\
  ((exists bearer,
      catalogCalls trace = [Issued (FetchApi (searchEndpoint query limit) "GET" bearer None)]) \/
   (catalogCalls trace = [] /\ exists e, r = Ok (SearchFailure e))).
Proof.
  unfold searchMultiType. intros Hrun.
  apply run_tryCatch_inv in Hrun as [(a & Hrun & ->) | (e & w1 & t1 & t2 & Hrun & Hh & ->)].
  - apply run_bind_inv in Hrun as [(d & w1 & t1 & t2 & Hreq & Hrest & ->) | (e & _ & Habs)];
      [| discriminate].
    apply makeApiRequest_calls in Hreq as [Hcall | [_ [e He]]]; [| discriminate].
    destruct d as [data |].
    + apply run_ret_inv in Hrest as (Hr & _ & ->). inversion Hr; subst.
      rewrite app_nil_r. split; [left; eauto | left; assumption].
    + apply run_throw_inv in Hrest as (Hr & _ & _). discriminate.
  - apply run_ret_inv in Hh as (-> & _ & ->). rewrite app_nil_r.
    split; [right; eauto |].
    apply run_bind_inv in Hrun as [(d & w2 & t3 & t4 & Hreq & Hrest & ->) | (e' & Hreq & _)].
    + apply makeApiRequest_calls in Hreq as [Hcall | [_ [e' He]]]; [| discriminate].
      destruct d as [data |].
      * apply run_ret_inv in Hrest as (Hr & _ & _). discriminate.
      * apply run_throw_inv in Hrest as (_ & _ & ->). rewrite app_nil_r. left; assumption.
    + apply makeApiRequest_calls in Hreq as [Hcall | [Hnone _]];
        [left; assumption | right; eauto].
Qed.

(** C2, as the code has it. [searchMultiType] sends at most one catalog
    request, and exactly one whenever it goes on to rank a response; that
    request asks for the four categories with the per-category limit
    [min(limit, 50)], which never exceeds 50 and is the caller's [limit]
    itself whenever that is at most 50. *)
Theorem searchMultiType_fetch_limit (rt : JsRuntime) (env : Env) (query : string) (limit : Z)
    w r w' trace :
  run env (searchMultiType query limit) w = (r, w', trace) ->
  (length (catalogCalls trace) <= 1)%nat /\
  (forall e, e ∈ catalogCalls trace ->
     exists bearer,
       e = Issued (FetchApi
                     ("/search?q=" +:+ encodeURIComponent query +:+
                      "&type=track,artist,album,playlist&market=IT&limit=" +:+
                      pretty (searchLimit limit))
                     "GET" bearer None)) /\
  ((exists data, r = Ok (aggregate query limit data)) ->
     length (catalogCalls trace) = 1%nat) /\
  searchLimit limit = Z.min limit 50 /\
  searchLimit limit <= 50 /\
  (limit <= 50 -> searchLimit limit = limit).
Proof.
  intros Hrun.
  destruct (searchMultiType_run env query limit w r w' trace Hrun)
    as [_ [[bearer Hcall] | [Hnone [e ->]]]].
  - rewrite Hcall. unfold searchLimit. repeat split; simpl; try lia.
    intros e He. apply list_elem_of_singleton in He. subst. exists bearer. reflexivity.
  - rewrite Hnone. unfold searchLimit. repeat split; simpl; try lia.
    + intros e0 He. inversion He.
    + intros [data Hdata]. discriminate.
Qed.

(** C2, refuted as stated: the fetch limit follows the caller's limit. *)
Lemma searchMultiType_limit_reaches_query :
  searchLimit 10 = 10 /\ searchLimit 20 = 20 /\ searchLimit 10 <> searchLimit 20 /\
  @searchEndpoint Ascii7.runtime "Queen" 10
    = "/search?q=Queen&type=track,artist,album,playlist&market=IT&limit=10" /\
  @searchEndpoint Ascii7.runtime "Queen" 20
    = "/search?q=Queen&type=track,artist,album,playlist&market=IT&limit=20".
Proof. repeat split; try reflexivity. discriminate. Qed.

(** ** Search aggregator: scoring *)

Lemma fold_left_add {A} (f : A -> Z) (l : list A) (score : Z) :
  fold_left (fun score x => score + f x) l score = score + sumZ (map f l).
Proof.
  revert score. induction l as [| x l IH]; intros score; simpl.
  - lia.
  - rewrite IH. unfold sumZ. simpl. lia.
Qed.

















(** ** Search aggregator: track deduplication *)

Lemma filter_none {A} (P : A -> Prop) `{forall x, Decision (P x)} (l : list A) :
  (forall x, x ∈ l -> ~ P x) -> filter P l = [].
Proof.
  induction l as [| x l IH]; intros Hall; [reflexivity |].
  rewrite filter_cons, decide_False by (apply Hall, elem_of_cons; auto).
  apply IH. intros y Hy. apply Hall, elem_of_cons. auto.
Qed.

Lemma groupPush_keys key t groups :
  (groupPush key t groups).*1 =
  if decide (key ∈ (groups.*1)) then (groups.*1) else (groups.*1) ++ [key].
Proof.
  induction groups as [| [k g] rest IH].
  - simpl. destruct (decide (key ∈ [])) as [Hin | _]; [inversion Hin | reflexivity].
  - cbn [groupPush]. destruct (String.eqb_spec k key) as [-> | Hne].
    + rewrite decide_True by (rewrite fmap_cons; apply elem_of_cons; auto). reflexivity.
    + rewrite !fmap_cons, IH. cbn [fst]. destruct (decide (key ∈ (rest.*1))) as [Hin | Hnin].
      * rewrite decide_True by (apply elem_of_cons; auto). reflexivity.
      * rewrite decide_False; [reflexivity |].
        intros Hin. apply elem_of_cons in Hin as [-> | Hin]; contradiction.
Qed.

Lemma elem_of_groupPush key t groups k g :
  NoDup (groups.*1) ->
  (k, g) ∈ (groupPush key t groups) ->
  (k <> key /\ (k, g) ∈ groups) \/
  (k = key /\ ((exists g0, (key, g0) ∈ groups /\ g = g0 ++ [t]) \/
               ((key ∉ (groups.*1)) /\ g = [t]))).
Proof.
  induction groups as [| [k0 g0] rest IH]; simpl; intros Hnd Hin.
  - apply list_elem_of_singleton in Hin. inversion Hin; subst.
    right. split; [reflexivity |]. right. split; [apply not_elem_of_nil | reflexivity].
  - apply NoDup_cons in Hnd as [Hk0 Hnd].
    destruct (String.eqb_spec k0 key) as [-> | Hne].
    + apply elem_of_cons in Hin as [Heq | Hin].
      * inversion Heq; subst. right. split; [reflexivity |]. left.
        exists g0. split; [apply elem_of_cons; auto | reflexivity].
      * left. split; [| apply elem_of_cons; auto].
        intros ->. apply Hk0. apply list_elem_of_fmap. exists (key, g). auto.
    + apply elem_of_cons in Hin as [Heq | Hin].
      * inversion Heq; subst. left. split; [assumption | apply elem_of_cons; auto].
      * destruct (IH Hnd Hin) as [[Hk Hg] | [-> [[g1 [Hg1 ->]] | [Hnew ->]]]].
        -- left. split; [assumption | apply elem_of_cons; auto].
        -- right. split; [reflexivity |]. left. exists g1.
           split; [apply elem_of_cons; auto | reflexivity].
        -- right. split; [reflexivity |]. right. split; [| reflexivity].
           intros Hin'. apply elem_of_cons in Hin' as [Heq | Hin']; [| contradiction].
           simpl in Heq. congruence.
Qed.

Lemma betterTrack_cases prev current :
  (betterTrack prev current = current /\
   (track_popularity prev < track_popularity current \/
    (track_popularity prev = track_popularity current /\
     offStandard current < offStandard prev))) \/
  (betterTrack prev current = prev /\
   (track_popularity current < track_popularity prev \/
    (track_popularity prev = track_popularity current /\
     offStandard prev <= offStandard current))).
Proof.
  unfold betterTrack, offStandard.
  destruct (Z.ltb_spec (track_popularity prev) (track_popularity current)); [left; auto |].
  destruct (Z.eqb_spec (track_popularity current) (track_popularity prev)); simpl.
  - destruct (Z.ltb_spec (Z.abs (duration_ms current - 210000))
                         (Z.abs (duration_ms prev - 210000))).
    + left. split; [reflexivity |]. right. split; [lia | assumption].
    + right. split; [reflexivity |]. right. split; [lia | assumption].
  - right. split; [reflexivity |]. left. lia.
Qed.

Lemma reduce_representative (rest : list RawTrack) (first : RawTrack) (seen : list RawTrack) :
  representative first seen ->
  representative (fold_left betterTrack rest first) (seen ++ rest).
Proof.
  revert first seen. induction rest as [| current rest IH]; intros first seen Hrep; simpl.
  - rewrite app_nil_r. assumption.
  - replace (seen ++ current :: rest) with ((seen ++ [current]) ++ rest)
      by (rewrite <- app_assoc; reflexivity).
    apply IH. destruct Hrep as (Hin & Hpop & Htie).
    destruct (betterTrack_cases first current) as [[-> Hwhy] | [-> Hwhy]]; repeat split.
    + apply elem_of_app. right. apply list_elem_of_singleton. reflexivity.
    + intros t Ht. apply elem_of_app in Ht as [Ht | Ht].
      * specialize (Hpop t Ht). lia.
      * apply list_elem_of_singleton in Ht. subst. lia.
    + intros t Ht Heq. apply elem_of_app in Ht as [Ht | Ht].
      * specialize (Hpop t Ht). destruct Hwhy as [Hlt | [Hsame Hcloser]]; [lia |].
        assert (Hteq : track_popularity t = track_popularity first) by lia.
        specialize (Htie t Ht Hteq). lia.
      * apply list_elem_of_singleton in Ht. subst. lia.
    + apply elem_of_app. left. assumption.
    + intros t Ht. apply elem_of_app in Ht as [Ht | Ht].
      * apply Hpop. assumption.
      * apply list_elem_of_singleton in Ht. subst. lia.
    + intros t Ht Heq. apply elem_of_app in Ht as [Ht | Ht].
      * apply Htie; assumption.
      * apply list_elem_of_singleton in Ht. subst. lia.
Qed.

Lemma bestTrack_representative (group : list RawTrack) :
  group <> [] -> exists best, bestTrack group = Some best /\ representative best group.
Proof.
  destruct group as [| first rest]; [congruence |]. intros _.
  exists (fold_left betterTrack rest first). split; [reflexivity |].
  apply (reduce_representative rest first [first]).
  repeat split.
  - apply list_elem_of_singleton. reflexivity.
  - intros t Ht. apply list_elem_of_singleton in Ht. subst. lia.
  - intros t Ht _. apply list_elem_of_singleton in Ht. subst. lia.
Qed.

Section Dedup.
Context `{JsRuntime}.

Lemma grouped_push groups hits t :
  grouped groups hits -> grouped (groupPush (trackKey t) t groups) (hits ++ [t]).
Proof.
  intros (Hnd & Hgroups & Hkeys). repeat split.
  - rewrite groupPush_keys. destruct (decide (trackKey t ∈ (groups.*1))); [assumption |].
    apply NoDup_app. repeat split; [assumption | | apply NoDup_singleton].
    intros k Hk Hk'. apply list_elem_of_singleton in Hk'. subst. contradiction.
  - apply elem_of_groupPush in H0 as [[Hk Hg] | [-> [[g0 [Hg0 ->]] | [Hnew ->]]]];
      [| | | assumption].
    + rewrite filter_app. simpl. rewrite filter_cons, decide_False by congruence.
      rewrite filter_nil, app_nil_r. apply Hgroups. assumption.
    + rewrite filter_app, filter_cons, decide_True by reflexivity.
      rewrite filter_nil. f_equal. apply Hgroups. assumption.
    + rewrite filter_app, filter_cons, decide_True by reflexivity. rewrite filter_nil.
      replace (filter (fun t0 => trackKey t0 = trackKey t) hits) with (@nil RawTrack);
        [reflexivity |].
      symmetry. apply filter_none.
      intros t0 Ht0 Heq. apply Hnew. rewrite <- Heq. apply Hkeys. assumption.
  - apply elem_of_groupPush in H0 as [[Hk Hg] | [-> [[g0 [Hg0 ->]] | [Hnew ->]]]];
      [| | | assumption].
    + apply (Hgroups k g Hg).
    + intros Habs. apply app_eq_nil in Habs as [_ Habs]. discriminate.
    + discriminate.
  - intros t0 Ht0. rewrite groupPush_keys.
    apply elem_of_app in Ht0 as [Ht0 | Ht0].
    + destruct (decide (trackKey t ∈ (groups.*1))); [auto |].
      apply elem_of_app. left. auto.
    + apply list_elem_of_singleton in Ht0. subst.
      destruct (decide (trackKey t ∈ (groups.*1))); [assumption |].
      apply elem_of_app. right. apply list_elem_of_singleton. reflexivity.
Qed.

Lemma groupTracks_snoc hits t :
  groupTracks (hits ++ [t]) = groupPush (trackKey t) t (groupTracks hits).
Proof. unfold groupTracks. rewrite fold_left_app. reflexivity. Qed.

Lemma groupTracks_grouped hits : grouped (groupTracks hits) hits.
Proof.
  induction hits as [| t hits IH] using rev_ind.
  - repeat split.
    + apply NoDup_nil_2.
    + inversion H0.
    + inversion H0.
    + intros t Ht. inversion Ht.
  - rewrite groupTracks_snoc. apply grouped_push. assumption.
Qed.
Lemma dedupTracks_representatives hits :
  Forall2 (fun group best => bestTrack group.2 = Some best) (groupTracks hits) (dedupTracks hits).
Proof.
  unfold dedupTracks.
  destruct (groupTracks_grouped hits) as (_ & Hgroups & _).
  induction (groupTracks hits) as [| [k g] rest IH]; simpl; [constructor |].
  destruct (bestTrack_representative g) as (best & Hbest & _).
  { apply (Hgroups k g). apply elem_of_cons. auto. }
  rewrite Hbest. constructor; [assumption |].
  apply IH. intros k' g' Hin. apply Hgroups. apply elem_of_cons. auto.
Qed.
End Dedup.

(** ** JavaScript numbers: rounding keeps the sign *)

Lemma scaled_pos (a b e : Z) :
  0 < a -> 0 < b -> 0 < (Double.scaled a b e).1 /\ 0 < (Double.scaled a b e).2.
Proof.
  intros Ha Hb. unfold Double.scaled. simpl.
  assert (0 < 2 ^ Z.max 0 (- e)) by (apply Z.pow_pos_nonneg; lia).
  assert (0 < 2 ^ Z.max 0 e) by (apply Z.pow_pos_nonneg; lia).
  split; nia.
Qed.

Lemma scaled_le (a b e : Z) :
  0 < a -> 0 < b -> e <= Z.log2 a - Z.log2 b - 1 ->
  (Double.scaled a b e).2 <= (Double.scaled a b e).1.
Proof.
  intros Ha Hb He. unfold Double.scaled. simpl.
  destruct (Z.log2_spec a Ha) as [Hla _].
  destruct (Z.log2_spec b Hb) as [_ Hlb].
  pose proof (Z.log2_nonneg a) as Hna. pose proof (Z.log2_nonneg b) as Hnb.
  destruct (Z.le_gt_cases 0 e) as [Hpos | Hneg].
  - rewrite (Z.max_r 0 e), (Z.max_l 0 (- e)) by lia. rewrite Z.pow_0_r, Z.mul_1_r.
    apply Z.le_trans with (2 ^ Z.log2 a); [| assumption].
    apply Z.le_trans with (2 ^ Z.succ (Z.log2 b) * 2 ^ e).
    + apply Z.mul_le_mono_nonneg_r; [apply Z.pow_nonneg; lia | lia].
    + rewrite <- Z.pow_add_r by lia. apply Z.pow_le_mono_r; lia.
  - rewrite (Z.max_l 0 e), (Z.max_r 0 (- e)) by lia. rewrite Z.pow_0_r, Z.mul_1_r.
    apply Z.le_trans with (2 ^ Z.succ (Z.log2 b)); [lia |].
    apply Z.le_trans with (2 ^ Z.log2 a * 2 ^ (- e)).
    + rewrite <- Z.pow_add_r by lia. apply Z.pow_le_mono_r; lia.
    + apply Z.mul_le_mono_nonneg_r; [apply Z.pow_nonneg; lia | lia].
Qed.

Lemma exponent_le (a b : Z) : Double.exponent a b <= Z.log2 a - Z.log2 b - 52.
Proof.
  unfold Double.exponent.
  destruct (Double.scaled a b (Z.log2 a - Z.log2 b - 52)) as [n d].
  destruct (2 ^ 52 * d <=? n); lia.
Qed.

Lemma nearestEven_pos (n d : Z) : 0 < d -> d <= n -> 0 < Double.nearestEven n d.
Proof.
  intros Hd Hn. unfold Double.nearestEven.
  assert (0 < n / d) by (apply Z.div_str_pos; lia).
  destruct (2 * (n mod d) <? d); [lia |].
  destruct (d <? 2 * (n mod d)); [lia |].
  destruct (Z.even (n / d)); lia.
Qed.

Lemma power2_sgn (m e : Z) : Z.sgn (Qnum (Double.power2 m e)) = Z.sgn m.
Proof.
  unfold Double.power2. destruct (0 <=? e) eqn:He; simpl; [| reflexivity].
  apply Z.leb_le in He.
  assert (0 < 2 ^ e) by (apply Z.pow_pos_nonneg; lia).
  rewrite Z.sgn_mul. rewrite (Z.sgn_pos (2 ^ e)) by assumption. lia.
Qed.

Lemma round_sgn (x : Q) : Z.sgn (Qnum (Double.round x)) = Z.sgn (Qnum x).
Proof.
  unfold Double.round.
  destruct (Z.eqb_spec (Z.abs (Qnum x)) 0) as [Hzero | Hnz].
  - simpl. assert (Qnum x = 0) by lia. rewrite H. reflexivity.
  - set (a := Z.abs (Qnum x)). set (b := Z.pos (Qden x)).
    assert (Ha : 0 < a) by (unfold a; lia). assert (Hb : 0 < b) by (unfold b; lia).
    pose proof (exponent_le a b) as He.
    pose proof (scaled_pos a b (Double.exponent a b) Ha Hb) as [_ Hd].
    pose proof (scaled_le a b (Double.exponent a b) Ha Hb ltac:(lia)) as Hle.
    destruct (Double.scaled a b (Double.exponent a b)) as [n d]. simpl in Hd, Hle.
    rewrite power2_sgn, Z.sgn_mul.
    rewrite (Z.sgn_pos (Double.nearestEven n d)) by (apply nearestEven_pos; assumption).
    rewrite Z.sgn_sgn. lia.
Qed.

Lemma round_nonpos (x : Q) : Qle_bool (Double.round x) 0 = Qle_bool x 0.
Proof.
  unfold Qle_bool. simpl. rewrite !Z.mul_1_r.
  pose proof (round_sgn x) as Hs.
  destruct (Z.leb_spec (Qnum (Double.round x)) 0), (Z.leb_spec (Qnum x) 0); try reflexivity; lia.
Qed.

Lemma Double_sub_nonpos (x y : Q) : Qle_bool (Double.sub x y) 0 = true <-> (x <= y)%Q.
Proof.
  unfold Double.sub. rewrite round_nonpos, Qle_bool_iff. split; intros Hle; lra.
Qed.

(** The operations agree with the Standard Library's binary64 on the
    numbers of the examples below: 0.2 and 0.3, 51 * 0.2, 3 + 51 * 0.2 and
    0.1 + 0.2. *)
Example double_agrees_with_binary64 :
  ofSpecFloat (SFdiv 53 1024 (binary64 2) (binary64 10)) = Some (Double.literal 0.2) /\
  ofSpecFloat (SFdiv 53 1024 (binary64 3) (binary64 10)) = Some (Double.literal 0.3) /\
  ofSpecFloat (SFmul 53 1024 (binary64 51) (SFdiv 53 1024 (binary64 2) (binary64 10)))
    = Some (Double.mul 51 (Double.literal 0.2)) /\
  ofSpecFloat (SFadd 53 1024 (binary64 3)
                 (SFmul 53 1024 (binary64 51) (SFdiv 53 1024 (binary64 2) (binary64 10))))
    = Some (Double.add 3 (Double.mul 51 (Double.literal 0.2))) /\
  ofSpecFloat (SFadd 53 1024 (SFdiv 53 1024 (binary64 1) (binary64 10))
                 (SFdiv 53 1024 (binary64 2) (binary64 10)))
    = Some (Double.add (Double.literal 0.1) (Double.literal 0.2)) /\
  (Double.add (Double.literal 0.1) (Double.literal 0.2) == 5404319552844596 # 18014398509481984)%Q.
Proof. vm_compute. repeat split. Qed.

Example double_agrees_on_samples :
  forallb sameOnChain
    [(200000, 1000);
     (50008, 1000);
     (150000, 1000);
     (1, 1000);
     (61, 5);
     (11, 5);
     (-7, 3);
     (123456789, 1000);
     (293482, 1000);
     (268388, 7);
     (-916398047390, -12);
     (-405229859528, 16);
     (-34877002865, 10);
     (-236899971603, 3);
     (910898090719, -583);
     (-86938770750, 7);
     (56585, 36272003);
     (436334, 3);
     (-224929778431, 10);
     (-302518, 138);
     (-874395, 3);
     (99974, 3);
     (85901368462, 1000);
     (-607188, 10);
     (-979920, 7);
     (534159392654, 1038790516);
     (204963, 1000);
     (-402911738168, -37);
     (1025991192591, 81);
     (-50443623581, 3);
     (191087387851, 1000);
     (251292, -60)] = true.
Proof. vm_compute. reflexivity. Qed.

(** ** Search aggregator: the combined list *)

Lemma insertBy_Permutation {A} (cmp : A -> A -> Q) (x : A) (l : list A) :
  Permutation (insertBy cmp x l) (x :: l).
Proof.
  induction l as [| y rest IH]; simpl; [reflexivity |].
  destruct (Qle_bool (cmp x y) 0); [reflexivity |].
  rewrite IH. apply perm_swap.
Qed.

Lemma sortBy_Permutation {A} (cmp : A -> A -> Q) (l : list A) :
  Permutation (sortBy cmp l) l.
Proof.
  induction l as [| x rest IH]; simpl; [reflexivity |].
  rewrite insertBy_Permutation, IH. reflexivity.
Qed.

Lemma compareRelevance_le (x y : Item) :
  Qle_bool (compareRelevance x y) 0 = true <-> (relevance y <= relevance x)%Q.
Proof. unfold compareRelevance. apply Double_sub_nonpos. Qed.

Lemma insertBy_descending (x : Item) (l : list Item) :
  descending l -> descending (insertBy compareRelevance x l).
Proof.
  unfold descending. induction l as [| y rest IH]; intros Hsorted; simpl.
  - repeat constructor.
  - apply StronglySorted_inv in Hsorted as [Hrest Hy].
    destruct (Qle_bool (compareRelevance x y) 0) eqn:Hle.
    + apply compareRelevance_le in Hle.
      constructor; [constructor; assumption |].
      constructor; [assumption |].
      eapply Forall_impl; [exact Hy |]. intros z Hz. simpl in Hz. lra.
    + assert (Hxy : (relevance x <= relevance y)%Q).
      { destruct (Qlt_le_dec (relevance y) (relevance x)) as [Hlt | Hge]; [| assumption].
        exfalso. assert (Htrue : Qle_bool (compareRelevance x y) 0 = true).
        { apply compareRelevance_le. lra. }
        congruence. }
      constructor; [apply IH; assumption |].
      eapply Permutation_Forall; [symmetry; apply insertBy_Permutation |].
      constructor; assumption.
Qed.

Lemma sortBy_descending (l : list Item) : descending (sortBy compareRelevance l).
Proof.
  induction l as [| x rest IH]; simpl.
  - constructor.
  - apply insertBy_descending. assumption.
Qed.

Lemma take_descending (n : nat) (l : list Item) : descending l -> descending (take n l).
Proof.
  unfold descending. revert n. induction l as [| x rest IH]; intros [| n] Hsorted; simpl;
    try constructor.
  - apply IH. apply StronglySorted_inv in Hsorted. tauto.
  - apply StronglySorted_inv in Hsorted as [_ Hx].
    apply Forall_take. assumption.
Qed.

Lemma slice0_take {A} (l : list A) (e : Z) : exists n, slice0 l e = take n l.
Proof. unfold slice0. destruct (e <? 0); eauto. Qed.

Lemma maxPerCategory_eq (limit : Z) : maxPerCategory limit = - ((- limit) / 4).
Proof.
  unfold maxPerCategory, Qceiling, Qfloor. simpl.
  rewrite Z.mul_1_r. reflexivity.
Qed.

Lemma maxPerCategory_negative (limit : Z) : limit < 0 -> Z.to_nat (maxPerCategory limit) = 0%nat.
Proof.
  intros Hneg. rewrite maxPerCategory_eq.
  assert (0 <= (- limit) / 4) by (apply Z.div_pos; lia). lia.
Qed.

Lemma pushIfPresent_app (l : list Item) (i : nat) (allResults : list Item) :
  pushIfPresent l i allResults = allResults ++ option_list (l !! i).
Proof.
  unfold pushIfPresent. destruct (l !! i); simpl; [reflexivity | rewrite app_nil_r; reflexivity].
Qed.

Lemma interleave_rounds (results : ByType) (m : Z) :
  interleave results m = flat_map (roundOf results) (seq 0 (Z.to_nat m)).
Proof.
  unfold interleave.
  assert (Hgen : forall rounds acc,
    fold_left
      (fun allResults i =>
         pushIfPresent (playlists results) i
           (pushIfPresent (albums results) i
              (pushIfPresent (artists results) i
                 (pushIfPresent (tracks results) i allResults))))
      rounds acc
    = acc ++ flat_map (roundOf results) rounds).
  { induction rounds as [| i rounds IH]; intros acc; simpl.
    - rewrite app_nil_r. reflexivity.
    - rewrite IH, !pushIfPresent_app. unfold roundOf. rewrite <- !app_assoc. reflexivity. }
  apply (Hgen _ []).
Qed.

Lemma take_S_lookup {A} (l : list A) (n : nat) :
  take (S n) l = take n l ++ option_list (l !! n).
Proof.
  revert n. induction l as [| x rest IH]; intros [| n]; simpl; try reflexivity.
  rewrite IH. reflexivity.
Qed.

Lemma rounds_Permutation (results : ByType) (n : nat) :
  Permutation (flat_map (roundOf results) (seq 0 n))
    (take n (tracks results) ++ take n (artists results) ++
     take n (albums results) ++ take n (playlists results)).
Proof.
  induction n as [| n IH].
  - simpl. rewrite !take_0. reflexivity.
  - rewrite seq_S, flat_map_app, IH. simpl. rewrite app_nil_r.
    rewrite !take_S_lookup. unfold roundOf.
    generalize (take n (tracks results)) (take n (artists results))
               (take n (albums results)) (take n (playlists results))
               (option_list (tracks results !! n)) (option_list (artists results !! n))
               (option_list (albums results !! n)) (option_list (playlists results !! n)).
    intros A B C D a b c d. solve_Permutation.
Qed.

Lemma ofCategory_take_le (c : Category) (n : nat) (l : list Item) :
  (length (ofCategory c (take n l)) <= n)%nat.
Proof.
  unfold ofCategory. etransitivity; [apply length_filter |].
  rewrite length_take. lia.
Qed.

Lemma ofCategory_other (c c' : Category) (l : list Item) :
  Forall (fun i => type i = c') l -> c <> c' -> ofCategory c l = [].
Proof.
  intros Hall Hne. unfold ofCategory. apply filter_none.
  intros i Hi Heq. rewrite Forall_forall in Hall. specialize (Hall i Hi). congruence.
Qed.

Lemma ofCategory_prefix (c : Category) (n : nat) (l : list Item) :
  (length (ofCategory c (take n l)) <= length (ofCategory c l))%nat.
Proof.
  unfold ofCategory. rewrite <- (take_drop n l) at 2. rewrite filter_app, length_app. lia.
Qed.

Section Combined.
Context `{JsRuntime}.

Lemma sortCategories_typed (queryLower : string) (data : SearchData) :
  let results := sortCategories (collect queryLower data) in
  Forall (fun i => type i = track) (tracks results) /\
  Forall (fun i => type i = artist) (artists results) /\
  Forall (fun i => type i = album) (albums results) /\
  Forall (fun i => type i = playlist) (playlists results).
Proof.
  simpl. repeat split;
    (eapply Permutation_Forall; [symmetry; apply sortBy_Permutation |]);
    apply Forall_forall; intros i Hi; apply list_elem_of_fmap in Hi as (raw & -> & _);
    reflexivity.
Qed.

Lemma interleave_category (c : Category) (queryLower : string) (data : SearchData) (m : Z) :
  (length (ofCategory c (interleave (sortCategories (collect queryLower data)) m))
   <= Z.to_nat m)%nat.
Proof.
  destruct (sortCategories_typed queryLower data) as (Ht & Ha & Hb & Hp).
  set (results := sortCategories (collect queryLower data)) in *.
  rewrite interleave_rounds.
  unfold ofCategory.
  rewrite (Permutation_length
             (filter_Permutation _ _ _ (rounds_Permutation results (Z.to_nat m)))).
  fold (ofCategory c (take (Z.to_nat m) (tracks results) ++
                      take (Z.to_nat m) (artists results) ++
                      take (Z.to_nat m) (albums results) ++
                      take (Z.to_nat m) (playlists results))).
  unfold ofCategory. rewrite !filter_app, !length_app.
  fold (ofCategory c (take (Z.to_nat m) (tracks results))).
  fold (ofCategory c (take (Z.to_nat m) (artists results))).
  fold (ofCategory c (take (Z.to_nat m) (albums results))).
  fold (ofCategory c (take (Z.to_nat m) (playlists results))).
  pose proof (ofCategory_take_le c (Z.to_nat m) (tracks results)).
  pose proof (ofCategory_take_le c (Z.to_nat m) (artists results)).
  pose proof (ofCategory_take_le c (Z.to_nat m) (albums results)).
  pose proof (ofCategory_take_le c (Z.to_nat m) (playlists results)).
  assert (Htake : forall c' l, Forall (fun i => type i = c') l -> c <> c' ->
                    length (ofCategory c (take (Z.to_nat m) l)) = 0%nat).
  { intros c' l Hall Hne. rewrite (ofCategory_other c c'); [reflexivity | | assumption].
    apply Forall_take. assumption. }
  pose proof (fun Hne => Htake track (tracks results) Ht Hne) as Z1.
  pose proof (fun Hne => Htake artist (artists results) Ha Hne) as Z2.
  pose proof (fun Hne => Htake album (albums results) Hb Hne) as Z3.
  pose proof (fun Hne => Htake playlist (playlists results) Hp Hne) as Z4.
  destruct c.
  - rewrite Z2, Z3, Z4 by discriminate. lia.
  - rewrite Z1, Z3, Z4 by discriminate. lia.
  - rewrite Z1, Z2, Z4 by discriminate. lia.
  - rewrite Z1, Z2, Z3 by discriminate. lia.
Qed.

Lemma slice0_nonneg {A} (l : list A) (e : Z) :
  (e < 0 -> l = []) -> slice0 l e = take (Z.to_nat e) l.
Proof.
  intros Hneg. unfold slice0. destruct (Z.ltb_spec e 0) as [He | He]; [| reflexivity].
  rewrite (Hneg He), !take_nil. reflexivity.
Qed.

Lemma descending_app (l1 l2 : list Item) :
  descending (l1 ++ l2) ->
  forall kept d, kept ∈ l1 -> d ∈ l2 -> (relevance d <= relevance kept)%Q.
Proof.
  unfold descending. induction l1 as [| x l1 IH]; intros Hsorted kept d Hkept Hd.
  - inversion Hkept.
  - simpl in Hsorted. apply StronglySorted_inv in Hsorted as [Hrest Hall].
    apply elem_of_cons in Hkept as [-> | Hkept].
    + rewrite Forall_forall in Hall. apply Hall. apply elem_of_app. right. assumption.
    + eapply IH; eassumption.
Qed.

(** C8. When [searchMultiType] answers with results: the round robin takes,
    for [i] below [ceil(limit/4)], the [i]-th track, artist, album and
    playlist of the category lists, so it holds the first [ceil(limit/4)]
    items of each category; the combined list is the first [limit] items
    of the round robin sorted by the relevance comparator, a list in
    descending order of relevance; what is cut off is no more relevant
    than what is kept; the combined list has [min(limit, n)] elements for a
    round robin of [n] items, is in descending order of relevance, and has
    at most [ceil(limit/4)] items of each category. *)
Theorem searchMultiType_combined (env : Env) (query : string) (limit : Z) w w' trace
    results by_type total_found :
  run env (searchMultiType query limit) w
    = (Ok (SearchSuccess results by_type total_found), w', trace) ->
  let m := Z.to_nat (maxPerCategory limit) in
  let rounds := flat_map (roundOf by_type) (seq 0 m) in
  let sorted := sortBy compareRelevance rounds in
  Permutation rounds
    (take m (tracks by_type) ++ take m (artists by_type) ++
     take m (albums by_type) ++ take m (playlists by_type)) /\
  Permutation sorted rounds /\ descending sorted /\
  results = take (Z.to_nat limit) sorted /\
  (exists dropped,
     sorted = results ++ dropped /\
     forall kept d, kept ∈ results -> d ∈ dropped -> (relevance d <= relevance kept)%Q) /\
  length results = Nat.min (Z.to_nat limit) (length rounds) /\
  descending results /\
  (forall c, (length (ofCategory c results) <= m)%nat).
Proof.
  intros Hrun m rounds sorted.
  destruct (searchMultiType_run env query limit w _ _ _ Hrun) as [[[data Hdata] | [e He]] _];
    [| discriminate].
  unfold aggregate in Hdata. injection Hdata as Hres Hby _.
  rewrite <- Hby in Hres. rewrite interleave_rounds in Hres. fold m rounds sorted in Hres.
  assert (Hcut : results = take (Z.to_nat limit) sorted).
  { rewrite Hres. apply slice0_nonneg. intros Hneg.
    unfold sorted, rounds, m. rewrite (maxPerCategory_negative limit Hneg). reflexivity. }
  assert (Hsorted : descending sorted) by apply sortBy_descending.
  split; [apply rounds_Permutation |].
  split; [apply sortBy_Permutation |].
  split; [exact Hsorted |].
  split; [exact Hcut |].
  split; [| split; [| split]].
  - exists (drop (Z.to_nat limit) sorted). split.
    + rewrite Hcut. symmetry. apply take_drop.
    + intros kept d Hkept Hd. rewrite Hcut in Hkept.
      rewrite <- (take_drop (Z.to_nat limit) sorted) in Hsorted.
      exact (descending_app _ _ Hsorted kept d Hkept Hd).
  - rewrite Hcut, length_take. unfold sorted.
    rewrite (Permutation_length (sortBy_Permutation compareRelevance rounds)). reflexivity.
  - rewrite Hcut. apply take_descending. exact Hsorted.
  - intros c. rewrite Hcut.
    etransitivity; [apply ofCategory_prefix |].
    unfold ofCategory, sorted.
    rewrite (Permutation_length (filter_Permutation _ _ _ (sortBy_Permutation _ _))).
    unfold rounds, m. rewrite <- interleave_rounds, Hby. apply interleave_category.
Qed.
End Combined.

Lemma searchMultiType_combined_witness :
  (exists results by_type total_found w' trace,
     run (serve queenCatalog) (@searchMultiType Ascii7.runtime "Queen" 8) emptyWorld
       = (Ok (SearchSuccess results by_type total_found), w', trace) /\
     maxPerCategory 8 = 2 /\
     length results = 8%nat /\
     descending results /\
     (forall c, (length (ofCategory c results) <= 2)%nat)) /\
  (exists results by_type total_found w' trace dropped,
     run (serve queenCatalog) (@searchMultiType Ascii7.runtime "Queen" 6) emptyWorld
       = (Ok (SearchSuccess results by_type total_found), w', trace) /\
     maxPerCategory 6 = 2 /\
     length (flat_map (roundOf by_type) (seq 0 2)) = 8%nat /\
     length results = 6%nat /\ length dropped = 2%nat /\
     sortBy compareRelevance (flat_map (roundOf by_type) (seq 0 2)) = results ++ dropped /\
     (forall kept d, kept ∈ results -> d ∈ dropped -> (relevance d <= relevance kept)%Q)).
Proof.
  split.
  - destruct (run (serve queenCatalog) (@searchMultiType Ascii7.runtime "Queen" 8) emptyWorld)
      as [[r w'] trace] eqn:Hrun.
    assert (Hshape : exists results by_type total_found,
              r = Ok (SearchSuccess results by_type total_found) /\
              length (flat_map (roundOf by_type) (seq 0 2)) = 8%nat).
    { pose proof Hrun as Hvalue. vm_compute in Hvalue. injection Hvalue as Hr _ _.
      rewrite <- Hr. do 3 eexists. split; reflexivity. }
    destruct Hshape as (results & by_type & total_found & -> & Hrounds).
    exists results, by_type, total_found, w', trace.
    destruct (@searchMultiType_combined Ascii7.runtime (serve queenCatalog) "Queen" 8
                emptyWorld w' trace results by_type total_found Hrun)
      as (_ & _ & _ & _ & _ & Hlen & Hdesc & Hcat).
    split; [reflexivity |]. split; [reflexivity |].
    split; [rewrite Hlen; change (Z.to_nat (maxPerCategory 8)) with 2%nat; rewrite Hrounds;
            reflexivity |].
    split; [exact Hdesc | exact Hcat].
  - destruct (run (serve queenCatalog) (@searchMultiType Ascii7.runtime "Queen" 6) emptyWorld)
      as [[r w'] trace] eqn:Hrun.
    assert (Hshape : exists results by_type total_found,
              r = Ok (SearchSuccess results by_type total_found) /\
              length (flat_map (roundOf by_type) (seq 0 2)) = 8%nat).
    { pose proof Hrun as Hvalue. vm_compute in Hvalue. injection Hvalue as Hr _ _.
      rewrite <- Hr. do 3 eexists. split; reflexivity. }
    destruct Hshape as (results & by_type & total_found & -> & Hrounds).
    destruct (@searchMultiType_combined Ascii7.runtime (serve queenCatalog) "Queen" 6
                emptyWorld w' trace results by_type total_found Hrun)
      as (_ & Hperm & _ & _ & (dropped & Hsplit & Hless) & Hlen & _ & _).
    change (Z.to_nat (maxPerCategory 6)) with 2%nat in Hperm, Hsplit, Hlen.
    change (Z.to_nat 6) with 6%nat in Hlen. rewrite Hrounds in Hlen.
    exists results, by_type, total_found, w', trace, dropped.
    split; [reflexivity |]. split; [reflexivity |]. split; [exact Hrounds |].
    split; [exact Hlen |]. split; [| split; [exact Hsplit | exact Hless]].
    apply Permutation_length in Hperm. rewrite Hsplit, length_app, Hrounds, Hlen in Hperm. lia.
Defined.

Lemma searchMultiType_fetch_limit_witness :
  exists r w' trace,
    run (serve queenCatalog) (@searchMultiType Ascii7.runtime "Queen" 8) emptyWorld
      = (r, w', trace) /\
    length (catalogCalls trace) = 1%nat /\
    (forall e, e ∈ catalogCalls trace ->
       exists bearer,
         e = Issued (FetchApi
                       "/search?q=Queen&type=track,artist,album,playlist&market=IT&limit=8"
                       "GET" bearer None)).
Proof.
  destruct (run (serve queenCatalog) (@searchMultiType Ascii7.runtime "Queen" 8) emptyWorld)
    as [[r w'] trace] eqn:Hrun.
  exists r, w', trace. split; [reflexivity |].
  destruct (searchMultiType_fetch_limit Ascii7.runtime (serve queenCatalog) "Queen" 8
              emptyWorld r w' trace Hrun) as (_ & Hcall & Hone & _).
  split.
  - apply Hone. exists queenData. pose proof Hrun as Hvalue. vm_compute in Hvalue.
    injection Hvalue as Hr _ _. rewrite <- Hr. vm_compute. reflexivity.
  - exact Hcall.
Defined.

(** ** Media resolver: the duration window *)

Lemma inWindow_spec (ms : Z) (video : Video) :
  inWindow (Double.sub (Double.div (inject_Z ms) 1000) (tolerance (Double.div (inject_Z ms) 1000)))
           (Double.add (Double.div (inject_Z ms) 1000) (tolerance (Double.div (inject_Z ms) 1000))) video = true
  <-> withinWindow ms video.
Proof.
  unfold inWindow, withinWindow, windowOf, tolerance, clamp. simpl.
  rewrite andb_true_iff, !Qle_bool_iff. reflexivity.
Qed.

Lemma firstInWindow_spec (lo hi : Q) (videos : list Video) :
  match firstInWindow lo hi videos with
  | Some video =>
      exists before after,
        videos = before ++ video :: after /\ inWindow lo hi video = true /\
        Forall (fun v => inWindow lo hi v = false) before
  | None => Forall (fun v => inWindow lo hi v = false) videos
  end.
Proof.
  induction videos as [| v rest IH]; simpl; [constructor |].
  destruct (inWindow lo hi v) eqn:Hv.
  - exists [], rest. repeat split; [assumption | constructor].
  - destruct (firstInWindow lo hi rest) as [video |].
    + destruct IH as (before & after & -> & Hin & Hout).
      exists (v :: before), after. repeat split; [assumption |].
      constructor; assumption.
    + constructor; assumption.
Qed.

Lemma selectVideo_window (ms : Z) (videos : list Video) :
  ms <> 0 ->
  match selectVideo (Some ms) videos with
  | Ok video =>
      exists before after,
        videos = before ++ video :: after /\ withinWindow ms video /\
        Forall (fun v => ~ withinWindow ms v) before
  | Throw e =>
      e = NoDurationMatch (length videos) /\ Forall (fun v => ~ withinWindow ms v) videos
  end.
Proof.
  intros Hms. unfold selectVideo, targetSupplied.
  destruct (Z.eqb_spec ms 0) as [| _]; [contradiction |]. simpl.
  pose proof (firstInWindow_spec
                (Double.sub (Double.div (inject_Z ms) 1000) (tolerance (Double.div (inject_Z ms) 1000)))
                (Double.add (Double.div (inject_Z ms) 1000) (tolerance (Double.div (inject_Z ms) 1000))) videos) as Hfirst.
  assert (Hout : forall l,
            Forall (fun v => inWindow (Double.sub (Double.div (inject_Z ms) 1000) (tolerance (Double.div (inject_Z ms) 1000)))
                               (Double.add (Double.div (inject_Z ms) 1000) (tolerance (Double.div (inject_Z ms) 1000))) v = false) l ->
            Forall (fun v => ~ withinWindow ms v) l).
  { intros l Hl. eapply Forall_impl; [exact Hl |].
    intros v Hv Hin. apply inWindow_spec in Hin. simpl in Hv. congruence. }
  destruct (firstInWindow _ _ videos) as [video |].
  - destruct Hfirst as (before & after & -> & Hin & Hbefore).
    exists before, after. repeat split; [apply inWindow_spec; assumption | | auto];
      apply inWindow_spec in Hin; apply Hin.
  - split; [reflexivity | auto].
Qed.

(** ** Token lifecycle: further properties *)

Lemma setUserTokens_run (sid : string) (td : TokenData) (w : World) :
  truthy (access_token td) = true ->
  setUserTokens (Some sid) (Some td) w = Done (Ok tt) (stored sid (tokensOf td (now w)) w).
Proof.
  intros Htruthy. unfold setUserTokens. rewrite Htruthy.
  unfold bind, getWorld, sessionSave, stored, tokensOf. unfold modify. cbn [bindA].
  f_equal. unfold setSessionStore, setSessions. cbv beta.
  cbn [sessions sessionStore now files redisData
       clientCredentialsToken clientCredentialsTokenExpiresAt].
  rewrite lookup_insert_eq. reflexivity.
Qed.

(** X1. [setUserTokens] followed by [getUserTokens]: storing an answer
    that carries an access token and lasts more than 60 seconds makes the
    session hold exactly the record built from it, in memory and saved, and
    a token request right after returns that record without any upstream
    call. Without a session, without an answer or without an access token
    nothing is stored. *)
Theorem setUserTokens_then_getUserTokens (env : Env) (sid : string) (td : TokenData) (w : World) :
  truthy (access_token td) = true ->
  60 < expires_in td ->
  let record := tokensOf td (now w) in
  exists w',
    run env (setUserTokens (Some sid) (Some td)) w = (Ok tt, w', []) /\
    sessions w' !! sid = Some record /\ sessionStore w' !! sid = Some record /\
    (forall other, other <> sid ->
       sessions w' !! other = sessions w !! other /\
       sessionStore w' !! other = sessionStore w !! other) /\
    run env (getUserTokens (Some sid)) w' = (Ok (Some record), w', []).
Proof.
  intros Htruthy Hlong record.
  exists (stored sid record w).
  assert (Hs : sessions (stored sid record w) !! sid = Some record) by apply lookup_insert_eq.
  split; [| split; [| split; [| split]]].
  - unfold run. rewrite (setUserTokens_run sid td w Htruthy). reflexivity.
  - exact Hs.
  - apply lookup_insert_eq.
  - intros other Hother. split; apply lookup_insert_ne; congruence.
  - unfold run, getUserTokens, bind, getWorld. cbn [bindA]. rewrite Hs.
    destruct (Z.leb_spec (expiresAt record) (now (stored sid record w) + 60000)) as [Hle | _].
    + unfold record, tokensOf in Hle. simpl in Hle. lia.
    + reflexivity.
Qed.

Lemma setUserTokens_ignores_invalid (session : option string) (tokenData : option TokenData)
    (w : World) :
  session = None \/ tokenData = None \/
  (exists td, tokenData = Some td /\ truthy (access_token td) = false) ->
  setUserTokens session tokenData w = Done (Ok tt) w.
Proof.
  intros [-> | [-> | (td & -> & Hfalsy)]]; unfold setUserTokens.
  - reflexivity.
  - destruct session; reflexivity.
  - destruct session; [rewrite Hfalsy |]; reflexivity.
Qed.

Lemma setUserTokens_then_getUserTokens_witness :
  exists w',
    run (serve offline) (setUserTokens (Some "sess-9") (Some (granted 3600))) emptyWorld
      = (Ok tt, w', []) /\
    run (serve offline) (getUserTokens (Some "sess-9")) w'
      = (Ok (Some (tokensOf (granted 3600) (now emptyWorld))), w', []).
Proof.
  destruct (setUserTokens_then_getUserTokens (serve offline) "sess-9" (granted 3600) emptyWorld)
    as (w' & Hset & _ & _ & _ & Hget).
  - reflexivity.
  - simpl. lia.
  - exists w'. split; assumption.
Defined.

Lemma refresh_granted_run (env : Env) w sid tokens rt resp w1 td token :
  sessions w !! sid = Some tokens -> refreshToken tokens = Some rt -> rt <> ""%string ->
  env _ (FetchToken (RefreshTokenGrant rt)) w = (Ok resp, w1) ->
  ok resp = true -> json_body resp = Some td ->
  access_token td = Some token -> token <> ""%string ->
  run env (refreshUserAccessToken (Some sid)) w
    = (Ok (Some token), stored sid (tokensOf (withRefreshToken rt td) (now w1)) w1,
       [Issued (FetchToken (RefreshTokenGrant rt))]).
Proof.
  intros Hs Hrt Hne Henv Hok Hbody Htoken Htne.
  assert (Htruthy : truthy (access_token (withRefreshToken rt td)) = true).
  { simpl. rewrite Htoken. apply truthy_Some. assumption. }
  unfold run, refreshUserAccessToken, bind, getWorld. simpl.
  rewrite Hs, Hrt, (truthy_Some _ Hne). simpl. rewrite Henv. simpl. rewrite Hok. simpl.
  unfold responseJson. rewrite Hbody. simpl.
  rewrite Htoken, (truthy_Some _ Htne). simpl.
  rewrite lookup_insert_eq. simpl.
  unfold stored, tokensOf, withRefreshToken. simpl. rewrite Htoken. reflexivity.
Qed.

(** X2. A granted refresh: when the provider answers 2xx with a body that
    carries an access token, [refreshUserAccessToken] returns that token
    and the session holds, in memory and saved, the record built from the
    answer at the time of the reply, with the provider's new refresh token
    when it sent one and the old refresh token otherwise. *)
Theorem refresh_granted (env : Env) w sid tokens rt resp w1 td token :
  sessions w !! sid = Some tokens -> refreshToken tokens = Some rt -> rt <> ""%string ->
  env _ (FetchToken (RefreshTokenGrant rt)) w = (Ok resp, w1) ->
  ok resp = true -> json_body resp = Some td ->
  access_token td = Some token -> token <> ""%string ->
  let record := tokensOf (withRefreshToken rt td) (now w1) in
  run env (refreshUserAccessToken (Some sid)) w
    = (Ok (Some token), stored sid record w1, [Issued (FetchToken (RefreshTokenGrant rt))]) /\
  refreshToken record = (if truthy (refresh_token td) then refresh_token td else Some rt) /\
  expiresAt record = now w1 + expires_in td * 1000.
Proof.
  intros Hs Hrt Hne Henv Hok Hbody Htoken Htne record.
  split; [| split; reflexivity].
  exact (refresh_granted_run env w sid tokens rt resp w1 td token
           Hs Hrt Hne Henv Hok Hbody Htoken Htne).
Qed.

Lemma refresh_granted_witness :
  run (serve (granting 3600)) (refreshUserAccessToken (Some "sess-1")) staleWorld
  = (Ok (Some "new-access"),
     stored "sess-1" (tokensOf (withRefreshToken "refresh-0" (granted 3600)) (now staleWorld))
       staleWorld,
     [Issued (FetchToken (RefreshTokenGrant "refresh-0"))]) /\
  refreshToken (tokensOf (withRefreshToken "refresh-0" (granted 3600)) (now staleWorld))
  = Some "refresh-0".
Proof.
  destruct (refresh_granted (serve (granting 3600)) staleWorld "sess-1" staleTokens "refresh-0"
              (respond 200 (Some (granted 3600)) None) staleWorld (granted 3600) "new-access")
    as (Hrun & Hrt & _); try reflexivity; try discriminate.
  split; [exact Hrun | exact Hrt].
Defined.

(** X3. A 2xx answer that carries no access token stores nothing: the
    refresh returns the access token the session already had, the world is
    as the reply found it, and [getUserTokens] hands back the record it
    found stale. *)
Theorem refresh_answer_without_access_token (env : Env) w sid tokens rt resp w1 td :
  sessions w !! sid = Some tokens -> refreshToken tokens = Some rt -> rt <> ""%string ->
  env _ (FetchToken (RefreshTokenGrant rt)) w = (Ok resp, w1) ->
  ok resp = true -> json_body resp = Some td -> truthy (access_token td) = false ->
  sessions w1 !! sid = Some tokens -> accessToken tokens <> ""%string ->
  run env (refreshUserAccessToken (Some sid)) w
    = (Ok (Some (accessToken tokens)), w1, [Issued (FetchToken (RefreshTokenGrant rt))]) /\
  (expiresAt tokens <= now w + 60000 ->
   run env (getUserTokens (Some sid)) w
     = (Ok (Some tokens), w1, [Issued (FetchToken (RefreshTokenGrant rt))])).
Proof.
  intros Hs Hrt Hne Henv Hok Hbody Hfalsy Hs1 Hat.
  assert (Hrun : run env (refreshUserAccessToken (Some sid)) w
    = (Ok (Some (accessToken tokens)), w1, [Issued (FetchToken (RefreshTokenGrant rt))])).
  { unfold run, refreshUserAccessToken, bind, getWorld. simpl.
    rewrite Hs, Hrt, (truthy_Some _ Hne). simpl. rewrite Henv. simpl. rewrite Hok. simpl.
    unfold responseJson. rewrite Hbody. simpl. rewrite Hfalsy. simpl. rewrite Hs1.
    reflexivity. }
  split; [exact Hrun |].
  intros Hstale. unfold run at 1. rewrite (getUserTokens_stale _ _ _ Hs Hstale).
  fold (run env (tryCatch
      (newAccessToken <- refreshUserAccessToken (Some sid) ;;
       if negb (truthy newAccessToken) then ret None
       else (w' <- getWorld ;; ret (sessions w' !! sid)))
      (fun refreshError => ret None)) w).
  rewrite run_tryCatch, run_bind, Hrun. rewrite (truthy_Some _ Hat).
  unfold run, bind, getWorld, ret. simpl. rewrite Hs1. reflexivity.
Qed.

Lemma refresh_answer_without_access_token_witness :
  run (serve silent) (getUserTokens (Some "sess-1")) staleWorld
  = (Ok (Some staleTokens), staleWorld, [Issued (FetchToken (RefreshTokenGrant "refresh-0"))]).
Proof.
  refine (proj2 (refresh_answer_without_access_token (serve silent) staleWorld "sess-1"
                   staleTokens "refresh-0"
                   (respond 200 (Some {| access_token := None; refresh_token := None;
                                         expires_in := 3600; td_scope := None |}) None)
                   staleWorld
                   {| access_token := None; refresh_token := None;
                      expires_in := 3600; td_scope := None |} _ _ _ _ _ _ _ _ _) _);
    try reflexivity; discriminate.
Defined.

Lemma getUserTokens_orphan_run (env : Env) w sid tokens :
  sessions w !! sid = Some tokens -> expiresAt tokens <= now w + 60000 ->
  truthy (refreshToken tokens) = false ->
  run env (getUserTokens (Some sid)) w = (Ok None, setSessions (delete sid) w, []).
Proof.
  intros Hs Hstale Hrt. unfold run. rewrite (getUserTokens_stale _ _ _ Hs Hstale).
  unfold tryCatch, bind. rewrite (refresh_without_token _ _ _ Hs Hrt). reflexivity.
Qed.

(** X4. A stale record without a refresh token: [getUserTokens] sends no
    request and answers [null]; [session.tokens] is deleted in memory while
    the saved session keeps what it had. *)
Theorem getUserTokens_without_refresh_token (env : Env) w sid tokens :
  sessions w !! sid = Some tokens -> expiresAt tokens <= now w + 60000 ->
  truthy (refreshToken tokens) = false ->
  exists w',
    run env (getUserTokens (Some sid)) w = (Ok None, w', []) /\
    sessions w' !! sid = None /\ sessionStore w' = sessionStore w /\
    (forall other, other <> sid -> sessions w' !! other = sessions w !! other).
Proof.
  intros Hs Hstale Hrt. exists (setSessions (delete sid) w).
  split; [| split; [| split]].
  - exact (getUserTokens_orphan_run env w sid tokens Hs Hstale Hrt).
  - apply lookup_delete_eq.
  - reflexivity.
  - intros other Hother. apply lookup_delete_ne. congruence.
Qed.

Lemma getUserTokens_without_refresh_token_witness :
  exists w',
    run (serve (granting 3600)) (getUserTokens (Some "sess-3"))
        (stored "sess-3" orphanTokens emptyWorld) = (Ok None, w', []) /\
    sessions w' !! "sess-3" = None /\
    sessionStore w' !! "sess-3" = Some orphanTokens.
Proof.
  destruct (getUserTokens_without_refresh_token (serve (granting 3600))
              (stored "sess-3" orphanTokens emptyWorld) "sess-3" orphanTokens)
    as (w' & Hrun & Hgone & Hstore & _).
  - reflexivity.
  - simpl. lia.
  - reflexivity.
  - exists w'. repeat split; [assumption | assumption |]. rewrite Hstore. reflexivity.
Defined.

(** X5. [getUserTokens] never throws and never sends more than one
    request: whatever the session, the world and the provider's behaviour,
    it ends with tokens or with [null]. *)
Theorem getUserTokens_never_throws (env : Env) (session : option string) (w : World) :
  exists answer w' trace,
    run env (getUserTokens session) w = (Ok answer, w', trace) /\ (length trace <= 1)%nat.
Proof.
  destruct session as [sid |]; [| exists None, w, []; split; [reflexivity | simpl; lia]].
  destruct (sessions w !! sid) as [tokens |] eqn:Hs.
  2: { exists None, w, []. split; [| simpl; lia].
       unfold run, getUserTokens, bind, getWorld. simpl. rewrite Hs. reflexivity. }
  destruct (Z.lt_ge_cases (now w + 60000) (expiresAt tokens)) as [Hfresh | Hstale].
  { exists (Some tokens), w, []. split; [| simpl; lia].
    unfold run, getUserTokens, bind, getWorld. simpl. rewrite Hs.
    destruct (Z.leb_spec (expiresAt tokens) (now w + 60000)); [lia | reflexivity]. }
  destruct (truthy (refreshToken tokens)) eqn:Hrt.
  - apply truthy_inv in Hrt as (rt & Hrt & Hne).
    destruct (refresh_run env w sid tokens rt Hs Hrt Hne) as (r & w1 & Hr).
    unfold run at 1. rewrite (getUserTokens_stale _ _ _ Hs Hstale).
    fold (run env (tryCatch
      (newAccessToken <- refreshUserAccessToken (Some sid) ;;
       if negb (truthy newAccessToken) then ret None
       else (w' <- getWorld ;; ret (sessions w' !! sid)))
      (fun refreshError => ret None)) w).
    rewrite run_tryCatch, run_bind, Hr. destruct r as [a | e].
    + destruct (truthy a); unfold run, bind, getWorld, ret; simpl; eauto 6.
    + unfold run, ret. simpl. eauto 6.
  - rewrite (getUserTokens_orphan_run env w sid tokens Hs Hstale Hrt).
    exists None, (setSessions (delete sid) w), []. split; [reflexivity | simpl; lia].
Qed.

Lemma getUserTokens_fresh w sid tokens :
  sessions w !! sid = Some tokens -> now w + 60000 < expiresAt tokens ->
  getUserTokens (Some sid) w = Done (Ok (Some tokens)) w.
Proof.
  intros Hs Hfresh. unfold getUserTokens. unfold bind at 1. unfold getWorld. cbn [bindA].
  rewrite Hs. destruct (Z.leb_spec (expiresAt tokens) (now w + 60000)); [lia | reflexivity].
Qed.

(** X6. Two calls one after the other refresh once: when the first call
    on a stale session is granted a token that lasts more than 60 seconds
    and no time passes, a second call returns the refreshed record without
    any request. *)
Theorem sequential_calls_refresh_once (env : Env) w sid tokens rt resp td token :
  sessions w !! sid = Some tokens -> expiresAt tokens <= now w + 60000 ->
  refreshToken tokens = Some rt -> rt <> ""%string ->
  env _ (FetchToken (RefreshTokenGrant rt)) w = (Ok resp, w) ->
  ok resp = true -> json_body resp = Some td ->
  access_token td = Some token -> token <> ""%string -> 60 < expires_in td ->
  let record := tokensOf (withRefreshToken rt td) (now w) in
  run env (getUserTokens (Some sid)) w
    = (Ok (Some record), stored sid record w, [Issued (FetchToken (RefreshTokenGrant rt))]) /\
  run env (getUserTokens (Some sid)) (stored sid record w)
    = (Ok (Some record), stored sid record w, []).
Proof.
  intros Hs Hstale Hrt Hne Henv Hok Hbody Htoken Htne Hlong record.
  pose proof (refresh_granted_run env w sid tokens rt resp w td token
                Hs Hrt Hne Henv Hok Hbody Htoken Htne) as Hrun.
  fold record in Hrun.
  assert (Hlook : sessions (stored sid record w) !! sid = Some record)
    by apply lookup_insert_eq.
  split.
  - unfold run at 1. rewrite (getUserTokens_stale _ _ _ Hs Hstale).
    fold (run env (tryCatch
      (newAccessToken <- refreshUserAccessToken (Some sid) ;;
       if negb (truthy newAccessToken) then ret None
       else (w' <- getWorld ;; ret (sessions w' !! sid)))
      (fun refreshError => ret None)) w).
    rewrite run_tryCatch, run_bind, Hrun. rewrite (truthy_Some _ Htne).
    unfold run, bind, getWorld, ret. simpl. rewrite lookup_insert_eq. reflexivity.
  - assert (Hfresh : (expiresAt record <=? now (stored sid record w) + 60000) = false).
    { apply Z.leb_gt. unfold record, tokensOf. simpl. lia. }
    apply Z.leb_gt in Hfresh.
    unfold run. rewrite (getUserTokens_fresh _ _ _ Hlook Hfresh). reflexivity.
Qed.

Lemma sequential_calls_refresh_once_witness :
  let record := tokensOf (withRefreshToken "refresh-0" (granted 3600)) (now staleWorld) in
  run (serve (granting 3600)) (getUserTokens (Some "sess-1")) staleWorld
    = (Ok (Some record), stored "sess-1" record staleWorld,
       [Issued (FetchToken (RefreshTokenGrant "refresh-0"))]) /\
  run (serve (granting 3600)) (getUserTokens (Some "sess-1")) (stored "sess-1" record staleWorld)
    = (Ok (Some record), stored "sess-1" record staleWorld, []).
Proof.
  apply (sequential_calls_refresh_once (serve (granting 3600)) staleWorld "sess-1" staleTokens
           "refresh-0" (respond 200 (Some (granted 3600)) None) (granted 3600) "new-access");
    try reflexivity; try discriminate; simpl; lia.
Defined.

(** ** The application's own token and the catalog request *)

Lemma clientToken_cached (env : Env) w :
  clientTokenValid w = true ->
  run env getClientCredentialsToken w = (Ok (clientCredentialsToken w), w, []).
Proof.
  unfold clientTokenValid. intros Hvalid.
  unfold run, getClientCredentialsToken, bind, getWorld. cbn [bindA]. rewrite Hvalid.
  reflexivity.
Qed.

Lemma clientToken_fetch (env : Env) w reply w1 :
  clientTokenValid w = false ->
  env _ (FetchToken ClientCredentialsGrant) w = (reply, w1) ->
  run env getClientCredentialsToken w =
  let '(r, w', t) :=
    run env (response <- settle reply ;;
             if negb (ok response) then
               (responseText response ;;;
                throw (HttpClientTokenError (status response)))
             else
               (data <- responseJson response ;;
                w' <- getWorld ;;
                modify (setClientToken (access_token data) (now w' + expires_in data * 1000)) ;;;
                ret (access_token data))) w1 in
  (r, w', Issued (FetchToken ClientCredentialsGrant) :: t).
Proof.
  unfold clientTokenValid. intros Hvalid Henv.
  unfold run, getClientCredentialsToken. unfold bind at 1. unfold getWorld. cbn [bindA].
  rewrite Hvalid. unfold tryCatch, bind, await. simpl. rewrite Henv.
  destruct reply as [resp | e]; simpl; [| reflexivity].
  destruct (ok resp); simpl.
  - unfold responseJson. destruct (json_body resp); reflexivity.
  - unfold responseText. destruct (text_body resp); reflexivity.
Qed.

(** X7. The application's token is fetched once: with no valid token
    cached, a 2xx answer that carries a token lasting some time is stored
    with its expiry, and a second call in the world the first one left
    returns the same token without any request. *)
Theorem clientToken_fetched_once (env : Env) w resp w1 td token :
  clientTokenValid w = false ->
  env _ (FetchToken ClientCredentialsGrant) w = (Ok resp, w1) ->
  ok resp = true -> json_body resp = Some td ->
  access_token td = Some token -> token <> ""%string -> 0 < expires_in td ->
  let w2 := cachedClientToken token (now w1 + expires_in td * 1000) w1 in
  run env getClientCredentialsToken w
    = (Ok (Some token), w2, [Issued (FetchToken ClientCredentialsGrant)]) /\
  run env getClientCredentialsToken w2 = (Ok (Some token), w2, []).
Proof.
  intros Hvalid Henv Hok Hbody Htoken Hne Hlong w2. split.
  - rewrite (clientToken_fetch env w _ w1 Hvalid Henv).
    unfold run, bind, settle, getWorld, modify, ret. simpl. rewrite Hok. simpl.
    unfold responseJson. rewrite Hbody. simpl. rewrite Htoken. reflexivity.
  - rewrite clientToken_cached; [reflexivity |].
    unfold clientTokenValid, w2, cachedClientToken, setClientToken.
    cbn [clientCredentialsToken now clientCredentialsTokenExpiresAt].
    rewrite (truthy_Some _ Hne). apply Z.ltb_lt. lia.
Qed.

Lemma clientToken_fetched_once_witness :
  let w2 := cachedClientToken "app-token" 4600000 emptyWorld in
  run (serve issuing) getClientCredentialsToken emptyWorld
    = (Ok (Some "app-token"), w2, [Issued (FetchToken ClientCredentialsGrant)]) /\
  run (serve issuing) getClientCredentialsToken w2 = (Ok (Some "app-token"), w2, []).
Proof.
  apply (clientToken_fetched_once (serve issuing) emptyWorld (respond 200 (Some appToken) None)
           emptyWorld appToken "app-token");
    try reflexivity; try discriminate.
Defined.

(** X8. A failed fetch of the application's token throws and leaves the
    cached token and its expiry as the reply found them: when the request
    itself fails, and when the provider answers outside 2xx. *)
Theorem clientToken_failure_keeps_cache (env : Env) w reply w1 :
  clientTokenValid w = false ->
  env _ (FetchToken ClientCredentialsGrant) w = (reply, w1) ->
  match reply with
  | Throw _ => True
  | Ok resp => ok resp = false
  end ->
  exists e,
    run env getClientCredentialsToken w
      = (Throw e, w1, [Issued (FetchToken ClientCredentialsGrant)]) /\
    match reply with
    | Throw e' => e = e'
    | Ok resp => text_body resp <> None -> e = HttpClientTokenError (status resp)
    end.
Proof.
  intros Hvalid Henv Hfail. rewrite (clientToken_fetch env w _ w1 Hvalid Henv).
  destruct reply as [resp | e'].
  - unfold run, bind, settle. simpl. rewrite Hfail. simpl.
    unfold responseText. destruct (text_body resp) as [t |]; simpl.
    + eexists. split; [reflexivity | reflexivity].
    + eexists. split; [reflexivity | congruence].
  - exists e'. split; reflexivity.
Qed.

Lemma clientToken_failure_keeps_cache_witness :
  exists e,
    run (serve offline) getClientCredentialsToken emptyWorld
      = (Throw e, emptyWorld, [Issued (FetchToken ClientCredentialsGrant)]) /\
    e = NetworkError "fetch failed".
Proof.
  exact (clientToken_failure_keeps_cache (serve offline) emptyWorld
           (Throw (NetworkError "fetch failed")) emptyWorld eq_refl eq_refl I).
Defined.

Lemma run_getWorld_bind {A} (env : Env) (f : World -> M A) (w : World) :
  run env (w0 <- getWorld ;; f w0) w = run env (f w) w.
Proof.
  rewrite run_bind. unfold run at 1, getWorld. cbn [exec].
  destruct (run env (f w) w) as [[r w'] t]. reflexivity.
Qed.

Lemma run_ret_bind {A B} (env : Env) (a : A) (f : A -> M B) (w : World) :
  run env (x <- ret a ;; f x) w = run env (f a) w.
Proof.
  rewrite run_bind. unfold run at 1, ret. cbn [exec].
  destruct (run env (f a) w) as [[r w'] t]. reflexivity.
Qed.

Lemma makeApiRequest_anonymous (env : Env) session endpoint method body w :
  match session with
  | Some sid => sessions w !! sid = None
  | None => True
  end ->
  run env (_makeApiRequest session endpoint method body) w
  = run env (sendWithToken None endpoint method body) w.
Proof.
  intros Hanon. unfold _makeApiRequest. rewrite run_getWorld_bind.
  destruct session as [sid |]; [rewrite Hanon |]; rewrite run_ret_bind; reflexivity.
Qed.

Lemma makeApiRequest_with_session (env : Env) sid tokens endpoint method body w :
  sessions w !! sid = Some tokens ->
  run env (_makeApiRequest (Some sid) endpoint method body) w
  = match run env (getUserTokens (Some sid)) w with
    | (Ok userTokens, w1, t1) =>
        let '(r, w', t) :=
          run env (sendWithToken (match userTokens with
                                  | Some t => Some (accessToken t)
                                  | None => None
                                  end) endpoint method body) w1 in
        (r, w', t1 ++ t)
    | (Throw e, w1, t1) => (Throw e, w1, t1)
    end.
Proof.
  intros Hs. unfold _makeApiRequest. rewrite run_getWorld_bind. rewrite Hs.
  rewrite run_bind, run_bind.
  destruct (run env (getUserTokens (Some sid)) w) as [[[userTokens | e] w1] t1]; [| reflexivity].
  unfold run at 1, ret. cbn [exec]. rewrite app_nil_r. reflexivity.
Qed.

Lemma readApiResponse_pure (env : Env) fetched w :
  exists r, run env (readApiResponse fetched) w = (r, w, []).
Proof.
  unfold readApiResponse, run, bind. destruct fetched as [resp | e]; simpl; [| eauto].
  destruct (ok resp); simpl; [| eauto].
  destruct ((status resp =? 204) || emptyBody resp); simpl; [eauto |].
  unfold responseJson. destruct (json_body resp); simpl; eauto.
Qed.

Lemma sendWithToken_run (env : Env) bearer endpoint method body w reply w1 :
  env _ (FetchApi endpoint method bearer body) w = (reply, w1) ->
  run env (tryCatch (fetched <- await (FetchApi endpoint method bearer body) ;;
                     readApiResponse fetched) (fun error => throw error)) w
  = ((run env (readApiResponse reply) w1).1.1, w1,
     [Issued (FetchApi endpoint method bearer body)]).
Proof.
  intros Henv. rewrite run_rethrow, run_bind, run_await, Henv. cbn [fst snd].
  destruct (readApiResponse_pure env reply w1) as (r & ->). reflexivity.
Qed.

Lemma sendWithToken_user (env : Env) token endpoint method body w reply w1 :
  truthy (Some token) = true ->
  env _ (FetchApi endpoint method (Some token) body) w = (reply, w1) ->
  run env (sendWithToken (Some token) endpoint method body) w
  = ((run env (readApiResponse reply) w1).1.1, w1,
     [Issued (FetchApi endpoint method (Some token) body)]).
Proof.
  intros Htruthy Henv. unfold sendWithToken. rewrite Htruthy, run_ret_bind.
  apply sendWithToken_run. assumption.
Qed.

Lemma sendWithToken_client (env : Env) c endpoint method body w reply w1 :
  clientTokenValid w = true -> clientCredentialsToken w = Some c ->
  env _ (FetchApi endpoint method (Some c) body) w = (reply, w1) ->
  run env (sendWithToken None endpoint method body) w
  = ((run env (readApiResponse reply) w1).1.1, w1,
     [Issued (FetchApi endpoint method (Some c) body)]).
Proof.
  intros Hvalid Hc Henv. unfold sendWithToken. cbn [truthy].
  rewrite run_bind, run_tryCatch, (clientToken_cached env w Hvalid), Hc.
  rewrite (sendWithToken_run env (Some c) endpoint method body w reply w1 Henv).
  reflexivity.
Qed.

(** X9. A session with a fresh record is served with the user's token:
    the one request [_makeApiRequest] sends is the catalog request, with
    that token as bearer, whether or not the application holds a token of
    its own. *)
Theorem makeApiRequest_user_token (env : Env) sid tokens endpoint method body w :
  sessions w !! sid = Some tokens -> now w + 60000 < expiresAt tokens ->
  accessToken tokens <> ""%string ->
  exists r w',
    run env (_makeApiRequest (Some sid) endpoint method body) w
    = (r, w', [Issued (FetchApi endpoint method (Some (accessToken tokens)) body)]).
Proof.
  intros Hs Hfresh Hne. rewrite (makeApiRequest_with_session env sid tokens _ _ _ w Hs).
  unfold run at 1. rewrite (getUserTokens_fresh w sid tokens Hs Hfresh). cbn [exec].
  destruct (env _ (FetchApi endpoint method (Some (accessToken tokens)) body) w)
    as [reply w1] eqn:Henv.
  rewrite (sendWithToken_user env _ endpoint method body w reply w1 (truthy_Some _ Hne) Henv).
  eauto.
Qed.

Lemma makeApiRequest_user_token_witness :
  exists r w',
    run (serve offline) (_makeApiRequest (Some "sess-2") "/me" "GET" None) freshWorld
    = (r, w', [Issued (FetchApi "/me" "GET" (Some "user-access") None)]).
Proof.
  apply (makeApiRequest_user_token (serve offline) "sess-2"
           {| accessToken := "user-access"; refreshToken := Some "refresh-2";
              expiresAt := 2000000; scope := None |} "/me" "GET" None freshWorld).
  - reflexivity.
  - reflexivity.
  - discriminate.
Defined.

(** X10. When the user's tokens cannot be had, the request goes out with
    the application's token: for a session whose record [getUserTokens]
    answers with [null] (the refresh failed, or there was no refresh
    token), and for a call without session tokens, the bearer of the
    catalog request is the cached application token. *)
Theorem makeApiRequest_falls_back (env : Env) session endpoint method body w w1 t1 c :
  match session with
  | Some sid =>
      match sessions w !! sid with
      | Some _ => run env (getUserTokens session) w = (Ok None, w1, t1)
      | None => w1 = w /\ t1 = []
      end
  | None => w1 = w /\ t1 = []
  end ->
  clientTokenValid w1 = true -> clientCredentialsToken w1 = Some c ->
  exists r w',
    run env (_makeApiRequest session endpoint method body) w
    = (r, w', t1 ++ [Issued (FetchApi endpoint method (Some c) body)]).
Proof.
  intros Huser Hvalid Hc.
  destruct (env _ (FetchApi endpoint method (Some c) body) w1) as [reply w2] eqn:Henv.
  pose proof (sendWithToken_client env c endpoint method body w1 reply w2 Hvalid Hc Henv)
    as Hsend.
  destruct session as [sid |].
  - destruct (sessions w !! sid) as [tokens |] eqn:Hs.
    + rewrite (makeApiRequest_with_session env sid tokens _ _ _ w Hs), Huser, Hsend. eauto.
    + destruct Huser as [-> ->]. rewrite makeApiRequest_anonymous by exact Hs.
      rewrite Hsend. eauto.
  - destruct Huser as [-> ->]. rewrite makeApiRequest_anonymous by exact I.
    rewrite Hsend. eauto.
Qed.

Lemma makeApiRequest_falls_back_witness :
  exists r w',
    run (serve rejecting) (_makeApiRequest (Some "sess-1") "/search" "GET" None)
        (cachedClientToken "app-token" 4600000 staleWorld)
    = (r, w', [Issued (FetchToken (RefreshTokenGrant "refresh-0"));
               Issued (FetchApi "/search" "GET" (Some "app-token") None)]).
Proof.
  apply (makeApiRequest_falls_back (serve rejecting) (Some "sess-1") "/search" "GET" None
           (cachedClientToken "app-token" 4600000 staleWorld)
           (setSessionStore (delete "sess-1") (setSessions (delete "sess-1")
              (cachedClientToken "app-token" 4600000 staleWorld)))
           [Issued (FetchToken (RefreshTokenGrant "refresh-0"))] "app-token").
  - vm_compute. reflexivity.
  - reflexivity.
  - reflexivity.
Defined.

(** X11. Without any token no catalog request is sent: when there are no
    session tokens, no valid application token is cached and the token
    request fails or is answered outside 2xx, [_makeApiRequest] throws its
    own no-token error after that one token request. *)
Theorem makeApiRequest_without_token (env : Env) session endpoint method body w reply w1 :
  match session with
  | Some sid => sessions w !! sid = None
  | None => True
  end ->
  clientTokenValid w = false ->
  env _ (FetchToken ClientCredentialsGrant) w = (reply, w1) ->
  match reply with
  | Throw _ => True
  | Ok resp => ok resp = false
  end ->
  exists e,
    run env (_makeApiRequest session endpoint method body) w
    = (Throw (NoTokenError e), w1, [Issued (FetchToken ClientCredentialsGrant)]).
Proof.
  intros Hanon Hvalid Henv Hfail. rewrite (makeApiRequest_anonymous env _ _ _ _ w Hanon).
  unfold sendWithToken. cbn [truthy]. rewrite run_bind, run_tryCatch.
  rewrite (clientToken_fetch env w _ w1 Hvalid Henv).
  destruct reply as [resp | e].
  - unfold run, bind, settle. simpl. rewrite Hfail. simpl.
    unfold responseText. destruct (text_body resp); simpl; eauto.
  - unfold run. simpl. eauto.
Qed.

Lemma makeApiRequest_without_token_witness :
  exists e,
    run (serve offline) (_makeApiRequest None "/search" "GET" None) emptyWorld
    = (Throw (NoTokenError e), emptyWorld, [Issued (FetchToken ClientCredentialsGrant)]).
Proof.
  exact (makeApiRequest_without_token (serve offline) None "/search" "GET" None emptyWorld
           (Throw (NetworkError "fetch failed")) emptyWorld I eq_refl eq_refl I).
Defined.

(** X12. What [_makeApiRequest] makes of the catalog's answer: a failed
    request is thrown on as it is; an answer outside 2xx is thrown as an
    API error whose status is the body's [error.status] when the body has
    a non-zero one and the HTTP status otherwise; a 204 or an empty body
    gives [null]; any other 2xx answer gives its JSON body. *)
Theorem makeApiRequest_outcome (env : Env) endpoint method body w c reply w1 :
  clientTokenValid w = true -> clientCredentialsToken w = Some c ->
  env _ (FetchApi endpoint method (Some c) body) w = (reply, w1) ->
  exists r,
    run env (_makeApiRequest None endpoint method body) w
    = (r, w1, [Issued (FetchApi endpoint method (Some c) body)]) /\
    match reply with
    | Throw e => r = Throw e
    | Ok resp =>
        if ok resp then
          if (status resp =? 204) || emptyBody resp then r = Ok None
          else forall d, json_body resp = Some d -> r = Ok (Some d)
        else
          exists st msg, r = Throw (ApiError st msg) /\
            (forall b s, error_json resp = Some b -> error_status b = Some s -> s <> 0 -> st = s) /\
            (error_json resp = None -> st = status resp)
    end.
Proof.
  intros Hvalid Hc Henv. rewrite makeApiRequest_anonymous by exact I.
  rewrite (sendWithToken_client env c endpoint method body w reply w1 Hvalid Hc Henv).
  eexists. split; [reflexivity |].
  destruct reply as [resp | e]; [| reflexivity].
  unfold readApiResponse, run, bind. simpl. destruct (ok resp); simpl.
  - destruct ((status resp =? 204) || emptyBody resp); simpl; [reflexivity |].
    intros d Hd. unfold responseJson. rewrite Hd. reflexivity.
  - do 2 eexists. split; [reflexivity |]. split.
    + intros b s Hb Hst Hnz. rewrite Hb. simpl. rewrite Hst.
      destruct (Z.eqb_spec s 0); [contradiction | reflexivity].
    + intros Hb. rewrite Hb. reflexivity.
Qed.

Lemma makeApiRequest_outcome_witness :
  exists r,
    run (serve offline) (_makeApiRequest None "/search" "GET" None)
        (cachedClientToken "app-token" 4600000 emptyWorld)
    = (r, cachedClientToken "app-token" 4600000 emptyWorld,
       [Issued (FetchApi "/search" "GET" (Some "app-token") None)]) /\
    r = Throw (NetworkError "fetch failed").
Proof.
  exact (makeApiRequest_outcome (serve offline) "/search" "GET" None
           (cachedClientToken "app-token" 4600000 emptyWorld) "app-token"
           (Throw (NetworkError "fetch failed"))
           (cachedClientToken "app-token" 4600000 emptyWorld) eq_refl eq_refl eq_refl).
Defined.

(** ** The multi-type search: further properties *)

Lemma compareInCategory_le (x y : Item) :
  is_Some (popularity x) -> is_Some (popularity y) ->
  Qle_bool (compareInCategory x y) 0 = true -> inCategoryOrder x y.
Proof.
  intros [px Hx] [py Hy]. unfold compareInCategory, inCategoryOrder. rewrite Hx, Hy.
  destruct (Qeq_bool (relevance y) (relevance x)) eqn:Heq; simpl.
  - rewrite Qle_bool_iff. apply Qeq_bool_iff in Heq. intros Hle. right.
    split; [assumption |]. unfold Qle in Hle. simpl in Hle. lia.
  - apply Qeq_bool_neq in Heq. intros Hle. apply Double_sub_nonpos in Hle. left. lra.
Qed.

Lemma compareInCategory_gt (x y : Item) :
  is_Some (popularity x) -> is_Some (popularity y) ->
  Qle_bool (compareInCategory x y) 0 = false -> inCategoryOrder y x.
Proof.
  intros [px Hx] [py Hy]. unfold compareInCategory, inCategoryOrder. rewrite Hx, Hy.
  destruct (Qeq_bool (relevance y) (relevance x)) eqn:Heq; simpl; intros Hgt.
  - apply Qeq_bool_iff in Heq. right. split; [lra |].
    assert (Hnle : ~ (inject_Z (py - px) <= 0)%Q).
    { intros Hle. apply Qle_bool_iff in Hle. congruence. }
    unfold Qle in Hnle. simpl in Hnle. lia.
  - left. apply Qnot_le_lt. intros Hle. apply Double_sub_nonpos in Hle. congruence.
Qed.

Lemma inCategoryOrder_trans (a b c : Item) :
  inCategoryOrder a b -> inCategoryOrder b c -> inCategoryOrder a c.
Proof.
  unfold inCategoryOrder. intros [Hab | [Hab Hpab]] [Hbc | [Hbc Hpbc]].
  - left. lra.
  - left. lra.
  - left. lra.
  - right. split; [lra | lia].
Qed.

Lemma insertBy_inCategoryOrder (x : Item) (l : list Item) :
  is_Some (popularity x) -> Forall (fun i => is_Some (popularity i)) l ->
  StronglySorted inCategoryOrder l ->
  StronglySorted inCategoryOrder (insertBy compareInCategory x l).
Proof.
  intros Hx. induction l as [| y rest IH]; intros Hall Hsorted; simpl.
  - repeat constructor.
  - apply Forall_cons in Hall as [Hy Hall].
    apply StronglySorted_inv in Hsorted as [Hrest Hbelow].
    destruct (Qle_bool (compareInCategory x y) 0) eqn:Hle.
    + apply compareInCategory_le in Hle; [| assumption | assumption].
      constructor; [constructor; assumption |].
      constructor; [assumption |].
      eapply Forall_impl; [exact Hbelow |]. intros z Hz.
      eapply inCategoryOrder_trans; eassumption.
    + apply compareInCategory_gt in Hle; [| assumption | assumption].
      constructor; [apply IH; assumption |].
      eapply Permutation_Forall; [symmetry; apply insertBy_Permutation |].
      constructor; assumption.
Qed.

Lemma sortBy_inCategoryOrder (l : list Item) :
  Forall (fun i => is_Some (popularity i)) l ->
  StronglySorted inCategoryOrder (sortBy compareInCategory l).
Proof.
  induction l as [| x rest IH]; intros Hall; simpl; [constructor |].
  apply Forall_cons in Hall as [Hx Hall].
  apply insertBy_inCategoryOrder; [assumption | | apply IH; assumption].
  eapply Permutation_Forall; [symmetry; apply sortBy_Permutation | assumption].
Qed.

Lemma compareInCategory_relevance (x y : Item) :
  (Qle_bool (compareInCategory x y) 0 = true -> (relevance y <= relevance x)%Q) /\
  (Qle_bool (compareInCategory x y) 0 = false -> (relevance x <= relevance y)%Q).
Proof.
  unfold compareInCategory.
  destruct (Qeq_bool (relevance y) (relevance x)) eqn:Heq; simpl.
  - apply Qeq_bool_iff in Heq. split; intros _; lra.
  - split.
    + intros Hle. apply Double_sub_nonpos in Hle. assumption.
    + intros Hgt. apply Qlt_le_weak, Qnot_le_lt. intros Hle.
      apply Double_sub_nonpos in Hle. congruence.
Qed.

Lemma sortBy_compareInCategory_descending (l : list Item) :
  descending (sortBy compareInCategory l).
Proof.
  unfold descending. induction l as [| x rest IH]; simpl; [constructor |].
  generalize dependent (sortBy compareInCategory rest). clear rest.
  intros l. induction l as [| y rest IH]; intros Hsorted; simpl.
  - repeat constructor.
  - apply StronglySorted_inv in Hsorted as [Hrest Hbelow].
    destruct (compareInCategory_relevance x y) as [Hle Hgt].
    destruct (Qle_bool (compareInCategory x y) 0).
    + specialize (Hle eq_refl).
      constructor; [constructor; assumption |].
      constructor; [assumption |].
      eapply Forall_impl; [exact Hbelow |]. intros z Hz. simpl in Hz. lra.
    + specialize (Hgt eq_refl).
      constructor; [apply IH; assumption |].
      eapply Permutation_Forall; [symmetry; apply insertBy_Permutation |].
      constructor; assumption.
Qed.

Section SearchProperties.
Context `{JsRuntime}.

Lemma searchMultiType_success (env : Env) (query : string) (limit : Z) w w' trace
    results by_type total_found :
  run env (searchMultiType query limit) w
    = (Ok (SearchSuccess results by_type total_found), w', trace) ->
  exists data, SearchSuccess results by_type total_found = aggregate query limit data.
Proof.
  intros Hrun.
  destruct (searchMultiType_run env query limit w _ _ _ Hrun) as [[[data Hdata] | [e He]] _];
    [| discriminate].
  exists data. congruence.
Qed.

(** X13. [searchMultiType] never throws: whatever the query, the limit
    and the services do, the call ends with an answer, and when no catalog
    request went out that answer is the failure object. *)
Theorem searchMultiType_never_throws (env : Env) (query : string) (limit : Z) (w : World) :
  exists outcome w' trace,
    run env (searchMultiType query limit) w = (Ok outcome, w', trace) /\
    (catalogCalls trace = [] -> exists e, outcome = SearchFailure e).
Proof.
  destruct (run env (searchMultiType query limit) w) as [[r w'] trace] eqn:Hrun.
  destruct (searchMultiType_run env query limit w r w' trace Hrun) as [Hr Hcalls].
  assert (Hok : exists outcome, r = Ok outcome) by (destruct Hr as [[? ->] | [? ->]]; eauto).
  destruct Hok as [outcome ->]. exists outcome, w', trace. split; [reflexivity |].
  intros Hnone. destruct Hcalls as [[bearer Hcall] | [_ [e He]]].
  - rewrite Hnone in Hcall. discriminate.
  - exists e. congruence.
Qed.

(** X14. With a token at hand and a 2xx answer that has a JSON body, the
    search sends one request and ranks the body: each of the four lists of
    [by_type] holds exactly the normalised hits of its category (for tracks,
    one per group), in descending order of relevance, tracks and artists of
    equal relevance by descending popularity; the totals are those the
    catalog reports, 0 for a category the answer lacks. *)
Theorem searchMultiType_ranks_response (env : Env) (query : string) (limit : Z) w c resp w1
    (data : SearchData) :
  clientTokenValid w = true -> clientCredentialsToken w = Some c ->
  env _ (FetchApi (searchEndpoint query limit) "GET" (Some c) None) w = (Ok resp, w1) ->
  ok resp = true -> (status resp =? 204) || emptyBody resp = false ->
  json_body resp = Some data ->
  let queryLower := trim (toLowerCase query) in
  exists results by_type total_found,
    run env (searchMultiType query limit) w
      = (Ok (SearchSuccess results by_type total_found), w1,
         [Issued (FetchApi (searchEndpoint query limit) "GET" (Some c) None)]) /\
    Permutation (tracks by_type)
      (map (trackItem queryLower) (dedupTracks (pageItems (data_tracks data)))) /\
    Permutation (artists by_type) (map (artistItem queryLower) (pageItems (data_artists data))) /\
    Permutation (albums by_type) (map (albumItem queryLower) (pageItems (data_albums data))) /\
    Permutation (playlists by_type)
      (map (playlistItem queryLower) (pageItems (data_playlists data))) /\
    StronglySorted inCategoryOrder (tracks by_type) /\
    StronglySorted inCategoryOrder (artists by_type) /\
    descending (albums by_type) /\ descending (playlists by_type) /\
    total_found = {| total_tracks_found := pageTotal (data_tracks data);
                     total_artists_found := pageTotal (data_artists data);
                     total_albums_found := pageTotal (data_albums data);
                     total_playlists_found := pageTotal (data_playlists data) |}.
Proof.
  intros Hvalid Hc Henv Hok Hbody Hjson queryLower.
  assert (Hrun : run env (searchMultiType query limit) w
            = (Ok (aggregate query limit data), w1,
               [Issued (FetchApi (searchEndpoint query limit) "GET" (Some c) None)])).
  { unfold searchMultiType. rewrite run_tryCatch, run_bind.
    rewrite makeApiRequest_anonymous by exact I.
    rewrite (sendWithToken_client env c _ _ _ w _ w1 Hvalid Hc Henv).
    unfold readApiResponse, run, bind, settle. simpl. rewrite Hok. simpl.
    rewrite Hbody. unfold responseJson. rewrite Hjson. reflexivity. }
  unfold aggregate in Hrun. do 3 eexists. split; [exact Hrun |].
  cbn [tracks artists albums playlists sortCategories collect].
  repeat split; try apply sortBy_Permutation; try apply sortBy_compareInCategory_descending;
    apply sortBy_inCategoryOrder; apply Forall_forall; intros i Hi;
    apply list_elem_of_fmap in Hi as (x & -> & _); simpl; eauto.
Qed.

(** X15. What the limit does to the combined list. Every combined result
    is an item of [by_type]. When every category has at most
    [ceil(limit/4)] items and there are at most [limit] items in all, the
    combined list holds all of them; for a limit of 0 or below it is empty,
    whatever [by_type] holds. *)
Theorem searchMultiType_limit (env : Env) (query : string) (limit : Z) w w' trace
    results by_type total_found :
  run env (searchMultiType query limit) w
    = (Ok (SearchSuccess results by_type total_found), w', trace) ->
  let m := Z.to_nat (maxPerCategory limit) in
  (forall item, item ∈ results -> item ∈ allItems by_type) /\
  ((length (tracks by_type) <= m)%nat -> (length (artists by_type) <= m)%nat ->
   (length (albums by_type) <= m)%nat -> (length (playlists by_type) <= m)%nat ->
   (length (allItems by_type) <= Z.to_nat limit)%nat ->
   Permutation results (allItems by_type)) /\
  (limit <= 0 -> results = []).
Proof.
  intros Hrun m.
  destruct (searchMultiType_success env query limit w w' trace _ _ _ Hrun) as [data Hdata].
  unfold aggregate in Hdata. injection Hdata as Hres Hby _. rewrite <- Hby in Hres.
  assert (Hperm : Permutation (interleave by_type (maxPerCategory limit))
            (take m (tracks by_type) ++ take m (artists by_type) ++
             take m (albums by_type) ++ take m (playlists by_type))).
  { rewrite interleave_rounds. apply rounds_Permutation. }
  destruct (slice0_take (sortBy compareRelevance
              (interleave by_type (maxPerCategory limit))) limit) as [n Hn].
  split; [| split].
  - intros item Hitem. rewrite Hres, Hn in Hitem.
    apply (subseteq_take n) in Hitem.
    rewrite sortBy_Permutation, Hperm in Hitem. unfold allItems.
    rewrite !elem_of_app in *.
    destruct Hitem as [Hi | [Hi | [Hi | Hi]]]; apply (subseteq_take m) in Hi; auto.
  - intros Ht Ha Hb Hp Hall.
    rewrite !take_ge in Hperm by assumption. fold (allItems by_type) in Hperm.
    rewrite Hres. unfold slice0. destruct (Z.ltb_spec limit 0) as [Hneg | Hpos].
    + assert (Hempty : allItems by_type = []).
      { apply length_zero_iff_nil. lia. }
      rewrite Hempty in Hperm |- *. apply Permutation_nil_r in Hperm.
      rewrite Hperm. simpl. rewrite take_nil. reflexivity.
    + rewrite take_ge.
      * rewrite sortBy_Permutation. exact Hperm.
      * rewrite (Permutation_length (sortBy_Permutation _ _)), (Permutation_length Hperm).
        exact Hall.
  - intros Hle. rewrite Hres.
    assert (Hm : Z.to_nat (maxPerCategory limit) = 0%nat).
    { rewrite maxPerCategory_eq. assert (0 <= (- limit) / 4) by (apply Z.div_pos; lia). lia. }
    unfold interleave. rewrite Hm. simpl. unfold slice0.
    destruct (limit <? 0); apply take_nil.
Qed.
End SearchProperties.

Lemma searchMultiType_ranks_response_witness :
  let w := cachedClientToken "app-token" 4600000 emptyWorld in
  let queryLower := "queen"%string in
  exists results by_type total_found,
    run (serve queenCatalog) (@searchMultiType Ascii7.runtime "Queen" 20) w
      = (Ok (SearchSuccess results by_type total_found), w,
         [Issued (FetchApi (@searchEndpoint Ascii7.runtime "Queen" 20) "GET"
                    (Some "app-token") None)]) /\
    Permutation (tracks by_type)
      (map (@trackItem Ascii7.runtime queryLower)
         (@dedupTracks Ascii7.runtime (pageItems (data_tracks queenData)))) /\
    StronglySorted inCategoryOrder (tracks by_type) /\
    total_tracks_found total_found = 1000.
Proof.
  intros w queryLower.
  destruct (@searchMultiType_ranks_response Ascii7.runtime (serve queenCatalog) "Queen" 20 w
              "app-token" (respond 200 (Some queenData) None) w queenData
              eq_refl eq_refl eq_refl eq_refl eq_refl eq_refl)
    as (results & by_type & total_found & Hrun & Ht & _ & _ & _ & Hsorted & _ & _ & _ & Htotal).
  exists results, by_type, total_found.
  split; [exact Hrun |]. split; [exact Ht |]. split; [exact Hsorted |].
  rewrite Htotal. reflexivity.
Defined.

Lemma searchMultiType_limit_witness :
  exists results by_type total_found w' trace,
    run (serve queenCatalog) (@searchMultiType Ascii7.runtime "Queen" 40) emptyWorld
      = (Ok (SearchSuccess results by_type total_found), w', trace) /\
    Permutation results (allItems by_type) /\ length results = 20%nat.
Proof.
  destruct (run (serve queenCatalog) (@searchMultiType Ascii7.runtime "Queen" 40) emptyWorld)
    as [[r w'] trace] eqn:Hrun.
  assert (Hshape : exists results by_type total_found,
            r = Ok (SearchSuccess results by_type total_found) /\
            length (tracks by_type) = 10%nat /\ length (artists by_type) = 5%nat /\
            length (albums by_type) = 3%nat /\ length (playlists by_type) = 2%nat).
  { pose proof Hrun as Hvalue. vm_compute in Hvalue. injection Hvalue as Hr _ _.
    rewrite <- Hr. do 3 eexists. repeat split; reflexivity. }
  destruct Hshape as (results & by_type & total_found & -> & Ht & Ha & Hb & Hp).
  exists results, by_type, total_found, w', trace.
  destruct (@searchMultiType_limit Ascii7.runtime (serve queenCatalog) "Queen" 40
              emptyWorld w' trace results by_type total_found Hrun)
    as (_ & Hall & _).
  assert (Hm : Z.to_nat (maxPerCategory 40) = 10%nat) by reflexivity.
  assert (Hperm : Permutation results (allItems by_type)).
  { apply Hall; rewrite ?Hm; unfold allItems; rewrite ?length_app; rewrite ?Ht, ?Ha, ?Hb, ?Hp;
      simpl; lia. }
  split; [reflexivity |]. split; [exact Hperm |].
  rewrite (Permutation_length Hperm). unfold allItems. rewrite !length_app, Ht, Ha, Hb, Hp.
  reflexivity.
Defined.

(** ** The cache helper: further properties *)

Section CacheFurther.
Context `{JsRuntime}.
Variable env : Env.

Lemma getWithCache_read (key : string) (fetcher : M json) (ttl : Z) w reply w1 :
  env _ (RedisGet key) w = (reply, w1) ->
  run env (_getWithCache key fetcher ttl) w =
  match reply with
  | Ok cached =>
      if truthy cached then
        match JSON_parse (default "" cached) with
        | Some v => (Ok v, w1, [Issued (RedisGet key)])
        | None => let '(r, w2, t) := run env fetcher w1 in (r, w2, Issued (RedisGet key) :: t)
        end
      else run env (_getWithCache key fetcher ttl) w
  | Throw _ => let '(r, w2, t) := run env fetcher w1 in (r, w2, Issued (RedisGet key) :: t)
  end.
Proof.
  intros Hget. destruct reply as [cached | e].
  - destruct (truthy cached) eqn:Hhit; [| reflexivity].
    unfold _getWithCache. rewrite run_tryCatch, run_bind, run_await, Hget. simpl.
    rewrite run_bind. unfold run at 1. simpl. rewrite Hhit.
    unfold jsonParse. destruct (JSON_parse (default "" cached)) as [v |].
    + unfold run. simpl. reflexivity.
    + unfold run. simpl. destruct (exec env (fetcher w1)) as [[r w2] t]. reflexivity.
  - unfold _getWithCache. rewrite run_tryCatch, run_bind, run_await, Hget. simpl.
    unfold run. simpl. destruct (exec env (fetcher w1)) as [[r w2] t]. reflexivity.
Qed.

(** X16. A cache hit: when the backend holds a non-empty string under the
    key and the string parses, [_getWithCache] returns the parsed value
    after that one read, whatever the compute function is; when the string
    does not parse, the call ends as one invocation of the compute function
    ends, and nothing is written. *)
Theorem getWithCache_hit (key : string) (fetcher : M json) (ttl : Z) w text w1 :
  env _ (RedisGet key) w = (Ok (Some text), w1) -> text <> ""%string ->
  (forall v, JSON_parse text = Some v ->
     run env (_getWithCache key fetcher ttl) w = (Ok v, w1, [Issued (RedisGet key)])) /\
  (JSON_parse text = None ->
     forall r w2 t, run env fetcher w1 = (r, w2, t) ->
     run env (_getWithCache key fetcher ttl) w = (r, w2, Issued (RedisGet key) :: t)).
Proof.
  intros Hget Hne.
  pose proof (getWithCache_read key fetcher ttl w _ w1 Hget) as Hrun.
  cbv iota in Hrun. rewrite (truthy_Some _ Hne) in Hrun. simpl in Hrun. split.
  - intros v Hv. rewrite Hv in Hrun. exact Hrun.
  - intros Hbad r w2 t Hf. rewrite Hbad, Hf in Hrun. exact Hrun.
Qed.

(** X17. A backend that cannot be read is not fatal: when the read throws,
    the call ends as one invocation of the compute function ends, with its
    value or its error, and nothing is written to the backend. *)
Theorem getWithCache_read_failure (key : string) (fetcher : M json) (ttl : Z) w e w1 r w2 t :
  env _ (RedisGet key) w = (Throw e, w1) ->
  run env fetcher w1 = (r, w2, t) ->
  run env (_getWithCache key fetcher ttl) w = (r, w2, Issued (RedisGet key) :: t).
Proof.
  intros Hget Hf. rewrite (getWithCache_read key fetcher ttl w _ w1 Hget), Hf. reflexivity.
Qed.

(** X18. [_getWithCache] throws only when the compute function does: if
    the compute function returns a value from every world, the call returns
    a value, whatever the backend does. *)
Theorem getWithCache_never_throws (key : string) (fetcher : M json) (ttl : Z) (w : World) :
  (forall w0, exists v w' t, run env fetcher w0 = (Ok v, w', t)) ->
  exists v w' t, run env (_getWithCache key fetcher ttl) w = (Ok v, w', t).
Proof.
  intros Htotal.
  destruct (env _ (RedisGet key) w) as [reply w1] eqn:Hget.
  destruct reply as [cached | e].
  - destruct (truthy cached) eqn:Hhit.
    + rewrite (getWithCache_read key fetcher ttl w _ w1 Hget). cbv iota. rewrite Hhit.
      destruct (JSON_parse (default "" cached)) as [v |]; [eauto |].
      destruct (Htotal w1) as (v & w2 & t & ->). eauto.
    + rewrite (getWithCache_miss env key fetcher ttl w cached w1 Hget Hhit).
      destruct (Htotal w1) as (v & w2 & t & ->).
      destruct (env _ (RedisSet key (JSON_stringify v) ttl) w2) as [[u | e] w3]; [eauto |].
      destruct (Htotal w3) as (v' & w4 & t' & ->). eauto.
  - rewrite (getWithCache_read key fetcher ttl w _ w1 Hget).
    destruct (Htotal w1) as (v & w2 & t & ->). eauto.
Qed.
(** X20. The guarded revision of the helper invokes the compute function
    once: on a miss or a failed read the call ends with the value or the
    error of that one invocation, whether or not the write that may follow
    succeeds. *)
Theorem getWithCache_guarded_single_invocation (key : string) (fetcher : M json) (ttl : Z)
    w reply w1 r w2 t1 :
  env _ (RedisGet key) w = (reply, w1) ->
  (forall cached, reply = Ok cached -> truthy cached = false) ->
  run env fetcher w1 = (r, w2, t1) ->
  exists w3 t2,
    run env (_getWithCache_guarded key fetcher ttl) w
      = (r, w3, Issued (RedisGet key) :: t1 ++ t2) /\
    (t2 = [] /\ w3 = w2 \/
     exists v, r = Ok v /\ isExplicitFailure v = false /\
               t2 = [Issued (RedisSet key (JSON_stringify v) ttl)]).
Proof.
  intros Hget Hmiss Hf. unfold _getWithCache_guarded.
  assert (Hphase : run env
            (tryCatch
               (got <- await (RedisGet key) ;;
                cachedData <- settle got ;;
                if truthy cachedData
                then (v <- jsonParse (default "" cachedData) ;; ret (Some v))
                else ret None)
               (fun error => ret None)) w = (Ok None, w1, [Issued (RedisGet key)])).
  { rewrite run_tryCatch, run_bind, run_await, Hget. cbn [fst snd].
    destruct reply as [cached | e]; unfold run, bind; simpl; [| reflexivity].
    rewrite (Hmiss cached eq_refl). reflexivity. }
  rewrite run_bind, Hphase. cbv iota beta. rewrite run_bind, Hf.
  destruct r as [v | e]; [| exists w2, []; rewrite app_nil_r; auto].
  destruct (jsonTruthy v); [| exists w2, []; unfold run; simpl; rewrite app_nil_r; auto].
  rewrite run_tryCatch. destruct (isExplicitFailure v) eqn:Hexp.
  - exists w2, []. unfold run; simpl. rewrite app_nil_r. auto.
  - rewrite run_bind, run_await.
    destruct (env _ (RedisSet key (JSON_stringify v) ttl) w2) as [[u | e] w3]; cbn [fst snd].
    + exists w3, [Issued (RedisSet key (JSON_stringify v) ttl)].
      unfold run; simpl. split; [reflexivity | right; eauto].
    + exists w3, [Issued (RedisSet key (JSON_stringify v) ttl)].
      unfold run; simpl. split; [reflexivity | right; eauto].
Qed.
End CacheFurther.

Lemma getWithCache_hit_witness :
  run (serve offline) (@_getWithCache Ascii7.runtime "cache:search" failing 3600) warmWorld
  = (Ok noResults, warmWorld, [Issued (RedisGet "cache:search")]).
Proof.
  assert (Hget : serve offline _ (RedisGet "cache:search") warmWorld
                 = (Ok (Some (Ascii7.JSON_stringify noResults)), warmWorld))
    by (vm_compute; reflexivity).
  assert (Hne : Ascii7.JSON_stringify noResults <> ""%string) by (vm_compute; discriminate).
  apply (proj1 (@getWithCache_hit Ascii7.runtime (serve offline) "cache:search" failing 3600
                  warmWorld (Ascii7.JSON_stringify noResults) warmWorld Hget Hne)).
  vm_compute. reflexivity.
Defined.

Lemma getWithCache_read_failure_witness :
  run (serve noRedis) (@_getWithCache Ascii7.runtime "cache:search" reportsFailure 3600)
      emptyWorld
  = (Ok noResults, emptyWorld, [Issued (RedisGet "cache:search")]).
Proof.
  apply (@getWithCache_read_failure Ascii7.runtime (serve noRedis) "cache:search"
           reportsFailure 3600 emptyWorld (NetworkError "redis: connection is closed")
           emptyWorld).
  - reflexivity.
  - reflexivity.
Defined.

Lemma getWithCache_guarded_single_invocation_witness :
  exists w3 t2,
    run (serve readOnlyCache)
        (@_getWithCache_guarded Ascii7.runtime "cache:featured" askCatalog 3600) emptyWorld
    = (Ok (JNum 200), w3,
       Issued (RedisGet "cache:featured") ::
       [Issued (FetchApi "/browse/featured-playlists" "GET" None None)] ++ t2).
Proof.
  destruct (@getWithCache_guarded_single_invocation Ascii7.runtime (serve readOnlyCache)
              "cache:featured" askCatalog 3600 emptyWorld (Ok None) emptyWorld
              (Ok (JNum 200)) emptyWorld
              [Issued (FetchApi "/browse/featured-playlists" "GET" None None)])
    as (w3 & t2 & Hrun & _).
  - reflexivity.
  - intros cached Heq. injection Heq as <-. reflexivity.
  - reflexivity.
  - exists w3, t2. exact Hrun.
Defined.

Lemma getWithCache_never_throws_witness :
  exists v w' t,
    run (serve readOnlyCache) (@_getWithCache Ascii7.runtime "cache:search" reportsFailure 3600)
        emptyWorld = (Ok v, w', t).
Proof.
  apply (@getWithCache_never_throws Ascii7.runtime (serve readOnlyCache) "cache:search"
           reportsFailure 3600 emptyWorld).
  intros w0. exists noResults, w0, []. reflexivity.
Defined.

(** X19. What one call stores, the next call returns without computing:
    over a backend that keeps what is written, after a call that missed and
    computed [v], a second call on the same key returns [v] after one read
    and does not invoke its compute function, provided [v] survives
    [JSON.stringify] and [JSON.parse]. *)
Theorem getWithCache_round_trip `{JsRuntime} (s : Services) (key : string)
    (fetcher fetcher' : M json) (ttl ttl' : Z) w v w2 t1 :
  redisReads s = true -> redisWrites s = true ->
  redisData w !! key = None ->
  run (serve s) fetcher w = (Ok v, w2, t1) ->
  JSON_parse (JSON_stringify v) = Some v -> JSON_stringify v <> ""%string ->
  let w3 := setRedisData (<[key := JSON_stringify v]>) w2 in
  run (serve s) (_getWithCache key fetcher ttl) w
    = (Ok v, w3, Issued (RedisGet key) :: t1 ++ [Issued (RedisSet key (JSON_stringify v) ttl)]) /\
  run (serve s) (_getWithCache key fetcher' ttl') w3 = (Ok v, w3, [Issued (RedisGet key)]).
Proof.
  intros Hreads Hwrites Hmiss Hf Hparse Hne w3. split.
  - rewrite (getWithCache_miss (serve s) key fetcher ttl w None w).
    + rewrite Hf. simpl. rewrite Hwrites. reflexivity.
    + simpl. rewrite Hreads, Hmiss. reflexivity.
    + reflexivity.
  - assert (Hget : serve s _ (RedisGet key) w3 = (Ok (Some (JSON_stringify v)), w3)).
    { simpl. rewrite Hreads. unfold w3. simpl. rewrite lookup_insert_eq. reflexivity. }
    rewrite (getWithCache_read (serve s) key fetcher' ttl' w3 _ w3 Hget).
    cbv iota. rewrite (truthy_Some _ Hne). simpl. rewrite Hparse. reflexivity.
Qed.

Lemma getWithCache_round_trip_witness :
  run (serve offline) (@_getWithCache Ascii7.runtime "cache:search" reportsFailure 3600)
      emptyWorld
    = (Ok noResults, warmWorld,
       [Issued (RedisGet "cache:search");
        Issued (RedisSet "cache:search" (Ascii7.JSON_stringify noResults) 3600)]) /\
  run (serve offline) (@_getWithCache Ascii7.runtime "cache:search" failing 60) warmWorld
    = (Ok noResults, warmWorld, [Issued (RedisGet "cache:search")]).
Proof.
  apply (@getWithCache_round_trip Ascii7.runtime offline "cache:search" reportsFailure failing
           3600 60 emptyWorld noResults emptyWorld []).
  - reflexivity.
  - reflexivity.
  - reflexivity.
  - reflexivity.
  - vm_compute. reflexivity.
  - vm_compute. discriminate.
Defined.

(** ** Media resolver: further properties *)

Section MediaFurther.
Context `{JsRuntime} `{MediaRuntime}.

Lemma searchAndDownload_steps (env : Env) (query : string) (target : option Z)
    (outputPath : string) w searched w1 :
  env _ (Exec (searchCommand query)) (prepared outputPath w) = (searched, w1) ->
  run env (searchAndDownload query target outputPath) w =
  match searchOutput searched with
  | Throw e => (Throw e, w1, [Issued (Exec (searchCommand query))])
  | Ok out =>
      match parseMetadata out with
      | [] => (Throw NoValidVideo, w1, [Issued (Exec (searchCommand query))])
      | videos =>
          match selectVideo target videos with
          | Throw e => (Throw e, w1, [Issued (Exec (searchCommand query))])
          | Ok video =>
              let '(fetched, w2) :=
                env _ (Exec (downloadCommand (video_url video) outputPath)) w1 in
              (downloadOutcome fetched (bool_decide (outputPath ∈ files w2)) outputPath video,
               w2,
               [Issued (Exec (searchCommand query));
                Issued (Exec (downloadCommand (video_url video) outputPath))])
          end
      end
  end.
Proof.
  intros Hsearch. unfold searchAndDownload. rewrite run_getWorld_bind.
  rewrite run_bind.
  assert (Hdir : run env
            (if decide (dirname outputPath ∈ files w) then ret tt
             else modify (setFiles (fun fs => {[dirname outputPath]} ∪ fs))) w
          = (Ok tt, prepared outputPath w, [])).
  { unfold prepared. destruct (decide (dirname outputPath ∈ files w)); reflexivity. }
  rewrite Hdir. cbv iota beta.
  rewrite run_bind, run_await, Hsearch. cbn [fst snd app].
  rewrite run_bind. unfold searchOutput.
  destruct searched as [o | err o eo].
  - unfold run at 1. unfold ret at 1. cbn [exec].
    destruct (parseMetadata (stdout o)) as [| v rest] eqn:Hvideos.
    + reflexivity.
    + rewrite run_bind. destruct (selectVideo target (v :: rest)) as [video | e]; [| reflexivity].
      unfold run at 1. unfold settle, ret at 1. cbn [exec].
      rewrite run_bind, run_await.
      destruct (env _ (Exec (downloadCommand (video_url video) outputPath)) w1)
        as [fetched w2]. cbn [fst snd].
      rewrite run_getWorld_bind. unfold downloadOutcome.
      destruct fetched; destruct (decide (outputPath ∈ files w2)) as [Hin | Hout];
        [ rewrite (bool_decide_eq_true_2 _ Hin) | rewrite (bool_decide_eq_false_2 _ Hout)
        | rewrite (bool_decide_eq_true_2 _ Hin) | rewrite (bool_decide_eq_false_2 _ Hout) ];
        reflexivity.
  - cbv zeta.
    destruct (String.eqb (trim (if truthy o then default ""%string o else ""%string)) "").
    + reflexivity.
    + unfold run at 1. unfold ret at 1. cbn [exec].
      destruct (parseMetadata (if truthy o then default ""%string o else ""%string))
        as [| v rest] eqn:Hvideos.
      * reflexivity.
      * rewrite run_bind.
        destruct (selectVideo target (v :: rest)) as [video | e]; [| reflexivity].
        unfold run at 1. unfold settle, ret at 1. cbn [exec].
        rewrite run_bind, run_await.
        destruct (env _ (Exec (downloadCommand (video_url video) outputPath)) w1)
          as [fetched w2]. cbn [fst snd].
        rewrite run_getWorld_bind. unfold downloadOutcome.
        destruct fetched; destruct (decide (outputPath ∈ files w2)) as [Hin | Hout];
          [ rewrite (bool_decide_eq_true_2 _ Hin) | rewrite (bool_decide_eq_false_2 _ Hout)
          | rewrite (bool_decide_eq_true_2 _ Hin) | rewrite (bool_decide_eq_false_2 _ Hout) ];
          reflexivity.
Qed.

(** X21. The search command is the first thing the resolver runs, and it
    runs in a world where the directory of the output path exists; no file
    that was there is lost on the way. *)
Theorem searchAndDownload_starts (query : string) (target : option Z) (outputPath : string)
    (w : World) :
  exists k,
    searchAndDownload query target outputPath w
      = Await (prepared outputPath w) (Exec (searchCommand query)) k /\
    dirname outputPath ∈ files (prepared outputPath w) /\
    files w ⊆ files (prepared outputPath w).
Proof.
  unfold searchAndDownload, prepared, bind, getWorld, await. cbn [bindA].
  destruct (decide (dirname outputPath ∈ files w)) as [Hin | Hout]; simpl.
  - eexists. split; [reflexivity |]. split; [assumption | reflexivity].
  - eexists. split; [reflexivity |]. split; set_solver.
Qed.

(** X22. A search command that is rejected is fatal only when it left no
    output: with blank or missing output the call throws the fatal search
    error after that one command; with output, the call goes on with that
    output and never ends with the fatal search error. *)
Theorem searchAndDownload_search_rejected (env : Env) (query : string) (target : option Z)
    (outputPath : string) w err out errOut w1 :
  env _ (Exec (searchCommand query)) (prepared outputPath w)
    = (ExecRejected err out errOut, w1) ->
  (trim (default ""%string out) = ""%string ->
   run env (searchAndDownload query target outputPath) w
     = (Throw (SearchFatal err), w1, [Issued (Exec (searchCommand query))])) /\
  (trim (default ""%string out) <> ""%string ->
   forall e, (run env (searchAndDownload query target outputPath) w).1.1
             <> Throw (SearchFatal e)).
Proof.
  intros Hsearch.
  pose proof (searchAndDownload_steps env query target outputPath w _ w1 Hsearch) as Hrun.
  assert (Hout : (if truthy out then default ""%string out else ""%string)
                 = default ""%string out).
  { destruct out as [text |]; [| reflexivity]. simpl.
    destruct (String.eqb_spec text ""); [subst; reflexivity | reflexivity]. }
  unfold searchOutput in Hrun. cbv zeta in Hrun. rewrite Hout in Hrun. split.
  - intros Hblank. rewrite Hblank in Hrun. exact Hrun.
  - intros Htext e. rewrite Hrun.
    destruct (String.eqb_spec (trim (default ""%string out)) ""); [contradiction |].
    destruct (parseMetadata (default ""%string out)) as [| v rest]; [discriminate |].
    destruct (selectVideo target (v :: rest)) as [video | e'] eqn:Hsel.
    + destruct (env _ (Exec (downloadCommand (video_url video) outputPath)) w1)
        as [fetched w2]. simpl. unfold downloadOutcome.
      destruct (bool_decide (outputPath ∈ files w2)); [discriminate |].
      destruct fetched; discriminate.
    + simpl. unfold selectVideo in Hsel.
      destruct (targetSupplied target);
        [destruct (firstInWindow _ _ _) | idtac]; inversion Hsel; discriminate.
Qed.

(** X23. Whether the call succeeds is decided by the output file alone:
    once a candidate is selected, the download command for its URL and the
    output path is run, and the call returns the download exactly when the
    file exists afterwards, also when the command was rejected; without the
    file it throws the download error of a rejected command and the
    missing-file error of one that resolved. *)
Theorem searchAndDownload_download_outcome (env : Env) (query : string) (target : option Z)
    (outputPath : string) w searched w1 out video fetched w2 :
  env _ (Exec (searchCommand query)) (prepared outputPath w) = (searched, w1) ->
  searchOutput searched = Ok out ->
  selectVideo target (parseMetadata out) = Ok video ->
  env _ (Exec (downloadCommand (video_url video) outputPath)) w1 = (fetched, w2) ->
  exists r,
    run env (searchAndDownload query target outputPath) w
      = (r, w2, [Issued (Exec (searchCommand query));
                 Issued (Exec (downloadCommand (video_url video) outputPath))]) /\
    (outputPath ∈ files w2 -> r = Ok (downloaded outputPath video)) /\
    (outputPath ∉ files w2 ->
     match fetched with
     | ExecRejected downloadError _ _ => r = Throw (DownloadFailed downloadError)
     | ExecResolved _ => r = Throw FileMissing
     end).
Proof.
  intros Hsearch Hout Hsel Hdl.
  rewrite (searchAndDownload_steps env query target outputPath w _ w1 Hsearch), Hout.
  destruct (parseMetadata out) as [| v rest] eqn:Hvideos.
  { unfold selectVideo in Hsel. destruct (targetSupplied target); discriminate. }
  rewrite Hsel, Hdl. eexists. split; [reflexivity |]. unfold downloadOutcome. split.
  - intros Hin. rewrite (bool_decide_eq_true_2 _ Hin). reflexivity.
  - intros Hnot. rewrite (bool_decide_eq_false_2 _ Hnot). destruct fetched; reflexivity.
Qed.

(** X24. Without a target duration (none, or 0) the first valid candidate
    is the one downloaded, whatever its duration; and when the search
    output holds no valid candidate, the call throws after the search
    command alone, whatever the target. *)
Theorem searchAndDownload_without_target (env : Env) (query : string) (target : option Z)
    (outputPath : string) w searched w1 out :
  env _ (Exec (searchCommand query)) (prepared outputPath w) = (searched, w1) ->
  searchOutput searched = Ok out ->
  (forall video rest, parseMetadata out = video :: rest -> targetSupplied target = false ->
     exists r w2,
       run env (searchAndDownload query target outputPath) w
         = (r, w2, [Issued (Exec (searchCommand query));
                    Issued (Exec (downloadCommand (video_url video) outputPath))])) /\
  (parseMetadata out = [] ->
     run env (searchAndDownload query target outputPath) w
       = (Throw NoValidVideo, w1, [Issued (Exec (searchCommand query))])).
Proof.
  intros Hsearch Hout.
  rewrite (searchAndDownload_steps env query target outputPath w _ w1 Hsearch), Hout. split.
  - intros video rest Hvideos Hnone. rewrite Hvideos. unfold selectVideo. rewrite Hnone.
    destruct (env _ (Exec (downloadCommand (video_url video) outputPath)) w1)
      as [fetched w2]. eauto.
  - intros Hvideos. rewrite Hvideos. reflexivity.
Qed.

(** X25. Every candidate the resolver considers comes from a non-blank
    line of the search output that parses, has a non-empty URL and a
    numeric duration; there are no more candidates than lines. *)
Theorem parseMetadata_valid (searchStdout : string) :
  Forall (fun video =>
            video_url video <> ""%string /\
            exists line raw,
              line ∈ split "010"%char (trim searchStdout) /\
              trim line <> ""%string /\ parseVideo line = Some raw /\
              webpage_url raw = Some (video_url video) /\
              raw_duration raw = Some (video_duration video))
         (parseMetadata searchStdout) /\
  (length (parseMetadata searchStdout)
   <= length (split "010"%char (trim searchStdout)))%nat.
Proof.
  unfold parseMetadata. split.
  - apply Forall_forall. intros video Hvideo.
    apply list_elem_of_omap in Hvideo as (line & Hline & Hvalid).
    destruct (String.eqb_spec (trim line) ""); [discriminate |].
    destruct (parseVideo line) as [raw |] eqn:Hraw; [| discriminate].
    unfold validVideo in Hvalid.
    destruct (webpage_url raw) as [u |] eqn:Hu; [| discriminate].
    destruct (raw_duration raw) as [d |] eqn:Hd; [| discriminate].
    destruct (String.eqb_spec u ""); [discriminate |].
    injection Hvalid as <-. simpl. split; [assumption |].
    exists line, raw. auto.
  - assert (Hle : forall (f : string -> option Video) lines,
              (length (omap f lines) <= length lines)%nat).
    { intros f lines. induction lines as [| line rest IH]; simpl; [lia |].
      unfold omap in IH. destruct (f line); simpl; lia. }
    apply Hle.
Qed.
End MediaFurther.

(** X26. The query reaches the search command without quotes: the
    sanitized query holds neither a double nor a single quote, a query
    without quotes is passed as it is, and sanitizing twice changes
    nothing. *)
Theorem stripQuotes_removes_quotes (query : string) :
  hasQuote (stripQuotes query) = false /\
  (hasQuote query = false -> stripQuotes query = query) /\
  searchCommand (stripQuotes query) = searchCommand query.
Proof.
  assert (Hnone : forall s, hasQuote (stripQuotes s) = false).
  { unfold hasQuote. induction s as [| c rest IH]; simpl; [reflexivity |].
    destruct (Ascii.eqb c "034" || Ascii.eqb c "'") eqn:Hc; simpl; [assumption |].
    rewrite Hc. assumption. }
  assert (Hsame : forall s, hasQuote s = false -> stripQuotes s = s).
  { unfold hasQuote. induction s as [| c rest IH]; simpl; [reflexivity |].
    intros Hq. apply orb_false_iff in Hq as [Hc Hrest]. rewrite Hc. f_equal. auto. }
  split; [apply Hnone |]. split; [apply Hsame |].
  unfold searchCommand. rewrite (Hsame (stripQuotes query) (Hnone query)). reflexivity.
Qed.

Lemma searchAndDownload_search_rejected_witness :
  exists w1,
    run (serve offline)
        (@searchAndDownload Ascii7.runtime Ascii7.media "Queen Innuendo" None
           "downloads/Queen - Innuendo.mp3") emptyWorld
    = (Throw (SearchFatal (NetworkError "spawn failed")), w1,
       [Issued (Exec (searchCommand "Queen Innuendo"))]).
Proof.
  eexists.
  apply (proj1 (@searchAndDownload_search_rejected Ascii7.runtime Ascii7.media (serve offline)
                  "Queen Innuendo" None "downloads/Queen - Innuendo.mp3" emptyWorld
                  (NetworkError "spawn failed") None None _ eq_refl)).
  reflexivity.
Defined.

Lemma searchAndDownload_download_outcome_witness :
  exists r w2,
    run (serve (flakyDownloader threeVideos "downloads/Queen - Innuendo.mp3"))
        (@searchAndDownload Ascii7.runtime Ascii7.media "Queen Innuendo" (Some 200000)
           "downloads/Queen - Innuendo.mp3") emptyWorld
    = (r, w2,
       [Issued (Exec (searchCommand "Queen Innuendo"));
        Issued (Exec (downloadCommand (video_url (candidate "b" 190))
                        "downloads/Queen - Innuendo.mp3"))]) /\
    r = Ok (downloaded "downloads/Queen - Innuendo.mp3" (candidate "b" 190)).
Proof.
  set (path := "downloads/Queen - Innuendo.mp3"%string).
  set (w1 := setFiles (fun fs => list_to_set [] ∪ fs) (@prepared Ascii7.media path emptyWorld)).
  set (w2 := setFiles (fun fs => list_to_set [path] ∪ fs) w1).
  destruct (@searchAndDownload_download_outcome Ascii7.runtime Ascii7.media
              (serve (flakyDownloader threeVideos path)) "Queen Innuendo" (Some 200000) path
              emptyWorld (ExecResolved {| stdout := threeVideos; stderr := "" |}) w1
              threeVideos (candidate "b" 190)
              (ExecRejected (NetworkError "exit status 1") None None) w2)
    as (r & Hrun & Hpresent & _).
  - reflexivity.
  - reflexivity.
  - vm_compute. reflexivity.
  - reflexivity.
  - exists r, w2. split; [exact Hrun |]. apply Hpresent.
    unfold w2. simpl. set_solver.
Defined.

Lemma searchAndDownload_without_target_witness :
  exists r w2,
    run (serve (mediaIndex threeVideos "downloads/Queen - Innuendo.mp3"))
        (@searchAndDownload Ascii7.runtime Ascii7.media "Queen Innuendo" (Some 0)
           "downloads/Queen - Innuendo.mp3") emptyWorld
    = (r, w2,
       [Issued (Exec (searchCommand "Queen Innuendo"));
        Issued (Exec (downloadCommand (video_url (candidate "a" 170))
                        "downloads/Queen - Innuendo.mp3"))]).
Proof.
  set (path := "downloads/Queen - Innuendo.mp3"%string).
  destruct (@searchAndDownload_without_target Ascii7.runtime Ascii7.media
              (serve (mediaIndex threeVideos path)) "Queen Innuendo" (Some 0) path emptyWorld
              (ExecResolved {| stdout := threeVideos; stderr := "" |})
              (setFiles (fun fs => list_to_set [] ∪ fs) (@prepared Ascii7.media path emptyWorld))
              threeVideos) as [Hfirst _].
  - reflexivity.
  - reflexivity.
  - apply (Hfirst (candidate "a" 170) [candidate "b" 190; candidate "c" 200]).
    + vm_compute. reflexivity.
    + reflexivity.
Defined.

(** ** Signing in: the code exchange *)

Lemma exchangeCodeForTokens_run (env : Env) (code : string) w reply w1 :
  env _ (FetchToken (AuthorizationCodeGrant code)) w = (reply, w1) ->
  run env (exchangeCodeForTokens code) w =
  (match reply with
   | Throw e => Throw e
   | Ok response =>
       if ok response then
         match json_body response with
         | Some td => Ok td
         | None => Throw BodyError
         end
       else
         match error_json response, text_body response with
         | None, None => Throw BodyError
         | _, _ => Throw (ApiError (status response) None)
         end
   end, w1, [Issued (FetchToken (AuthorizationCodeGrant code))]).
Proof.
  intros Henv. unfold exchangeCodeForTokens.
  rewrite run_rethrow, run_bind, run_await, Henv. cbn [fst snd].
  destruct reply as [response | e]; [| reflexivity].
  unfold run, bind, settle. simpl. destruct (ok response); simpl.
  - unfold responseJson. destruct (json_body response); reflexivity.
  - unfold responseJsonOrText. destruct (error_json response); simpl; [reflexivity |].
    unfold responseText, bind. destruct (text_body response); reflexivity.
Qed.

(** X27. Signing in. When the provider answers the code exchange with
    2xx and a body that carries an access token lasting more than 60
    seconds, the exchange followed by [setUserTokens] leaves the session
    with the record built from the answer, and [getUserTokens] then returns
    that record without a request. When the exchange fails or is answered
    outside 2xx, it throws, [setUserTokens] is not reached and the world is
    as the reply left it. *)
Theorem exchange_then_tokens (env : Env) (sid code : string) w reply w1 :
  env _ (FetchToken (AuthorizationCodeGrant code)) w = (reply, w1) ->
  (forall response td,
     reply = Ok response -> ok response = true -> json_body response = Some td ->
     truthy (access_token td) = true -> 60 < expires_in td ->
     let record := tokensOf td (now w1) in
     run env (exchangeAndStore (Some sid) code) w
       = (Ok tt, stored sid record w1, [Issued (FetchToken (AuthorizationCodeGrant code))]) /\
     run env (getUserTokens (Some sid)) (stored sid record w1)
       = (Ok (Some record), stored sid record w1, [])) /\
  (match reply with
   | Throw _ => True
   | Ok response => ok response = false
   end ->
   exists e, run env (exchangeAndStore (Some sid) code) w
             = (Throw e, w1, [Issued (FetchToken (AuthorizationCodeGrant code))])).
Proof.
  intros Henv. pose proof (exchangeCodeForTokens_run env code w reply w1 Henv) as Hrun. split.
  - intros response td -> Hok Hbody Htruthy Hlong record.
    rewrite Hok, Hbody in Hrun. split.
    + unfold exchangeAndStore. rewrite run_bind, Hrun.
      unfold run. rewrite (setUserTokens_run sid td w1 Htruthy). reflexivity.
    + unfold run. rewrite (getUserTokens_fresh (stored sid record w1) sid record).
      * reflexivity.
      * apply lookup_insert_eq.
      * unfold record, tokensOf. simpl. lia.
  - intros Hfail. unfold exchangeAndStore. rewrite run_bind, Hrun.
    destruct reply as [response | e]; [| eauto].
    rewrite Hfail. destruct (error_json response), (text_body response); eauto.
Qed.

Lemma exchange_then_tokens_witness :
  let record := {| accessToken := "user-access"; refreshToken := Some "refresh-1";
                   expiresAt := 4600000; scope := Some "user-read-email" |} in
  run (serve signingIn) (exchangeAndStore (Some "sess-7") "code-1") emptyWorld
    = (Ok tt, stored "sess-7" record emptyWorld,
       [Issued (FetchToken (AuthorizationCodeGrant "code-1"))]) /\
  run (serve signingIn) (getUserTokens (Some "sess-7")) (stored "sess-7" record emptyWorld)
    = (Ok (Some record), stored "sess-7" record emptyWorld, []).
Proof.
  apply (proj1 (exchange_then_tokens (serve signingIn) "sess-7" "code-1" emptyWorld _ emptyWorld
                  eq_refl) _ _ eq_refl eq_refl eq_refl eq_refl eq_refl).
Defined.

(** ** Track search: properties *)

Lemma insertBy_ascending (x : Z) (l : list Z) :
  StronglySorted Z.le l -> StronglySorted Z.le (insertBy (fun a b => inject_Z (a - b)) x l).
Proof.
  induction l as [| y rest IH]; intros Hsorted; simpl.
  - repeat constructor.
  - apply StronglySorted_inv in Hsorted as [Hrest Hy].
    destruct (Qle_bool (inject_Z (x - y)) 0) eqn:Hle.
    + apply Qle_bool_iff in Hle. unfold Qle in Hle. simpl in Hle.
      constructor; [constructor; assumption |].
      constructor; [lia |].
      eapply Forall_impl; [exact Hy |]. intros z Hz. simpl in Hz. lia.
    + assert (Hgt : y <= x).
      { destruct (Z.le_gt_cases y x) as [Hyx | Hxy]; [assumption |].
        exfalso. assert (Htrue : Qle_bool (inject_Z (x - y)) 0 = true).
        { apply Qle_bool_iff. unfold Qle. simpl. lia. }
        congruence. }
      constructor; [apply IH; assumption |].
      eapply Permutation_Forall; [symmetry; apply insertBy_Permutation |].
      constructor; assumption.
Qed.

Lemma sortedDurations_sorted (trackGroup : list RawTrack) :
  Permutation (sortedDurations trackGroup) (map duration_ms trackGroup) /\
  StronglySorted Z.le (sortedDurations trackGroup).
Proof.
  unfold sortedDurations. split; [apply sortBy_Permutation |].
  induction (map duration_ms trackGroup) as [| x rest IH]; simpl; [constructor |].
  apply insertBy_ascending. assumption.
Qed.

Lemma fold_closerTrack (median : Q) (todo : list RawTrack) :
  forall (done : list RawTrack) (closest : RawTrack),
    nearestTo median closest done ->
    nearestTo median
      (fold_left (closerTrack median) todo (closest, Some (diffTo median closest))).1
      (done ++ todo).
Proof.
  induction todo as [| t todo IH]; intros done closest Hnear; simpl.
  - rewrite app_nil_r. assumption.
  - replace (done ++ t :: todo) with ((done ++ [t]) ++ todo)
      by (rewrite <- app_assoc; reflexivity).
    destruct Hnear as (before & after & -> & Hbefore & Hafter).
    unfold closerTrack at 2. cbn [snd].
    destruct (Qle_bool (diffTo median closest) (diffTo median t)) eqn:Hle; cbn [negb].
    + apply IH. exists before, (after ++ [t]). split; [| split].
      * rewrite <- app_assoc. reflexivity.
      * assumption.
      * apply Forall_app. split; [assumption |]. constructor; [| constructor].
        apply Qle_bool_iff. assumption.
    + assert (Hlt : (diffTo median t < diffTo median closest)%Q).
      { apply Qnot_le_lt. intros Habs. apply Qle_bool_iff in Habs. congruence. }
      apply IH. exists (before ++ closest :: after), []. split; [| split].
      * reflexivity.
      * apply Forall_app. split.
        -- eapply Forall_impl; [exact Hbefore |]. intros z Hz. simpl in Hz. lra.
        -- constructor; [assumption |].
           eapply Forall_impl; [exact Hafter |]. intros z Hz. simpl in Hz. lra.
      * constructor.
Qed.

Lemma selectRepresentativeTrack_spec (trackGroup : list RawTrack) :
  trackGroup <> [] ->
  exists representative,
    _selectRepresentativeTrack trackGroup = Some representative /\
    representative ∈ trackGroup /\
    ((2 <= length trackGroup)%nat ->
     nearestTo (medianDuration (sortedDurations trackGroup)) representative trackGroup) /\
    (length trackGroup = 1%nat -> trackGroup = [representative]).
Proof.
  destruct trackGroup as [| first [| second rest]]; [congruence | |]; intros _.
  - exists first. split; [reflexivity |]. split; [apply list_elem_of_singleton; reflexivity |].
    split; [simpl; lia | reflexivity].
  - set (group := first :: second :: rest).
    set (median := medianDuration (sortedDurations group)).
    assert (Hnear : nearestTo median
              (fold_left (closerTrack median) group (first, None)).1 group).
    { unfold group at 1. cbn [fold_left]. unfold closerTrack at 2. cbn [snd].
      apply (fold_closerTrack median (second :: rest) [first] first).
      exists [], []. repeat split; constructor. }
    exists (fold_left (closerTrack median) group (first, None)).1.
    split; [reflexivity |]. split; [| split; [intros _; exact Hnear | simpl; lia]].
    destruct Hnear as (before & after & Heq & _). rewrite Heq at 2.
    apply elem_of_app. right. apply elem_of_cons. left. reflexivity.
Qed.

(** X28. The representative of a group in [searchTrack] and
    [_selectRepresentativeTrack]: the durations are sorted in ascending
    order; the representative of a group of two or more tracks is the first
    track, in the order of the group, whose duration is nearest to the
    median duration, and the representative of a group of one is its
    track. *)
Theorem selectRepresentativeTrack_nearest_median (trackGroup : list RawTrack) :
  trackGroup <> [] ->
  let durations := sortedDurations trackGroup in
  Permutation durations (map duration_ms trackGroup) /\ StronglySorted Z.le durations /\
  exists representative,
    _selectRepresentativeTrack trackGroup = Some representative /\
    representative ∈ trackGroup /\
    ((2 <= length trackGroup)%nat ->
     nearestTo (medianDuration durations) representative trackGroup) /\
    (length trackGroup = 1%nat -> trackGroup = [representative]).
Proof.
  intros Hne durations. destruct (sortedDurations_sorted trackGroup) as [Hperm Hsorted].
  split; [exact Hperm |]. split; [exact Hsorted |].
  apply selectRepresentativeTrack_spec. assumption.
Qed.

Lemma selectRepresentativeTrack_nearest_median_witness :
  sortedDurations versions = [200000; 210000; 260000] /\
  (medianDuration (sortedDurations versions) == 210000)%Q /\
  _selectRepresentativeTrack versions = Some (hello 210000 10 "middle") /\
  nearestTo (medianDuration (sortedDurations versions)) (hello 210000 10 "middle") versions.
Proof.
  assert (Hne : versions <> []) by discriminate.
  destruct (selectRepresentativeTrack_nearest_median versions Hne)
    as (_ & _ & representative & Hsel & _ & Hnear & _).
  assert (Hrep : representative = hello 210000 10 "middle").
  { vm_compute in Hsel. injection Hsel as <-. reflexivity. }
  subst representative.
  split; [reflexivity |]. split; [reflexivity |]. split; [reflexivity |].
  apply Hnear. simpl. lia.
Defined.

Section TrackSearchProperties.
Context `{JsRuntime}.

Lemma summaries_representatives (image : list Image -> option string)
    (groupedTracks : list (string * list RawTrack)) :
  Forall (fun g => g.2 <> []) groupedTracks ->
  Forall2 (fun g s => exists representative,
             _selectRepresentativeTrack g.2 = Some representative /\
             s = trackSummary image representative)
          groupedTracks (summaries image groupedTracks).
Proof.
  unfold summaries. induction groupedTracks as [| [k g] rest IH]; intros Hne; simpl;
    [constructor |].
  apply Forall_cons in Hne as [Hg Hrest]. simpl in Hg.
  destruct (selectRepresentativeTrack_spec g Hg) as (r & Hr & _).
  rewrite Hr. simpl. constructor; [exists r; auto | apply IH; assumption].
Qed.

Lemma groupTracks_nonempty (hits : list RawTrack) :
  Forall (fun g => g.2 <> [] /\ g.2 ⊆ hits) (groupTracks hits).
Proof.
  destruct (groupTracks_grouped hits) as (_ & Hgroups & _).
  apply Forall_forall. intros [k g] Hin. destruct (Hgroups k g Hin) as [Hfilter Hne].
  simpl. split; [assumption |]. rewrite Hfilter. intros t Ht.
  apply list_elem_of_filter in Ht. tauto.
Qed.

(** [searchTrack] never throws. *)
Lemma searchTrack_never_throws (env : Env) (query : string) (limit : Z) (w : World) :
  exists outcome w' trace, run env (searchTrack query limit) w = (Ok outcome, w', trace).
Proof.
  unfold searchTrack. rewrite run_tryCatch.
  destruct (run env _ w) as [[[outcome | e] w1] t1]; [eauto |].
  unfold run, ret. simpl. eauto.
Qed.

(** X29. With a token at hand and a 2xx answer whose body lists track
    hits, [searchTrack] sends one request, with the caller's limit as it
    is, and answers with one track per group of hits that share the
    lower-cased name and first artist, in the order in which the groups
    first appear, each the median representative of its group; with an
    empty list of hits it answers that nothing was found. *)
Theorem searchTrack_answers (env : Env) (query : string) (limit : Z) w c resp w1
    (data : SearchData) (page : Page RawTrack) (hits : list RawTrack) :
  clientTokenValid w = true -> clientCredentialsToken w = Some c ->
  env _ (FetchApi (searchTrackEndpoint query limit) "GET" (Some c) None) w = (Ok resp, w1) ->
  ok resp = true -> (status resp =? 204) || emptyBody resp = false ->
  json_body resp = Some data -> data_tracks data = Some page -> items page = Some hits ->
  exists outcome,
    run env (searchTrack query limit) w
      = (Ok outcome, w1,
         [Issued (FetchApi (searchTrackEndpoint query limit) "GET" (Some c) None)]) /\
    (hits = [] -> outcome = NoTracksFound) /\
    (hits <> [] ->
     exists tracks,
       outcome = TracksFound tracks /\
       Forall2 (fun g s => exists representative,
                  _selectRepresentativeTrack g.2 = Some representative /\
                  s = trackSummary firstImage representative)
               (groupTracks hits) tracks).
Proof.
  intros Hvalid Hc Henv Hok Hbody Hjson Hpage Hhits.
  assert (Hrequest : run env (_makeApiRequest None (searchTrackEndpoint query limit) "GET" None) w
            = (Ok (Some data), w1,
               [Issued (FetchApi (searchTrackEndpoint query limit) "GET" (Some c) None)])).
  { rewrite makeApiRequest_anonymous by exact I.
    rewrite (sendWithToken_client env c _ _ _ w _ w1 Hvalid Hc Henv).
    unfold readApiResponse, run, bind, settle. simpl. rewrite Hok. simpl.
    rewrite Hbody. unfold responseJson. rewrite Hjson. reflexivity. }
  unfold searchTrack. rewrite run_tryCatch, run_bind, Hrequest. cbv iota beta.
  rewrite Hpage, Hhits. destruct hits as [| hit rest].
  - exists NoTracksFound. split; [reflexivity |]. split; [reflexivity | congruence].
  - eexists. split; [reflexivity |]. split; [discriminate |]. intros _.
    eexists. split; [reflexivity |].
    apply summaries_representatives.
    eapply Forall_impl; [apply groupTracks_nonempty |]. intros g [Hg _]. exact Hg.
Qed.

End TrackSearchProperties.

Lemma searchTrack_answers_witness :
  exists outcome,
    run (serve helloCatalog) (@searchTrack Ascii7.runtime "hello adele" 10)
        (cachedClientToken "app-token" 4600000 emptyWorld)
    = (Ok outcome, cachedClientToken "app-token" 4600000 emptyWorld,
       [Issued (FetchApi "/search?q=hello%20adele&type=track&market=IT&limit=10" "GET"
                  (Some "app-token") None)]) /\
    outcome = TracksFound [trackSummary firstImage (hello 210000 10 "middle")].
Proof.
  destruct (@searchTrack_answers Ascii7.runtime (serve helloCatalog) "hello adele" 10
              (cachedClientToken "app-token" 4600000 emptyWorld) "app-token"
              (respond 200
                 (Some {| data_tracks := Some {| items := Some versions; total := Some 3 |};
                          data_artists := None; data_albums := None;
                          data_playlists := None |}) None)
              (cachedClientToken "app-token" 4600000 emptyWorld)
              {| data_tracks := Some {| items := Some versions; total := Some 3 |};
                 data_artists := None; data_albums := None; data_playlists := None |}
              {| items := Some versions; total := Some 3 |} versions
              eq_refl eq_refl eq_refl eq_refl eq_refl eq_refl eq_refl eq_refl)
    as (outcome & Hrun & _ & Hfound).
  exists outcome. split; [exact Hrun |].
  destruct Hfound as (tracks & -> & Hall); [discriminate |].
  vm_compute in Hrun. injection Hrun as Heq. rewrite <- Heq. reflexivity.
Defined.


(** ** Media resolver: the duration window, end to end *)

Lemma tolerance_bounds (targetSeconds : Q) :
  (5 <= tolerance targetSeconds <= 15)%Q.
Proof.
  unfold tolerance. split.
  - apply Q.le_max_l.
  - apply Q.max_lub; [discriminate |]. apply Q.le_min_l.
Qed.

Lemma firstWithin_unique (ms : Z) (video video' : Video) (videos : list Video) :
  firstWithin ms video videos -> firstWithin ms video' videos -> video = video'.
Proof.
  intros (b1 & a1 & H1 & Hin1 & Hout1) (b2 & a2 & H2 & Hin2 & Hout2).
  rewrite H1 in H2. clear H1. revert b2 H2 Hout2.
  induction b1 as [| x b1 IH]; intros [| y b2] Heq Hout2; simpl in Heq.
  - congruence.
  - injection Heq as <- _. apply Forall_cons in Hout2 as [Habs _]. contradiction.
  - injection Heq as -> _. apply Forall_cons in Hout1 as [Habs _]. contradiction.
  - injection Heq as _ Heq. apply Forall_cons in Hout1 as [_ Hout1].
    apply Forall_cons in Hout2 as [_ Hout2]. eapply IH; eassumption.
Qed.

Lemma selectVideo_first (ms : Z) (videos : list Video) :
  ms <> 0 ->
  (forall video, firstWithin ms video videos -> selectVideo (Some ms) videos = Ok video) /\
  (Forall (fun v => ~ withinWindow ms v) videos ->
   selectVideo (Some ms) videos = Throw (NoDurationMatch (length videos))).
Proof.
  intros Hms. pose proof (selectVideo_window ms videos Hms) as Hsel. split.
  - intros video Hfirst. destruct (selectVideo (Some ms) videos) as [chosen | e].
    + f_equal. eapply firstWithin_unique; [exact Hsel | exact Hfirst].
    + destruct Hsel as [_ Hnone]. destruct Hfirst as (before & after & -> & Hin & _).
      apply Forall_app in Hnone as [_ Hnone]. apply Forall_cons in Hnone as [Habs _].
      contradiction.
  - intros Hnone. destruct (selectVideo (Some ms) videos) as [chosen | e].
    + destruct Hsel as (before & after & -> & Hin & _).
      apply Forall_app in Hnone as [_ Hnone]. apply Forall_cons in Hnone as [Habs _].
      contradiction.
    + destruct Hsel as [-> _]. reflexivity.
Qed.

(** C9, as the code has it. The tolerance is the tenth of the target in
    seconds, computed in double arithmetic and clamped to [5, 15]. For a
    target other than 0 the resolver selects the first candidate, in the
    order of the list, whose duration lies between target - tolerance and
    target + tolerance as double arithmetic gives them, and throws the
    no-match failure when there is none. End to end: the download command
    is run for that first candidate of the parsed search output and for no
    other, and when no candidate lies within the window the call throws the
    no-match failure after the search command alone. For a target of
    200000 ms the window is [185, 215]: 190 s is within, 170 s is not. *)
Theorem media_duration_window :
  (forall targetSeconds : Q,
     tolerance targetSeconds
       = clamp (Double.mul targetSeconds (Double.literal 0.10)) 5 15 /\
     (5 <= tolerance targetSeconds <= 15)%Q) /\
  (forall (ms : Z) (videos : list Video),
     ms <> 0 ->
     (forall video, firstWithin ms video videos -> selectVideo (Some ms) videos = Ok video) /\
     (Forall (fun v => ~ withinWindow ms v) videos ->
      selectVideo (Some ms) videos = Throw (NoDurationMatch (length videos)))) /\
  (forall (rt : JsRuntime) (mrt : MediaRuntime) (env : Env) (query outputPath : string)
          (ms : Z) w searched w1 out,
     ms <> 0 ->
     env _ (Exec (searchCommand query)) (prepared outputPath w) = (searched, w1) ->
     searchOutput searched = Ok out ->
     (forall video fetched w2,
        firstWithin ms video (parseMetadata out) ->
        env _ (Exec (downloadCommand (video_url video) outputPath)) w1 = (fetched, w2) ->
        run env (searchAndDownload query (Some ms) outputPath) w
          = (downloadOutcome fetched (bool_decide (outputPath ∈ files w2)) outputPath video,
             w2,
             [Issued (Exec (searchCommand query));
              Issued (Exec (downloadCommand (video_url video) outputPath))])) /\
     (parseMetadata out <> [] ->
      Forall (fun v => ~ withinWindow ms v) (parseMetadata out) ->
      run env (searchAndDownload query (Some ms) outputPath) w
        = (Throw (NoDurationMatch (length (parseMetadata out))), w1,
           [Issued (Exec (searchCommand query))]))) /\
  (((windowOf 200000).1 == 185 /\ (windowOf 200000).2 == 215)%Q /\
   withinWindow 200000 (candidate "b" 190) /\
   ~ withinWindow 200000 (candidate "a" 170)).
Proof.
  split; [intros targetSeconds; split; [reflexivity | apply tolerance_bounds] |].
  split; [exact selectVideo_first |].
  split.
  - intros rt mrt env query outputPath ms w searched w1 out Hms Hsearch Hout.
    pose proof (searchAndDownload_steps env query (Some ms) outputPath w searched w1 Hsearch)
      as Hrun.
    rewrite Hout in Hrun. split.
    + intros video fetched w2 Hvideo Hdl.
      destruct (parseMetadata out) as [| v rest] eqn:Hvideos.
      { destruct Hvideo as (before & after & Habs & _). destruct before; discriminate. }
      destruct (selectVideo_first ms (v :: rest) Hms) as [Hfirst _].
      rewrite (Hfirst video Hvideo), Hdl in Hrun. exact Hrun.
    + intros Hne Hall.
      destruct (parseMetadata out) as [| v rest] eqn:Hvideos; [congruence |].
      destruct (selectVideo_first ms (v :: rest) Hms) as [_ Hnone].
      rewrite (Hnone Hall) in Hrun. exact Hrun.
  - split; [split; vm_compute; reflexivity |]. split.
    + split; vm_compute; discriminate.
    + intros [Hlo _]. vm_compute in Hlo. apply Hlo. reflexivity.
Qed.

Lemma media_duration_window_witness :
  selectVideo (Some 200000) [candidate "a" 170; candidate "b" 190; candidate "c" 200]
    = Ok (candidate "b" 190) /\
  (exists w2,
     run (serve (mediaIndex threeVideos "downloads/Queen - Innuendo.mp3"))
         (@searchAndDownload Ascii7.runtime Ascii7.media "Queen Innuendo" (Some 200000)
            "downloads/Queen - Innuendo.mp3") emptyWorld
     = (Ok (downloaded "downloads/Queen - Innuendo.mp3" (candidate "b" 190)), w2,
        [Issued (Exec (searchCommand "Queen Innuendo"));
         Issued (Exec (downloadCommand (video_url (candidate "b" 190))
                         "downloads/Queen - Innuendo.mp3"))])) /\
  selectVideo (Some 200000) [candidate "a" 170; candidate "d" 230]
    = Throw (NoDurationMatch 2).
Proof.
  destruct media_duration_window as (_ & Hsel & Hrun & (_ & Hb & Ha)).
  assert (Hms : 200000 <> 0) by discriminate.
  assert (Hd : ~ withinWindow 200000 (candidate "d" 230)).
  { intros [_ Hhi]. vm_compute in Hhi. apply Hhi. reflexivity. }
  assert (Hfirst : firstWithin 200000 (candidate "b" 190)
                     [candidate "a" 170; candidate "b" 190; candidate "c" 200]).
  { exists [candidate "a" 170], [candidate "c" 200].
    split; [reflexivity |]. split; [exact Hb |]. constructor; [exact Ha | constructor]. }
  split; [apply (proj1 (Hsel 200000 _ Hms)); exact Hfirst |].
  split.
  - set (path := "downloads/Queen - Innuendo.mp3"%string).
    set (w1 := setFiles (fun fs => list_to_set [] ∪ fs) (@prepared Ascii7.media path emptyWorld)).
    set (w2 := setFiles (fun fs => list_to_set [path] ∪ fs) w1).
    exists w2.
    destruct (Hrun Ascii7.runtime Ascii7.media (serve (mediaIndex threeVideos path))
                "Queen Innuendo" path 200000 emptyWorld
                (ExecResolved {| stdout := threeVideos; stderr := "" |}) w1 threeVideos
                Hms eq_refl eq_refl) as [Hdownload _].
    rewrite (Hdownload (candidate "b" 190) (ExecResolved {| stdout := ""; stderr := "" |}) w2).
    + rewrite bool_decide_eq_true_2; [reflexivity |]. unfold w2. simpl. set_solver.
    + assert (Hparsed : @parseMetadata Ascii7.runtime Ascii7.media threeVideos
                        = [candidate "a" 170; candidate "b" 190; candidate "c" 200])
        by (vm_compute; reflexivity).
      rewrite Hparsed. exact Hfirst.
    + reflexivity.
  - apply (proj2 (Hsel 200000 [candidate "a" 170; candidate "d" 230] Hms)).
    constructor; [exact Ha |]. constructor; [exact Hd | constructor].
Defined.

(** C9, where the claim fails. A target of 0 counts as not supplied: the
    first valid candidate is selected and downloaded though its 170 s lie
    outside the window [-5, 5] of the target. And the bounds are those of
    double arithmetic: for a target of 50008 ms the candidate whose
    duration is the double nearest to 55.0088 s is selected, though that
    duration exceeds target + tolerance = 55.0088 s. *)
Lemma media_window_not_applied :
  (selectVideo (Some 0) [candidate "a" 170; candidate "b" 190] = Ok (candidate "a" 170) /\
   ~ withinWindow 0 (candidate "a" 170) /\
   ~ withinExactWindow 0 (candidate "a" 170) /\
   exists w2,
     run (serve (mediaIndex threeVideos "downloads/Queen - Innuendo.mp3"))
         (@searchAndDownload Ascii7.runtime Ascii7.media "Queen Innuendo" (Some 0)
            "downloads/Queen - Innuendo.mp3") emptyWorld
     = (Ok (downloaded "downloads/Queen - Innuendo.mp3" (candidate "a" 170)), w2,
        [Issued (Exec (searchCommand "Queen Innuendo"));
         Issued (Exec (downloadCommand (video_url (candidate "a" 170))
                         "downloads/Queen - Innuendo.mp3"))])) /\
  (selectVideo (Some 50008) [edgeCandidate] = Ok edgeCandidate /\
   ((exactWindow 50008).2 == 55.0088)%Q /\
   ~ withinExactWindow 50008 edgeCandidate).
Proof.
  split; [split; [reflexivity |]; split; [| split] | split; [| split]].
  - intros [_ Hhi]. vm_compute in Hhi. apply Hhi. reflexivity.
  - intros [_ Hhi]. vm_compute in Hhi. apply Hhi. reflexivity.
  - eexists. vm_compute. reflexivity.
  - vm_compute. reflexivity.
  - vm_compute. reflexivity.
  - intros [_ Hhi]. vm_compute in Hhi. apply Hhi. reflexivity.
Qed.

(** ** Search aggregator: one track per group, end to end *)

(** The ranking follows the rounding of doubles: the playlist that scores
    1 + 61 * 0.2 = 13.200000000000001 comes before the one that scores
    11 + 11 * 0.2 = 13.2, and with a limit of 4, which lets one playlist
    through, it is the one returned. *)
Example ranking_follows_double_rounding :
  match @aggregate Ascii7.runtime "rock" 4 rockData with
  | SearchSuccess results by_type _ =>
      map spotify_id (playlists by_type) = ["A"; "B"]%string /\
      map spotify_id results = ["A"]%string /\
      map relevance (playlists by_type)
        = [7430939385161319 # 562949953421312; 7430939385161318 # 562949953421312]
  | SearchFailure _ => False
  end /\
  (1 + 61 * 0.2 == 11 + 11 * 0.2)%Q.
Proof. vm_compute. repeat split. Qed.

Section OnePerGroup.
Context `{JsRuntime}.

Lemma searchMultiType_of_response (env : Env) (query : string) (limit : Z) w data w1 trace :
  run env (_makeApiRequest None (searchEndpoint query limit) "GET" None) w
    = (Ok (Some data), w1, trace) ->
  run env (searchMultiType query limit) w = (Ok (aggregate query limit data), w1, trace).
Proof.
  intros Hrequest. unfold searchMultiType. rewrite run_tryCatch, run_bind, Hrequest.
  unfold run, ret. simpl. rewrite app_nil_r. reflexivity.
Qed.

Lemma dedupTracks_groups (hits : list RawTrack) :
  Forall2 (fun group best => bestTrack group.2 = Some best /\ representative best group.2)
          (groupTracks hits) (dedupTracks hits).
Proof.
  unfold dedupTracks.
  destruct (groupTracks_grouped hits) as (_ & Hgroups & _).
  induction (groupTracks hits) as [| [k g] rest IH]; simpl; [constructor |].
  destruct (bestTrack_representative g) as (best & Hbest & Hrep).
  { apply (Hgroups k g). apply elem_of_cons. auto. }
  rewrite Hbest. constructor; [simpl; auto |].
  apply IH. intros k' g' Hin. apply Hgroups. apply elem_of_cons. auto.
Qed.

(** C6, as the code has it. The track hits of the response are grouped by
    the key string made of the lower-cased track name, a bar and the
    lower-cased name of the first artist (nothing after the bar for a hit
    without artists): each group holds the hits of its key in their order of
    arrival, the groups have distinct keys and every hit is in the group of
    its key. The representative of a group is one of its hits with the
    highest popularity and, among its hits of that popularity, one whose
    duration is nearest to 210000 ms. The track list [searchMultiType]
    answers with holds exactly one item per group, the item of its
    representative. *)
Theorem track_deduplication (env : Env) (query : string) (limit : Z) w
    (data : SearchData) w1 trace :
  run env (_makeApiRequest None (searchEndpoint query limit) "GET" None) w
    = (Ok (Some data), w1, trace) ->
  let hits := pageItems (data_tracks data) in
  exists results by_type total_found,
    run env (searchMultiType query limit) w
      = (Ok (SearchSuccess results by_type total_found), w1, trace) /\
    Permutation (tracks by_type)
      (map (trackItem (trim (toLowerCase query))) (dedupTracks hits)) /\
    length (tracks by_type) = length (groupTracks hits) /\
    Forall2 (fun group best => bestTrack group.2 = Some best /\ representative best group.2)
            (groupTracks hits) (dedupTracks hits) /\
    NoDup (groupTracks hits).*1 /\
    (forall key group, (key, group) ∈ groupTracks hits ->
       group <> [] /\ group = filter (fun t => trackKey t = key) hits) /\
    (forall t, t ∈ hits -> exists group, (trackKey t, group) ∈ groupTracks hits) /\
    (forall t, trackKey t = toLowerCase (track_name t) +:+ "|" +:+
                            toLowerCase (firstArtistName (track_artists t)) \/
               (track_artists t = [] /\ trackKey t = toLowerCase (track_name t) +:+ "|")).
Proof.
  intros Hrequest hits.
  pose proof (searchMultiType_of_response env query limit w data w1 trace Hrequest) as Hrun.
  unfold aggregate in Hrun. do 3 eexists. split; [exact Hrun |].
  cbn [tracks sortCategories collect]. fold hits.
  destruct (groupTracks_grouped hits) as (Hnd & Hgroups & Hkeys).
  pose proof (dedupTracks_groups hits) as Hreps.
  split; [apply sortBy_Permutation |].
  split.
  { rewrite (Permutation_length (sortBy_Permutation _ _)), length_map.
    symmetry. exact (Forall2_length _ _ _ Hreps). }
  split; [exact Hreps |]. split; [exact Hnd |]. split; [| split].
  - intros key group Hin. destruct (Hgroups key group Hin). auto.
  - intros t Ht. specialize (Hkeys t Ht).
    apply list_elem_of_fmap in Hkeys as ([k g] & Hk & Hin). simpl in Hk. subst.
    exists g. assumption.
  - intros t. unfold trackKey, firstArtistName.
    destruct (track_artists t) as [| a rest]; [right; auto | left; reflexivity].
Qed.
End OnePerGroup.

Lemma track_deduplication_witness :
  let w := cachedClientToken "app-token" 4600000 emptyWorld in
  exists results by_type total_found trace,
    run (serve adeleCatalog) (@searchMultiType Ascii7.runtime "hello" 20) w
      = (Ok (SearchSuccess results by_type total_found), w, trace) /\
    @groupTracks Ascii7.runtime [hello 295000 80 "a"; hello 200000 95 "b"]
      = [("hello|adele"%string, [hello 295000 80 "a"; hello 200000 95 "b"])] /\
    tracks by_type = [@trackItem Ascii7.runtime "hello" (hello 200000 95 "b")] /\
    map spotify_id results = ["b"%string].
Proof.
  intros w.
  destruct (@track_deduplication Ascii7.runtime (serve adeleCatalog) "hello" 20 w adeleData w
              [Issued (FetchApi (@searchEndpoint Ascii7.runtime "hello" 20) "GET"
                         (Some "app-token") None)])
    as (results & by_type & total_found & Hrun & Hperm & _).
  { vm_compute. reflexivity. }
  exists results, by_type, total_found. eexists. split; [exact Hrun |].
  split; [reflexivity |].
  assert (Hone : @dedupTracks Ascii7.runtime (pageItems (data_tracks adeleData))
                 = [hello 200000 95 "b"]) by reflexivity.
  rewrite Hone in Hperm. simpl in Hperm. apply Permutation_singleton_r in Hperm.
  split; [exact Hperm |].
  pose proof Hrun as Hvalue. vm_compute in Hvalue. injection Hvalue as Hresults _ _.
  rewrite <- Hresults. reflexivity.
Defined.

(** C6, where the claim fails. The groups are those of the key string, not
    of the pair: the hit named a|b by c and the hit named a by b|c differ in
    name and in artist, share the key a|b|c, and are answered as one track,
    the more popular of the two. *)
Lemma track_groups_merge_distinct_pairs :
  let first := barHit "a|b" "c" "first" 10 in
  let second := barHit "a" "b|c" "second" 20 in
  Ascii7.toLowerCase (track_name first) <> Ascii7.toLowerCase (track_name second) /\
  Ascii7.toLowerCase (firstArtistName (track_artists first))
    <> Ascii7.toLowerCase (firstArtistName (track_artists second)) /\
  @trackKey Ascii7.runtime first = @trackKey Ascii7.runtime second /\
  @groupTracks Ascii7.runtime [first; second] = [("a|b|c"%string, [first; second])] /\
  match @aggregate Ascii7.runtime "a" 20 barData with
  | SearchSuccess results by_type _ => map spotify_id (tracks by_type) = ["second"%string]
  | SearchFailure _ => False
  end.
Proof. vm_compute. repeat split; discriminate. Qed.

(** ** Token lifecycle: a refresh that fails *)

Lemma getUserTokens_refresh_throws (env : Env) w sid tokens e w' trace :
  sessions w !! sid = Some tokens -> expiresAt tokens <= now w + 60000 ->
  run env (refreshUserAccessToken (Some sid)) w = (Throw e, w', trace) ->
  run env (getUserTokens (Some sid)) w = (Ok None, w', trace).
Proof.
  intros Hs Hstale Hrun. unfold run at 1. rewrite (getUserTokens_stale _ _ _ Hs Hstale).
  fold (run env (tryCatch
    (newAccessToken <- refreshUserAccessToken (Some sid) ;;
     if negb (truthy newAccessToken) then ret None
     else (w0 <- getWorld ;; ret (sessions w0 !! sid)))
    (fun refreshError => ret None)) w).
  rewrite run_tryCatch, run_bind, Hrun. unfold run, ret. simpl. rewrite app_nil_r.
  reflexivity.
Qed.

Lemma refresh_reply (env : Env) w sid tokens rt reply w1 :
  sessions w !! sid = Some tokens -> refreshToken tokens = Some rt -> rt <> ""%string ->
  env _ (FetchToken (RefreshTokenGrant rt)) w = (reply, w1) ->
  refreshFails reply ->
  run env (refreshUserAccessToken (Some sid)) w =
  (match reply with
   | Throw e => (Throw e, w1)
   | Ok resp =>
       if ok resp then (Throw BodyError, w1)
       else
         match error_json resp, text_body resp with
         | None, None => (Throw BodyError, w1)
         | _, _ =>
             (Throw (HttpRefreshError (status resp)),
              if (status resp =? 400) || (status resp =? 401) then forgotten sid w1 else w1)
         end
   end, [Issued (FetchToken (RefreshTokenGrant rt))]).
Proof.
  intros Hs Hrt Hne Henv Hfails.
  unfold run, refreshUserAccessToken, bind, getWorld. simpl.
  rewrite Hs, Hrt, (truthy_Some _ Hne). simpl. rewrite Henv.
  destruct reply as [resp | e]; simpl; [| reflexivity].
  destruct (ok resp) eqn:Hok; simpl.
  - destruct Hfails as [Habs | Hbody]; [congruence |].
    unfold responseJson. rewrite Hbody. reflexivity.
  - unfold responseJsonOrText, responseText, forgotten.
    destruct (error_json resp), (text_body resp); simpl; try reflexivity;
      (destruct ((status resp =? 400) || (status resp =? 401)); simpl;
       [rewrite lookup_delete_eq |]; reflexivity).
Qed.

(** C4, as the code has it. For a session that holds a refresh token and a
    refresh that does not go through: when the provider answers with status
    400 or 401 and a body that can be read, [session.tokens] is deleted, the
    deletion is saved, the refresh throws and [getUserTokens] answers
    [null]; in every other case (the request itself fails, any other
    status, a body that cannot be read) the refresh throws, [getUserTokens]
    answers [null], and the session and the store are as the reply left
    them, so that a later call which finds the record still there and is
    granted a token returns the refreshed record. *)
Theorem refresh_failure_policy (env : Env) w sid tokens rt reply w1 :
  sessions w !! sid = Some tokens -> expiresAt tokens <= now w + 60000 ->
  refreshToken tokens = Some rt -> rt <> ""%string ->
  env _ (FetchToken (RefreshTokenGrant rt)) w = (reply, w1) ->
  refreshFails reply ->
  (rejectsRefreshToken reply ->
     exists resp, reply = Ok resp /\
       run env (refreshUserAccessToken (Some sid)) w
         = (Throw (HttpRefreshError (status resp)), forgotten sid w1,
            [Issued (FetchToken (RefreshTokenGrant rt))]) /\
       run env (getUserTokens (Some sid)) w
         = (Ok None, forgotten sid w1, [Issued (FetchToken (RefreshTokenGrant rt))]) /\
       sessions (forgotten sid w1) !! sid = None /\
       sessionStore (forgotten sid w1) !! sid = None) /\
  (~ rejectsRefreshToken reply ->
     (exists e,
        run env (refreshUserAccessToken (Some sid)) w
          = (Throw e, w1, [Issued (FetchToken (RefreshTokenGrant rt))])) /\
     run env (getUserTokens (Some sid)) w
       = (Ok None, w1, [Issued (FetchToken (RefreshTokenGrant rt))]) /\
     (forall (env' : Env) resp' w2 td token,
        sessions w1 !! sid = Some tokens -> expiresAt tokens <= now w1 + 60000 ->
        env' _ (FetchToken (RefreshTokenGrant rt)) w1 = (Ok resp', w2) ->
        ok resp' = true -> json_body resp' = Some td ->
        access_token td = Some token -> token <> ""%string ->
        let record := tokensOf (withRefreshToken rt td) (now w2) in
        run env' (getUserTokens (Some sid)) w1
          = (Ok (Some record), stored sid record w2,
             [Issued (FetchToken (RefreshTokenGrant rt))]))).
Proof.
  intros Hs Hstale Hrt Hne Henv Hfails.
  pose proof (refresh_reply env w sid tokens rt reply w1 Hs Hrt Hne Henv Hfails) as Hrun.
  split.
  - intros (resp & -> & Hst & Hbody). exists resp. split; [reflexivity |].
    assert (Hok : ok resp = false).
    { unfold ok. destruct Hst as [-> | ->]; reflexivity. }
    assert (H4 : (status resp =? 400) || (status resp =? 401) = true).
    { destruct Hst as [-> | ->]; reflexivity. }
    rewrite Hok, H4 in Hrun.
    assert (Hthrow : run env (refreshUserAccessToken (Some sid)) w
              = (Throw (HttpRefreshError (status resp)), forgotten sid w1,
                 [Issued (FetchToken (RefreshTokenGrant rt))])).
    { rewrite Hrun. destruct Hbody as [[b Hb] | [b Hb]]; rewrite Hb;
        [| destruct (error_json resp)]; reflexivity. }
    split; [exact Hthrow |].
    split; [exact (getUserTokens_refresh_throws env w sid tokens _ _ _ Hs Hstale Hthrow) |].
    unfold forgotten. simpl. split; apply lookup_delete_eq.
  - intros Hnot.
    assert (Hthrow : exists e,
              run env (refreshUserAccessToken (Some sid)) w
                = (Throw e, w1, [Issued (FetchToken (RefreshTokenGrant rt))])).
    { rewrite Hrun. destruct reply as [resp | e]; [| eauto].
      destruct (ok resp); [eauto |].
      destruct (error_json resp) as [b |] eqn:Hj, (text_body resp) as [t |] eqn:Ht;
        [| | | eauto];
        (destruct ((status resp =? 400) || (status resp =? 401)) eqn:H4; [| eauto];
         exfalso; apply Hnot; exists resp; split; [reflexivity |];
         split; [apply orb_true_iff in H4 as [H4 | H4]; apply Z.eqb_eq in H4; auto |];
         rewrite ?Hj, ?Ht; eauto). }
    split; [exact Hthrow |].
    destruct Hthrow as [e Hthrow].
    split; [exact (getUserTokens_refresh_throws env w sid tokens _ _ _ Hs Hstale Hthrow) |].
    intros env' resp' w2 td token Hs1 Hstale1 Henv' Hok' Hbody' Htoken Htne record.
    pose proof (refresh_granted_run env' w1 sid tokens rt resp' w2 td token
                  Hs1 Hrt Hne Henv' Hok' Hbody' Htoken Htne) as Hgranted.
    fold record in Hgranted.
    unfold run at 1. rewrite (getUserTokens_stale _ _ _ Hs1 Hstale1).
    fold (run env' (tryCatch
      (newAccessToken <- refreshUserAccessToken (Some sid) ;;
       if negb (truthy newAccessToken) then ret None
       else (w0 <- getWorld ;; ret (sessions w0 !! sid)))
      (fun refreshError => ret None)) w1).
    rewrite run_tryCatch, run_bind, Hgranted. rewrite (truthy_Some _ Htne).
    unfold run, bind, getWorld, ret. simpl. rewrite lookup_insert_eq. reflexivity.
Qed.

Lemma refresh_failure_policy_witness :
  (run (serve rejecting) (refreshUserAccessToken (Some "sess-1")) staleWorld
     = (Throw (HttpRefreshError 400), forgotten "sess-1" staleWorld,
        [Issued (FetchToken (RefreshTokenGrant "refresh-0"))]) /\
   run (serve rejecting) (getUserTokens (Some "sess-1")) staleWorld
     = (Ok None, forgotten "sess-1" staleWorld,
        [Issued (FetchToken (RefreshTokenGrant "refresh-0"))]) /\
   sessions (forgotten "sess-1" staleWorld) !! "sess-1" = None /\
   sessionStore (forgotten "sess-1" staleWorld) !! "sess-1" = None) /\
  ((exists e,
      run (serve unavailable) (refreshUserAccessToken (Some "sess-1")) staleWorld
        = (Throw e, staleWorld, [Issued (FetchToken (RefreshTokenGrant "refresh-0"))])) /\
   run (serve unavailable) (getUserTokens (Some "sess-1")) staleWorld
     = (Ok None, staleWorld, [Issued (FetchToken (RefreshTokenGrant "refresh-0"))]) /\
   exists record,
     run (serve (granting 3600)) (getUserTokens (Some "sess-1")) staleWorld
       = (Ok (Some record), stored "sess-1" record staleWorld,
          [Issued (FetchToken (RefreshTokenGrant "refresh-0"))])).
Proof.
  split.
  - destruct (refresh_failure_policy (serve rejecting) staleWorld "sess-1" staleTokens
                "refresh-0" (Ok (respond 400 None (Some invalidGrant))) staleWorld)
      as [Hrejected _].
    + reflexivity.
    + simpl. lia.
    + reflexivity.
    + discriminate.
    + reflexivity.
    + left. reflexivity.
    + destruct Hrejected as (resp & Hresp & Hrun & Hget & Hs & Hst).
      * exists (respond 400 None (Some invalidGrant)). simpl. eauto.
      * injection Hresp as <-. auto.
  - destruct (refresh_failure_policy (serve unavailable) staleWorld "sess-1" staleTokens
                "refresh-0" (Ok (respond 503 None None)) staleWorld)
      as [_ Hother].
    + reflexivity.
    + simpl. lia.
    + reflexivity.
    + discriminate.
    + reflexivity.
    + left. reflexivity.
    + destruct Hother as (Hthrow & Hget & Hretry).
      * intros (resp & Heq & [Hst | Hst] & _); inversion Heq; subst; discriminate.
      * split; [exact Hthrow |]. split; [exact Hget |].
        eexists.
        apply (Hretry (serve (granting 3600)) (respond 200 (Some (granted 3600)) None)
                 staleWorld (granted 3600) "new-access");
          try reflexivity; discriminate.
Defined.

(** C4, where the claim fails. A refresh turned down with 403, a client
    error, leaves the record where it was, in memory and saved; so does one
    turned down with 400 when the body of the answer is not JSON. In both
    cases [getUserTokens] answers [null]. *)
Lemma refresh_client_error_keeps_record :
  run (serve forbidding) (getUserTokens (Some "sess-1")) staleWorld
    = (Ok None, staleWorld, [Issued (FetchToken (RefreshTokenGrant "refresh-0"))]) /\
  run (serve garbled) (getUserTokens (Some "sess-1")) staleWorld
    = (Ok None, staleWorld, [Issued (FetchToken (RefreshTokenGrant "refresh-0"))]) /\
  run (serve forbidding) (refreshUserAccessToken (Some "sess-1")) staleWorld
    = (Throw (HttpRefreshError 403), staleWorld,
       [Issued (FetchToken (RefreshTokenGrant "refresh-0"))]) /\
  run (serve garbled) (refreshUserAccessToken (Some "sess-1")) staleWorld
    = (Throw BodyError, staleWorld, [Issued (FetchToken (RefreshTokenGrant "refresh-0"))]) /\
  sessions staleWorld !! "sess-1" = Some staleTokens /\
  sessionStore staleWorld !! "sess-1" = Some staleTokens.
Proof. repeat split; vm_compute; reflexivity. Qed.
